(** * tele-cloud: the chunked-object lifecycle of [node_server.js]

    A shallow embedding of the three request handlers of the server
    ([POST /u], [DELETE /:fileId], [GET /:fileId]) and of the helpers they
    call, followed by the properties of the specification that were checked
    against them.

    Conventions of the embedding.
    - A JavaScript string is the list of its UTF-16 code units.
    - A JavaScript number is a double.  Those the server computes with
      are integers, [NaN] or an infinity: [Num z] is the double of value
      [z], and every operation rounds its result as the runtime does.
    - The metadata directory is a finite map from files to records.  The
      file an identifier names is for the file system to say: two
      identifiers can name one file.
    - What the outside world answers (the Telegram API, the random source)
      is an explicit argument of each handler; what the handler does to the
      outside world is returned as a list of effects. *)

From stdpp Require Import base gmap list strings pretty.
From Stdlib Require Import ZArith NArith Strings.Ascii Strings.Byte Lia.

Open Scope Z_scope.

(** ** JavaScript values *)

Module Js.

Abbreviation str := (list N).

(** The code units of an ASCII literal. *)
Definition u (s : string) : str := N_of_ascii <$> String.list_ascii_of_string s.

(** A string is falsy exactly when it is empty; [undefined] is [None]. *)
Definition truthy_str (v : option str) : bool :=
  match v with
  | Some (_ :: _) => true
  | _ => false
  end.

(** [WhiteSpace] and [LineTerminator] of ECMAScript: the code units that
    [\s] matches and that [trim] and [parseInt] strip. *)
Definition is_space (c : N) : bool :=
  ((9 <=? c) && (c <=? 13) || (c =? 32) || (c =? 160) || (c =? 5760)
   || (8192 <=? c) && (c <=? 8202) || (c =? 8232) || (c =? 8233)
   || (c =? 8239) || (c =? 8287) || (c =? 12288) || (c =? 65279))%N.

Definition is_digit (c : N) : bool := ((48 <=? c) && (c <=? 57))%N.
Definition is_upper (c : N) : bool := ((65 <=? c) && (c <=? 90))%N.
Definition is_lower (c : N) : bool := ((97 <=? c) && (c <=? 122))%N.
Definition is_hyphen (c : N) : bool := (c =? 45)%N.

(** [s.split(sep)] for a separator of one code unit. *)
Fixpoint split (sep : N) (s : str) : list str :=
  match s with
  | [] => [[]]
  | c :: s' =>
      if (c =? sep)%N then [] :: split sep s'
      else match split sep s' with
           | seg :: rest => (c :: seg) :: rest
           | [] => [[c]]
           end
  end.

(** [a.join(sep)] for a separator of one code unit. *)
Fixpoint join (sep : N) (a : list str) : str :=
  match a with
  | [] => []
  | [x] => x
  | x :: rest => x ++ sep :: join sep rest
  end.

(** [a.pop()]: the array without its last element, and that element
    ([undefined] on the empty array). *)
Definition pop (a : list str) : list str * option str :=
  (removelast a, last a).

(** [v || ""] on a string or [undefined]. *)
Definition or_empty (v : option str) : str :=
  if truthy_str v then default [] v else [].

Fixpoint drop_while (p : N -> bool) (s : str) : str :=
  match s with
  | c :: s' => if p c then drop_while p s' else s
  | [] => []
  end.

Fixpoint take_while (p : N -> bool) (s : str) : str :=
  match s with
  | c :: s' => if p c then c :: take_while p s' else []
  | [] => []
  end.

Definition trim_start (s : str) : str := drop_while is_space s.
Definition trim (s : str) : str := reverse (trim_start (reverse (trim_start s))).

(** [s.replace(/[class]/g, "")]: delete every code unit of the class. *)
Definition delete_all (class : N -> bool) (s : str) : str :=
  filter (fun c => class c = false) s.

(** [s.replace(/[class]+/g, by)]: every maximal run of the class becomes
    one [by].  [inrun] tells that the previous code unit was in a run. *)
Fixpoint squeeze_from (class : N -> bool) (by_ : N) (inrun : bool) (s : str) : str :=
  match s with
  | [] => []
  | c :: s' =>
      if class c
      then (if inrun then squeeze_from class by_ true s'
            else by_ :: squeeze_from class by_ true s')
      else c :: squeeze_from class by_ false s'
  end.

Definition squeeze (class : N -> bool) (by_ : N) (s : str) : str :=
  squeeze_from class by_ false s.

(** [toLowerCase] on the Basic Latin letters.  The server applies it only
    to strings already reduced to letters, digits, hyphens and white
    space, where this is all the runtime's case mapping does. *)
Definition lower (c : N) : N := if is_upper c then (c + 32)%N else c.
Definition toLowerCase (s : str) : str := lower <$> s.

(** *** Numbers *)

Inductive number :=
| NaN
| Inf (negative : bool)
| Num (z : Z).

#[global] Instance number_eq_dec : EqDecision number.
Proof. solve_decision. Defined.

(** The integer nearest to [q + r / d], the even one of two that are as
    near: round to nearest, ties to even. *)
Definition nearest_even (q r d : Z) : Z :=
  if 2 * r <? d then q
  else if d <? 2 * r then q + 1
  else if Z.even q then q else q + 1.

(** The double nearest to the integer [z].  Up to 2^53 in magnitude every
    integer is a double; above, a double has 53 significant bits, and from
    [2^1024 - 2^970] on the nearest one is an infinity. *)
Definition to_double (z : Z) : number :=
  let a := Z.abs z in
  if a <=? 2 ^ 53 then Num z
  else
    let e := Z.log2 a - 52 in
    let m := nearest_even (a / 2 ^ e) (a mod 2 ^ e) (2 ^ e) in
    if 2 ^ 1024 <=? m * 2 ^ e then Inf (z <? 0)
    else Num (Z.sgn z * (m * 2 ^ e)).

(** The integers that are doubles. *)
Definition is_double (z : Z) : bool := bool_decide (to_double z = Num z).

(** The numbers the runtime holds: an integer is one when it is a double. *)
Definition is_value (a : number) : bool :=
  match a with
  | Num z => is_double z
  | _ => true
  end.

Definition neg (a : number) : number :=
  match a with
  | NaN => NaN
  | Inf s => Inf (negb s)
  | Num z => Num (- z)
  end.

Definition add (a b : number) : number :=
  match a, b with
  | NaN, _ | _, NaN => NaN
  | Inf s, Inf s' => if Bool.eqb s s' then Inf s else NaN
  | Inf s, Num _ | Num _, Inf s => Inf s
  | Num x, Num y => to_double (x + y)
  end.

Definition sub (a b : number) : number := add a (neg b).

(** [Math.min(a, b)]; like the comparisons below, it does not round. *)
Definition min (a b : number) : number :=
  match a, b with
  | NaN, _ | _, NaN => NaN
  | Inf true, _ | _, Inf true => Inf true
  | Inf false, x | x, Inf false => x
  | Num x, Num y => Num (Z.min x y)
  end.

(** [a < b]; every comparison with [NaN] is false. *)
Definition lt (a b : number) : bool :=
  match a, b with
  | NaN, _ | _, NaN => false
  | Inf true, Inf true => false
  | Inf true, _ => true
  | _, Inf true => false
  | Inf false, _ => false
  | Num _, Inf false => true
  | Num x, Num y => x <? y
  end.

Definition gt (a b : number) : bool := lt b a.

(** [a === b] on numbers. *)
Definition strict_eq (a b : number) : bool :=
  match a, b with
  | Num x, Num y => x =? y
  | Inf s, Inf s' => Bool.eqb s s'
  | _, _ => false
  end.

(** The sign of the quotient of an infinity by a finite number; a zero
    divisor read from the store is the positive zero. *)
Definition quot_sign (s : bool) (y : Z) : bool := xorb s (y <? 0).

(** The double nearest to the quotient [x / y] of two positive integers,
    as a significand of 53 bits and an exponent: [m * 2 ^ e].  The exponent
    has no lower bound here: a quotient of integers that are doubles is too
    far from zero to be rounded onto it, and only its floor and its
    ceiling are taken. *)
Definition quotient (x y : Z) : Z * Z :=
  let e0 := Z.log2 x - Z.log2 y - 53 in
  let scaled e := if 0 <=? e then (x, y * 2 ^ e) else (x * 2 ^ (- e), y) in
  let e := if (scaled e0).1 / (scaled e0).2 <? 2 ^ 53 then e0 else e0 + 1 in
  (nearest_even ((scaled e).1 / (scaled e).2) ((scaled e).1 mod (scaled e).2)
     (scaled e).2, e).

(** [Math.floor(x / y)] for a divisor that is not zero.  The quotient of
    an integer up to 2^53 in magnitude is not near enough to the next
    integer to be rounded onto it, so that its floor is the exact one. *)
Definition floor_quotient (x y : Z) : Z :=
  if Z.abs x <=? 2 ^ 53 then x / y
  else
    let '(m, e) := quotient (Z.abs x) (Z.abs y) in
    let v := Z.sgn x * Z.sgn y * m in
    if 0 <=? e then v * 2 ^ e else v / 2 ^ (- e).

(** [Math.floor(a / b)]. *)
Definition floor_div (a b : number) : number :=
  match a, b with
  | NaN, _ | _, NaN => NaN
  | Inf _, Inf _ => NaN
  | Inf s, Num y => Inf (quot_sign s y)
  | Num _, Inf _ => Num 0
  | Num x, Num y =>
      if y =? 0 then (if x =? 0 then NaN else Inf (x <? 0))
      else Num (floor_quotient x y)
  end.

(** [Math.ceil(a / b)]. *)
Definition ceil_div (a b : number) : number :=
  match a, b with
  | NaN, _ | _, NaN => NaN
  | Inf _, Inf _ => NaN
  | Inf s, Num y => Inf (quot_sign s y)
  | Num _, Inf _ => Num 0
  | Num x, Num y =>
      if y =? 0 then (if x =? 0 then NaN else Inf (x <? 0))
      else Num (- floor_quotient (- x) y)
  end.

(** [a % b]: the remainder takes the sign of the dividend, and is a
    double whenever the operands are. *)
Definition rem (a b : number) : number :=
  match a, b with
  | NaN, _ | _, NaN => NaN
  | Inf _, _ => NaN
  | Num x, Inf _ => Num x
  | Num x, Num y => if y =? 0 then NaN else Num (Z.rem x y)
  end.

(** A number is falsy when it is zero or [NaN]. *)
Definition truthy_num (a : number) : bool :=
  match a with
  | NaN => false
  | Inf _ => true
  | Num z => negb (z =? 0)
  end.

(** The integer that [String] prints for the positive double [a] above
    2^53: the one with the fewest significant digits that reads back as
    [a], the nearest to [a] of two such, the one of even last digit of two
    that are as near.  [k] is the number of significant digits that is
    tried, out of the [n] digits of [a]. *)
Fixpoint shortest_from (a n k : Z) (fuel : nat) : Z :=
  match fuel with
  | O => a
  | S fuel' =>
      let p := 10 ^ (n - k) in
      let lo := a / p * p in
      let hi := lo + p in
      let ok_lo := bool_decide (to_double lo = Num a) in
      let ok_hi := bool_decide (to_double hi = Num a) in
      if ok_lo && ok_hi then
        (if (a - lo <? hi - a) || ((a - lo =? hi - a) && Z.even (lo / p))
         then lo else hi)
      else if ok_lo then lo
      else if ok_hi then hi
      else shortest_from a n (k + 1) fuel'
  end.

Definition shortest (a : Z) : Z :=
  let n := length (u (pretty a)) in
  shortest_from a (Z.of_nat n) 1 n.

Definition strip_zeros (ds : str) : str :=
  reverse (drop_while (fun c => c =? 48)%N (reverse ds)).

(** The digits of [v] as [String] lays them out: in full up to 21 digits,
    and from there on as [d.ddde+xx]. *)
Definition print_digits (v : Z) : str :=
  let ds := u (pretty v) in
  if (length ds <=? 21)%nat then ds
  else
    match strip_zeros ds with
    | d :: rest =>
        d :: match rest with
             | [] => []
             | _ => 46%N :: rest
             end
          ++ u "e+" ++ u (pretty (Z.of_nat (length ds) - 1))
    | [] => ds
    end.

(** [String(a)], as a template literal prints a number.  Up to 2^53 the
    shortest digits that read back as an integer are its own. *)
Definition to_string (a : number) : str :=
  match a with
  | NaN => u "NaN"
  | Inf false => u "Infinity"
  | Inf true => u "-Infinity"
  | Num z =>
      if Z.abs z <=? 2 ^ 53 then u (pretty z)
      else (if z <? 0 then [45%N] else []) ++ print_digits (shortest (Z.abs z))
  end.

(** [JSON.stringify(a)]: the number a metadata file holds for [a]; a
    number that is not finite is written as [null]. *)
Definition to_json (a : number) : option Z :=
  match a with
  | Num z => Some z
  | _ => None
  end.

(** [ToNumber] of a stored field: [JSON.parse] reads the number of the
    file as the nearest double, and [null] counts as zero in arithmetic. *)
Definition of_json (v : option Z) : number :=
  match v with
  | Some z => to_double z
  | None => Num 0
  end.

(** [String(v)] of a stored field. *)
Definition json_to_string (v : option Z) : str :=
  match v with
  | Some z => to_string (to_double z)
  | None => u "null"
  end.

(** *** [parseInt(s, 10)] *)

Definition digit_value (c : N) : Z := Z.of_N c - 48.

Definition digits_value (ds : str) : Z :=
  fold_left (fun acc c => 10 * acc + digit_value c) ds 0.

Definition take_digits (s : str) : str := take_while is_digit s.

(** The digits are read as the double nearest to the integer they
    write. *)
Definition parse_unsigned (s : str) : number :=
  match take_digits s with
  | [] => NaN
  | ds => to_double (digits_value ds)
  end.

Definition parseInt (s : str) : number :=
  match trim_start s with
  | c :: s' =>
      if (c =? 45)%N then neg (parse_unsigned s')
      else if (c =? 43)%N then parse_unsigned s'
      else parse_unsigned (c :: s')
  | [] => NaN
  end.

(** *** [a.slice(from, to)] *)

(** The relative index of [slice], clamped into [0 .. len]. *)
Definition clamp_index (len : nat) (k : number) : nat :=
  match k with
  | NaN => 0%nat
  | Inf true => 0%nat
  | Inf false => len
  | Num z =>
      if z <? 0 then Z.to_nat (Z.max (Z.of_nat len + z) 0)
      else Z.to_nat (Z.min z (Z.of_nat len))
  end.

Definition slice {A} (a : list A) (from to : number) : list A :=
  let k := clamp_index (length a) from in
  let e := clamp_index (length a) to in
  take (e - k) (drop k a).

End Js.

Import Js.

(** ** What the runtime and the deployment provide

    [String.prototype.normalize], the table of the [mime-types] package,
    the bot token of the environment and the file system under the
    metadata directory are not part of the repository: the embedding is
    parametric in them.  [metadata_file id] is the file that
    [path.join(METADATA_DIR, id + ".json")] names: the path is normalised
    and the file system identifies files as it sees fit, so that two
    identifiers can name one file ([b] and [./b]).  The files so named are
    taken to be files that the server can create, read and remove. *)

Class Platform := {
  normalize_NFD : str -> str;
  mime_lookup : str -> option str;
  bot_token : str;
  metadata_file : str -> str
}.

(** ** Utility functions *)

Definition hyphen : N := 45%N.
Definition dot : N := 46%N.

(** The combining diacritical marks, U+0300 to U+036F: what the first
    [replace] of [formatFileName] deletes. *)
Definition is_combining (c : N) : bool := ((768 <=? c) && (c <=? 879))%N.

(** The class [[a-zA-Z0-9\s-]]; its complement is what the second
    [replace] of [formatFileName] deletes. *)
Definition is_kept (c : N) : bool :=
  is_lower c || is_upper c || is_digit c || is_space c || is_hyphen c.

(** The constant [cleaned] of [formatFileName]. *)
Definition cleaned `{Platform} (name : str) : str :=
  trim (delete_all (fun c => negb (is_kept c))
          (delete_all is_combining (normalize_NFD name))).

(** The constant [kebab] of [formatFileName]. *)
Definition kebab (cleaned : str) : str :=
  squeeze is_hyphen hyphen (squeeze is_space hyphen (toLowerCase cleaned)).

Definition formatFileName `{Platform}
    (filename : str) (isChunk : bool) (chunkIndex : number) : str :=
  let '(splitted, popped) := pop (split dot filename) in
  let extension := or_empty popped in
  let name := join dot splitted in
  kebab (cleaned name)
    ++ (if isChunk then hyphen :: to_string chunkIndex else [])
    ++ dot :: extension.

(** The extension of a stored name: what follows its last dot. *)
Definition extension_of (name : str) : str :=
  default [] (last (split dot name)).

Definition hex_digit (n : N) : N := (if n <? 10 then 48 + n else 87 + n)%N.

(** [buffer.toString('hex')]. *)
Definition to_hex (b : list byte) : str :=
  b ≫= (fun x => [hex_digit (Byte.to_N x / 16)%N; hex_digit (Byte.to_N x mod 16)%N]).

(** [generateDeleteToken], given the bytes that [randomBytes(24)] drew. *)
Definition generateDeleteToken (entropy : list byte) : str := to_hex entropy.

(** ** The metadata store *)

(** One metadata file, as [JSON.parse] reads it.  A numeric field is the
    integer the file holds; one that was [NaN] or an infinity when it was
    written is [null]. *)
Record FileRecord := {
  done : bool;
  fileId : str;
  fileName : str;
  fileSize : option Z;
  chunkSize : option Z;
  totalChunks : option Z;
  deleteToken : option str;
  fileIds : list str
}.

(** The metadata directory: the record of each file that exists. *)
Abbreviation store := (gmap str FileRecord).

(** ** Effects and results *)

Inductive effect :=
| WriteFile (file : str) (r : FileRecord)
| Unlink (file : str)
| SendDocument (name : str) (chunk : list byte)
| GetFile (ref : str)
| Fetch (url : str) (range : option str).

(** What a call that may throw produced. *)
Inductive outcome (A : Type) :=
| Returned (a : A)
| Thrown.
Arguments Returned {A} a.
Arguments Thrown {A}.

(** What a handler did: its answer ([None] while it is still waiting for
    the backend), the store it leaves and its effects, in order. *)
Record result (R : Type) := {
  response : option R;
  after : store;
  effects : list effect
}.
Arguments response {R} _.
Arguments after {R} _.
Arguments effects {R} _.

Definition answer {R : Type} (st : store) (effs : list effect) (r : R) : result R :=
  {| response := Some r; after := st; effects := effs |}.

(** ** The Telegram client *)

(** One answer of [sendDocument]: the [file_id] of the stored document, or
    a failure with the [retry_after] parameter of its body, if any. *)
Inductive send_reply :=
| Sent (file_id : str)
| Rejected (retry_after : option Z).

Definition is_rate_limit (retry_after : option Z) : bool :=
  match retry_after with
  | Some s => truthy_num (Num s)
  | None => false
  end.

(** [uploadToService]: the request is sent again after every rate-limit
    signal.  [replies] is what the backend answers, request after request;
    the call is still waiting ([None]) if every scripted answer is a
    rate-limit signal. *)
Fixpoint uploadToService (replies : list send_reply) (file : list byte) (name : str)
    : list effect * option (outcome str) :=
  match replies with
  | [] => ([], None)
  | Sent id :: _ => ([SendDocument name file], Some (Returned id))
  | Rejected retry_after :: later =>
      if is_rate_limit retry_after
      then let '(effs, r) := uploadToService later file name in
           (SendDocument name file :: effs, r)
      else ([SendDocument name file], Some Thrown)
  end.

(** [getFileFromService]: [getFile ref] is the [file_path] the backend
    returns, [None] when the answer is not [ok] or the request fails. *)
Definition file_url `{Platform} (file_path : str) : str :=
  u "https://api.telegram.org/file/bot" ++ bot_token ++ u "/" ++ file_path.

Definition getFileFromService `{Platform} (getFile : str -> option str) (ref : str)
    : option str :=
  match getFile ref with
  | Some file_path => Some (file_url file_path)
  | None => None
  end.

(** [convertFileIdsToUrls]: [filter(Boolean)] keeps the truthy entries. *)
Definition convertFileIdsToUrls `{Platform} (getFile : str -> option str)
    (refs : list str) : list str :=
  omap (fun v => if truthy_str v then v else None)
       (getFileFromService getFile <$> refs).

(** ** [POST /u] *)

Record upload_request := {
  req_chunk : option (list byte);
  req_fileId : option str;
  req_fileName : option str;
  req_fileSize : option str;
  req_chunkIndex : option str;
  req_chunkSize : option str;
  req_totalChunks : option str
}.

Inductive upload_response :=
| MissingFields
| ChunkSizeOutOfRange (chunk_size : number)
| AlreadyUploaded (id : str)
| FileUploaded (id name : str) (total : option Z) (token : option str)
| ChunkUploaded (id name : str) (next : number) (total : option Z)
| UploadFailed.

Definition upload_status (r : upload_response) : Z :=
  match r with
  | MissingFields | ChunkSizeOutOfRange _ => 400
  | AlreadyUploaded _ => 409
  | FileUploaded _ _ _ _ | ChunkUploaded _ _ _ _ => 200
  | UploadFailed => 500
  end.

(** The first guard of the handler: every field and the chunk are there. *)
Definition fields_present (req : upload_request) : bool :=
  bool_decide (is_Some (req_chunk req))
  && truthy_str (req_fileId req) && truthy_str (req_fileName req)
  && truthy_str (req_fileSize req) && truthy_str (req_chunkIndex req)
  && truthy_str (req_chunkSize req) && truthy_str (req_totalChunks req).

Definition chunk_size_rejected (chunkSize : number) : bool :=
  lt chunkSize (Num (1024 * 1024)) || gt chunkSize (Num (50 * 1024 * 1024)).

(** [metadata.fileIds.push(ref)]. *)
Definition push_ref (ref : str) (m : FileRecord) : FileRecord :=
  {| done := done m; fileId := fileId m; fileName := fileName m;
     fileSize := fileSize m; chunkSize := chunkSize m;
     totalChunks := totalChunks m; deleteToken := deleteToken m;
     fileIds := fileIds m ++ [ref] |}.

(** [metadata.done = true; metadata.deleteToken = token]. *)
Definition complete (token : str) (m : FileRecord) : FileRecord :=
  {| done := true; fileId := fileId m; fileName := fileName m;
     fileSize := fileSize m; chunkSize := chunkSize m;
     totalChunks := totalChunks m; deleteToken := Some token;
     fileIds := fileIds m |}.

(** The record written for an identifier that has no metadata file yet. *)
Definition new_metadata `{Platform} (id name : str)
    (fileSize' chunkSize' totalChunks' : number) : FileRecord :=
  {| done := false; fileId := id;
     fileName := formatFileName name false (Num 0);
     fileSize := to_json fileSize'; chunkSize := to_json chunkSize';
     totalChunks := to_json totalChunks'; deleteToken := None;
     fileIds := [] |}.

(** The block that looks for the metadata file: [None] when the upload is
    already complete; otherwise the store, with the file created if it was
    missing, the writes made, and the record read back. *)
Definition open_metadata (st : store) (file : str) (fresh : FileRecord)
    : option (store * list effect * FileRecord) :=
  match st !! file with
  | Some existing => if done existing then None else Some (st, [], existing)
  | None => Some (<[file := fresh]> st, [WriteFile file fresh], fresh)
  end.

(** The rest of the handler: the chunk goes to the backend, its reference
    is pushed, the record is marked when the request declares its chunk the
    last one, and the record is written. *)
Definition store_chunk `{Platform} (st1 : store) (effs1 : list effect)
    (metadata : FileRecord) (file id name : str) (chunk : list byte)
    (chunkIndex' totalChunks' : number)
    (replies : list send_reply) (entropy : list byte) : result upload_response :=
  let '(sends, uploaded) :=
    uploadToService replies chunk (formatFileName name true chunkIndex') in
  match uploaded with
  | None => {| response := None; after := st1; effects := effs1 ++ sends |}
  | Some Thrown => answer st1 (effs1 ++ sends) UploadFailed
  | Some (Returned ref) =>
      let pushed := push_ref ref metadata in
      let last := strict_eq chunkIndex' (sub totalChunks' (Num 1)) in
      let written :=
        if last then complete (generateDeleteToken entropy) pushed else pushed in
      answer (<[file := written]> st1)
             (effs1 ++ sends ++ [WriteFile file written])
             (if last
              then FileUploaded id (fileName written) (totalChunks written)
                                (deleteToken written)
              else ChunkUploaded id (fileName written)
                                 (add chunkIndex' (Num 1)) (totalChunks written))
  end.

(** A text field of the form: [undefined] reads as the empty string once
    the first guard has passed. *)
Definition field (v : option str) : str := default [] v.

Definition post_u `{Platform} (st : store) (req : upload_request)
    (replies : list send_reply) (entropy : list byte) : result upload_response :=
  if negb (fields_present req) then answer st [] MissingFields
  else
    let chunk := default [] (req_chunk req) in
    let id := field (req_fileId req) in
    let file := metadata_file id in
    let name := field (req_fileName req) in
    let chunkIndex' := parseInt (field (req_chunkIndex req)) in
    let chunkSize' := parseInt (field (req_chunkSize req)) in
    let totalChunks' := parseInt (field (req_totalChunks req)) in
    let fileSize' := parseInt (field (req_fileSize req)) in
    if chunk_size_rejected chunkSize'
    then answer st [] (ChunkSizeOutOfRange chunkSize')
    else
      match open_metadata st file
              (new_metadata id name fileSize' chunkSize' totalChunks') with
      | None => answer st [] (AlreadyUploaded id)
      | Some (st1, effs1, metadata) =>
          store_chunk st1 effs1 metadata file id name chunk chunkIndex' totalChunks'
                      replies entropy
      end.

(** ** [DELETE /:fileId] *)

Inductive delete_response :=
| MissingToken
| DeleteNotFound
| CannotBeDeleted
| InvalidToken
| Deleted (id : str).

Definition delete_status (r : delete_response) : Z :=
  match r with
  | MissingToken | CannotBeDeleted => 400
  | DeleteNotFound => 404
  | InvalidToken => 403
  | Deleted _ => 200
  end.

Definition delete_file `{Platform} (st : store) (id : str) (token : option str)
    : result delete_response :=
  if negb (truthy_str token) then answer st [] MissingToken
  else
    match st !! metadata_file id with
    | None => answer st [] DeleteNotFound
    | Some metadata =>
        if negb (truthy_str (deleteToken metadata)) then answer st [] CannotBeDeleted
        else if negb (bool_decide (deleteToken metadata = token))
        then answer st [] InvalidToken
        else answer (delete (metadata_file id) st) [Unlink (metadata_file id)]
                    (Deleted id)
    end.

(** ** [GET /:fileId] *)

(** One remote object to fetch, with the byte offsets set on it, if any. *)
Record part := {
  url : str;
  part_start : option number;
  part_end : option number
}.

Definition whole (link : str) : part :=
  {| url := link; part_start := None; part_end := None |}.

Definition set_start (v : number) (p : part) : part :=
  {| url := url p; part_start := Some v; part_end := part_end p |}.

Definition set_end (v : number) (p : part) : part :=
  {| url := url p; part_start := part_start p; part_end := Some v |}.

(** The headers the handler sets, each with the value it passes, and the
    status. *)
Record headers := {
  status : Z;
  content_length : str;
  accept_ranges : str;
  content_disposition : str;
  content_type : str;
  content_range : option str
}.

Inductive download_response :=
| FileNotFound
| InternalError
| Streamed (h : headers) (body : list byte) (ended : bool).

Definition download_status (r : download_response) : Z :=
  match r with
  | FileNotFound => 404
  | InternalError => 500
  | Streamed h _ _ => status h
  end.

(** What [res.setHeader] accepts in the value of a header: a tab and the
    code units from U+0020 to U+00FF but U+007F.  On a value that holds any
    other it throws. *)
Definition is_header_char (c : N) : bool :=
  ((c =? 9) || (32 <=? c) && (c <=? 126) || (128 <=? c) && (c <=? 255))%N.

Definition header_value (v : str) : bool := forallb is_header_char v.

(** What fetching one remote object gives: the request fails, or a stream
    delivers [data] and then ends ([intact]) or raises an error. *)
Inductive fetched :=
| Refused
| Stream (data : list byte) (intact : bool).

(** [rangeStr ? parseInt(rangeStr.split("=")[1].split("-")[0], 10) : null].
    Without a second piece, [split] is called on [undefined] and throws. *)
Definition range_start (rangeStr : option str) : outcome (option number) :=
  if truthy_str rangeStr then
    match split 61%N (default [] rangeStr) !! 1%nat with
    | Some piece => Returned (Some (parseInt (default [] (split hyphen piece !! 0%nat))))
    | None => Thrown
    end
  else Returned None.

(** [rangeStr && start !== null ? Math.min(start + chunkSize, fileSize - 1) : null]. *)
Definition range_end (rangeStr : option str) (start : option number)
    (metadata : FileRecord) : option number :=
  if truthy_str rangeStr then
    match start with
    | Some s =>
        Some (min (add s (of_json (chunkSize metadata)))
                  (sub (of_json (fileSize metadata)) (Num 1)))
    | None => None
    end
  else None.

Definition startPartNumber (start : number) (metadata : FileRecord) : number :=
  floor_div start (of_json (chunkSize metadata)).

Definition endPartNumber (end_ : number) (metadata : FileRecord) : number :=
  ceil_div end_ (of_json (chunkSize metadata)).

(** The parts of a ranged request: the slice of the links, with the start
    offset set on its first element and the end offset on its last one. *)
Definition ranged_parts (urls : list str) (start end_ : number)
    (metadata : FileRecord) : list part :=
  let parts :=
    whole <$> slice urls (startPartNumber start metadata) (endPartNumber end_ metadata) in
  if bool_decide (0 < length parts)%nat then
    alter (set_end (rem end_ (of_json (chunkSize metadata)))) (length parts - 1)%nat
      (alter (set_start (rem start (of_json (chunkSize metadata)))) 0%nat parts)
  else parts.

(** The headers set before the range is looked at. *)
Definition full_headers `{Platform} (metadata : FileRecord) : headers :=
  {| status := 200;
     content_length := json_to_string (fileSize metadata);
     accept_ranges := u "bytes";
     content_disposition :=
       u "attachment; filename=" ++ 34%N :: fileName metadata ++ [34%N];
     content_type :=
       default (u "application/octet-stream") (mime_lookup (fileName metadata));
     content_range := None |}.

(** The headers set before the range is looked at are accepted: of the
    four values, the length is a number and [bytes] a constant, so that
    only the name and the type it gives can make [setHeader] throw. *)
Definition headers_accepted (h : headers) : bool :=
  header_value (content_disposition h) && header_value (content_type h).

(** [res.status(206)] and the two headers of a partial answer. *)
Definition partial_headers (h : headers) (start end_ : number)
    (metadata : FileRecord) : headers :=
  {| status := 206;
     content_length := to_string (add (sub end_ start) (Num 1));
     accept_ranges := accept_ranges h;
     content_disposition := content_disposition h;
     content_type := content_type h;
     content_range :=
       Some (u "bytes " ++ to_string start ++ u "-" ++ to_string end_
               ++ u "/" ++ json_to_string (fileSize metadata)) |}.

(** [partsToDownload], with the headers as it leaves them. *)
Definition partsToDownload (h : headers) (urls : list str) (rangeStr : option str)
    (start end_ : option number) (metadata : FileRecord) : list part * headers :=
  match truthy_str rangeStr, start, end_ with
  | true, Some s, Some e => (ranged_parts urls s e metadata, partial_headers h s e metadata)
  | _, _, _ => (whole <$> urls, h)
  end.

(** The [Range] header of the request for one part. *)
Definition part_range (p : part) : option str :=
  if bool_decide (is_Some (part_start p)) || bool_decide (is_Some (part_end p)) then
    Some (u "bytes="
            ++ match part_start p with
               | Some s => if truthy_num s then to_string s else u "0"
               | None => u "0"
               end
            ++ u "-"
            ++ match part_end p with
               | Some e => to_string e
               | None => []
               end)
  else None.

(** The loop over the parts: the requests made, the bytes written to the
    client, and whether every part was streamed to its end. *)
Fixpoint stream_parts (fetch : str -> option str -> fetched) (parts : list part)
    : list effect * list byte * bool :=
  match parts with
  | [] => ([], [], true)
  | p :: later =>
      match fetch (url p) (part_range p) with
      | Refused => ([Fetch (url p) (part_range p)], [], false)
      | Stream data false => ([Fetch (url p) (part_range p)], data, false)
      | Stream data true =>
          let '(effs, body, ok) := stream_parts fetch later in
          (Fetch (url p) (part_range p) :: effs, data ++ body, ok)
      end
  end.

(** The handler.  When setting a header throws, nothing was asked of the
    backend yet and the [catch] answers 500.  When a fetch fails, it answers
    500 only if nothing was written yet; otherwise the answer stays as it
    is, short of its end. *)
Definition get_file `{Platform} (st : store) (id : str) (rangeStr : option str)
    (getFile : str -> option str) (fetch : str -> option str -> fetched)
    : result download_response :=
  match st !! metadata_file id with
  | None => answer st [] FileNotFound
  | Some metadata =>
      let h := full_headers metadata in
      if negb (headers_accepted h) then answer st [] InternalError
      else
        let urls := convertFileIdsToUrls getFile (fileIds metadata) in
        let resolved := GetFile <$> fileIds metadata in
        match range_start rangeStr with
        | Thrown => answer st resolved InternalError
        | Returned start =>
            let end_ := range_end rangeStr start metadata in
            let '(parts, h') := partsToDownload h urls rangeStr start end_ metadata in
            let '(fetches, body, ok) := stream_parts fetch parts in
            answer st (resolved ++ fetches)
              (if ok then Streamed h' body true
               else match body with
                    | [] => InternalError
                    | _ => Streamed h' body false
                    end)
        end
  end.

(** ** Sequences of requests *)

Inductive operation :=
| IngestChunk (req : upload_request) (replies : list send_reply) (entropy : list byte)
| Download (id : str) (rangeStr : option str)
    (getFile : str -> option str) (fetch : str -> option str -> fetched)
| DeleteFile (id : str) (token : option str).

(** The store one request leaves. *)
Definition step `{Platform} (st : store) (op : operation) : store :=
  match op with
  | IngestChunk req replies entropy => after (post_u st req replies entropy)
  | Download id rangeStr getFile fetch => after (get_file st id rangeStr getFile fetch)
  | DeleteFile id token => after (delete_file st id token)
  end.

Definition run `{Platform} (st : store) (ops : list operation) : store :=
  foldl step st ops.

(** The stores the server can be in: it starts with an empty directory. *)
Definition reachable `{Platform} (st : store) : Prop :=
  exists ops, st = run ∅ ops.

(** ** Vocabulary of the statements *)

(** A request that passes both guards of [POST /u]. *)
Definition accepted (req : upload_request) : bool :=
  fields_present req
  && negb (chunk_size_rejected (parseInt (field (req_chunkSize req)))).

Definition request_id (req : upload_request) : str := field (req_fileId req).

(** The metadata file the request is about. *)
Definition request_file `{Platform} (req : upload_request) : str :=
  metadata_file (request_id req).

(** The record the request would create. *)
Definition request_metadata `{Platform} (req : upload_request) : FileRecord :=
  new_metadata (request_id req) (field (req_fileName req))
    (parseInt (field (req_fileSize req))) (parseInt (field (req_chunkSize req)))
    (parseInt (field (req_totalChunks req))).

(** The request declares the chunk it carries to be the last one:
    [chunkIndex === totalChunks - 1] on the parsed fields. *)
Definition declares_last (req : upload_request) : bool :=
  strict_eq (parseInt (field (req_chunkIndex req)))
            (sub (parseInt (field (req_totalChunks req))) (Num 1)).

(** The record a request writes once its chunk is on the backend under
    [ref]. *)
Definition written_record (req : upload_request) (entropy : list byte) (ref : str)
    (metadata : FileRecord) : FileRecord :=
  if declares_last req
  then complete (generateDeleteToken entropy) (push_ref ref metadata)
  else push_ref ref metadata.

(** A reply that makes [uploadToService] wait and send again. *)
Definition rate_limited (r : send_reply) : bool :=
  match r with
  | Rejected retry_after => is_rate_limit retry_after
  | Sent _ => false
  end.

(** What the backend call of a request produces. *)
Definition upload_of `{Platform} (req : upload_request) (replies : list send_reply)
    : option (outcome str) :=
  (uploadToService replies (default [] (req_chunk req))
     (formatFileName (field (req_fileName req)) true
        (parseInt (field (req_chunkIndex req))))).2.

(** The chunk of the request reaches the backend and the request declares
    it the last one: a chunk with [chunkIndex == totalChunks - 1] is
    ingested. *)
Definition ingests_last `{Platform} (req : upload_request)
    (replies : list send_reply) : Prop :=
  accepted req = true /\ declares_last req = true
  /\ exists ref, upload_of req replies = Some (Returned ref).

(** The upload of the identifier of the request is already complete. *)
Definition already_complete `{Platform} (st : store) (req : upload_request) : Prop :=
  exists m, st !! request_file req = Some m /\ done m = true.

(** [m'] is [m] with references appended and nothing else of the
    declaration changed. *)
Definition extends (m m' : FileRecord) : Prop :=
  fileIds m `prefix_of` fileIds m'
  /\ totalChunks m' = totalChunks m /\ fileSize m' = fileSize m
  /\ fileName m' = fileName m /\ chunkSize m' = chunkSize m.

(** The delete token is there exactly when the upload is complete. *)
Definition token_iff_done (m : FileRecord) : Prop :=
  deleteToken m <> None <-> done m = true.

Definition consistent (st : store) : Prop :=
  forall file m, st !! file = Some m -> token_iff_done m.

(** The stored chunk sizes are within the bounds of the second guard. *)
Definition sized (st : store) : Prop :=
  forall file m cs,
    st !! file = Some m -> chunkSize m = Some cs ->
    1024 * 1024 <= cs <= 50 * 1024 * 1024.

(** The open-ended single range [bytes=<start>-], with [<start>] a
    non-empty string of digits. *)
Definition open_ended (r : str) : bool :=
  bool_decide (take 6 r = u "bytes=")
  && negb (bool_decide (take_digits (drop 6 r) = []))
  && bool_decide (drop_while is_digit (drop 6 r) = [hyphen]).

(** The bytes of a remote object, fetched whole. *)
Definition object_of (fetch : str -> option str -> fetched) (link : str) : list byte :=
  match fetch link None with
  | Stream data _ => data
  | Refused => []
  end.

(** Fetched whole, the object comes to its end. *)
Definition intact (fetch : str -> option str -> fetched) (link : str) : Prop :=
  exists data, fetch link None = Stream data true.

Definition is_fetch (e : effect) : bool :=
  match e with
  | Fetch _ _ => true
  | _ => false
  end.

(** A sequence of chunk uploads and nothing else. *)
Definition ingest_all `{Platform} (st : store)
    (calls : list (upload_request * list send_reply * list byte)) : store :=
  run st ((fun '(req, replies, entropy) => IngestChunk req replies entropy) <$> calls).

Definition is_send (e : effect) : bool :=
  match e with
  | SendDocument _ _ => true
  | _ => false
  end.

Definition is_alnum (c : N) : bool := is_lower c || is_upper c || is_digit c.

(** The letters and digits of a string, in order. *)
Abbreviation alnums := (filter (fun c => is_alnum c = true)).

(** The alphabet of a sanitised base name. *)
Definition is_kebab (c : N) : bool := is_lower c || is_digit c || is_hyphen c.

(** No two neighbours of [s] are both hyphens. *)
Fixpoint single_hyphens (s : str) : bool :=
  match s with
  | a :: (b :: _) as s' => negb (is_hyphen a && is_hyphen b) && single_hyphens s'
  | _ => true
  end.

(** The extension as the specification words it: what follows the last
    dot, and nothing when the name has no dot. *)
Definition spec_extension (filename : str) : str :=
  match split dot filename with
  | [_] => []
  | pieces => default [] (last pieces)
  end.

(** White space and hyphens: what separates the words of a base name. *)
Definition is_sep (c : N) : bool := is_space c || is_hyphen c.

(** The words of a base name, each but the first one behind the white
    space and hyphens that separate it from the word before. *)
Definition worded (first : str) (later : list (str * str)) : str :=
  first ++ later ≫= (fun '(gap, word) => gap ++ word).

(** The words in lower case, a hyphen between each and the next. *)
Definition hyphenated (first : str) (later : list (str * str)) : str :=
  toLowerCase first ++ later ≫= (fun '(gap, word) => hyphen :: toLowerCase word).

(** ** A platform to run examples on

    The decomposition table is an excerpt of the Unicode one: the letters
    of the examples below and nothing else.  The file system is a POSIX
    one on which the names are taken as they are after normalisation. *)
Definition nfd_excerpt (c : N) : str :=
  if (c =? 233)%N then [101%N; 769%N]             (* e with acute *)
  else if (c =? 234)%N then [101%N; 770%N]        (* e with circumflex *)
  else if (c =? 7879)%N then [101%N; 803%N; 770%N] (* e with circumflex and dot below *)
  else [c].

Definition mime_excerpt (name : str) : option str :=
  if bool_decide (extension_of name = u "pdf") then Some (u "application/pdf")
  else if bool_decide (extension_of name = u "txt") then Some (u "text/plain")
  else None.

(** One step of the normalisation of a path: an empty segment and [.]
    are dropped, [..] takes the segment before it back. *)
Definition resolve_segment (resolved : list str) (segment : str) : list str :=
  if bool_decide (segment = [] \/ segment = [dot]) then resolved
  else if bool_decide (segment = [dot; dot]) then
    match last resolved with
    | Some previous =>
        if bool_decide (previous = [dot; dot]) then resolved ++ [segment]
        else removelast resolved
    | None => [segment]
    end
  else resolved ++ [segment].

(** The path of the metadata file of an identifier, from the metadata
    directory. *)
Definition posix_file (id : str) : str :=
  join 47%N (foldl resolve_segment [] (split 47%N (id ++ u ".json"))).

Definition excerpt : Platform :=
  {| normalize_NFD := fun s => s ≫= nfd_excerpt;
     mime_lookup := mime_excerpt;
     bot_token := u "123456:TOKEN";
     metadata_file := posix_file |}.

Definition MiB : Z := 1024 * 1024.

(** A request with the given fields and a three-byte chunk. *)
Definition chunk_request (id name : string) (size index chunk total : Z)
    : upload_request :=
  {| req_chunk := Some [x01; x02; x03]%byte;
     req_fileId := Some (u id);
     req_fileName := Some (u name);
     req_fileSize := Some (u (pretty size));
     req_chunkIndex := Some (u (pretty index));
     req_chunkSize := Some (u (pretty chunk));
     req_totalChunks := Some (u (pretty total)) |}.

(** The record of the range example of the specification: 25 000 000 bytes
    in three chunks of 10 000 000. *)
Definition range_example : FileRecord :=
  {| done := true; fileId := u "f1"; fileName := u "movie.bin";
     fileSize := Some 25000000; chunkSize := Some 10000000;
     totalChunks := Some 3; deleteToken := Some (u "00ff");
     fileIds := [u "r0"; u "r1"; u "r2"] |}.

(** A record whose upload has begun: chunk 0 of three is stored. *)
Definition pending_example : FileRecord :=
  {| done := false; fileId := u "f"; fileName := u "a.bin";
     fileSize := Some (3 * MiB); chunkSize := Some MiB;
     totalChunks := Some 3; deleteToken := None;
     fileIds := [u "r0"] |}.

(** A complete record of four bytes, stored as two objects of two bytes. *)
Definition tiny_example : FileRecord :=
  {| done := true; fileId := u "t"; fileName := u "t.txt";
     fileSize := Some 4; chunkSize := Some MiB;
     totalChunks := Some 2; deleteToken := Some (u "00ff");
     fileIds := [u "r0"; u "r1"] |}.

(** What the backend holds under each reference of [tiny_example]. *)
Definition two_bytes (ref : str) : list byte := [x0a; x0b]%byte.

(** A backend on which every reference resolves to a path of that name. *)
Definition resolve_all (ref : str) : option str := Some ref.


(** A backend whose objects all hold the same two bytes. *)
Definition fetch_two (link : str) (range : option str) : fetched :=
  Stream [x0a; x0b]%byte true.

(** What the backend holds under each reference of an upload made of
    [chunk_request]s. *)
Definition three_bytes (ref : str) : list byte := [x01; x02; x03]%byte.

Definition fetch_three (link : str) (range : option str) : fetched :=
  Stream [x01; x02; x03]%byte true.

(** A backend that serves the objects whose path ends in [0] and refuses
    every other one. *)
Definition fetch_zero_only (link : str) (range : option str) : fetched :=
  if bool_decide (last link = Some 48%N) then Stream [x0a; x0b]%byte true
  else Refused.


(** A complete record whose name cannot go into a header: its extension
    holds the euro sign, U+20AC. *)
Definition unnamed_example : FileRecord :=
  {| done := true; fileId := u "e"; fileName := u "price." ++ [8364%N];
     fileSize := Some 4; chunkSize := Some MiB;
     totalChunks := Some 2; deleteToken := Some (u "00ff");
     fileIds := [u "r0"; u "r1"] |}.

(** ** Vocabulary of the further properties *)

(** The metadata file a request is about. *)
Definition target `{Platform} (op : operation) : str :=
  match op with
  | IngestChunk req _ _ => request_file req
  | Download id _ _ _ => metadata_file id
  | DeleteFile id _ => metadata_file id
  end.

(** The request is a deletion that names [file] and carries [token]. *)
Definition deletes_with `{Platform} (file : str) (token : option str)
    (op : operation) : Prop :=
  match op with
  | DeleteFile id token' => metadata_file id = file /\ token' = token
  | _ => False
  end.

(** The lower-case hexadecimal digits. *)
Definition is_hex (c : N) : bool := is_digit c || ((97 <=? c) && (c <=? 102))%N.

(** The record a chunk upload works on: the stored one, or the one the
    request creates. *)
Definition working_record `{Platform} (st : store) (req : upload_request) : FileRecord :=
  default (request_metadata req) (st !! request_file req).

(** The answer to a chunk that the backend stored under [ref]. *)
Definition stored_answer `{Platform} (st : store) (req : upload_request)
    (entropy : list byte) (ref : str) : upload_response :=
  let w := written_record req entropy ref (working_record st req) in
  if declares_last req
  then FileUploaded (request_id req) (fileName w) (totalChunks w) (deleteToken w)
  else ChunkUploaded (request_id req) (fileName w)
         (add (parseInt (field (req_chunkIndex req))) (Num 1)) (totalChunks w).

(** The chunk a request carries. *)
Definition request_chunk (req : upload_request) : list byte :=
  default [] (req_chunk req).

(** A platform whose decomposition leaves lower-case letters, digits and
    hyphens alone, as the Unicode one does. *)
Definition plain_on_kebab `{Platform} : Prop :=
  forall s, Forall (fun c => is_kebab c = true) s -> normalize_NFD s = s.

(** A call of a sequence of uploads for [id]: an accepted request whose
    chunk the backend stores under [ref], and that declares its chunk the
    last one or not. *)
Definition stores_chunk `{Platform} (id : str) (last : bool)
    (call : upload_request * list send_reply * list byte) (ref : str) : Prop :=
  accepted call.1.1 = true /\ request_id call.1.1 = id
  /\ declares_last call.1.1 = last
  /\ upload_of call.1.1 call.1.2 = Some (Returned ref).

(** The record [m] after the references [refs] were pushed, in order. *)
Definition push_refs (refs : list str) (m : FileRecord) : FileRecord :=
  foldl (fun m ref => push_ref ref m) m refs.

(** Every reference resolves, and the object it resolves to is fetched
    whole and holds [content ref]. *)
Definition backend_holds `{Platform} (getFile : str -> option str)
    (fetch : str -> option str -> fetched) (content : str -> list byte)
    (refs : list str) : Prop :=
  forall ref, ref ∈ refs ->
    exists file_path,
      getFile ref = Some file_path
      /\ fetch (file_url file_path) None = Stream (content ref) true.

(** * Properties *)

(** ** Strings *)

Section Strings.

Lemma split_nonempty sep s : split sep s <> [].
Proof.
  destruct s as [|c s]; simpl; [done|].
  destruct (c =? sep)%N; [done|]. by destruct (split sep s).
Qed.

(** A string without the separator is one piece. *)
Lemma split_absent sep s : sep ∉ s -> split sep s = [s].
Proof.
  induction s as [|c s IH]; intros Hs; simpl; [done|].
  apply not_elem_of_cons in Hs as [Hc Hs].
  destruct (N.eqb_spec c sep) as [->|_]; [done|]. by rewrite IH.
Qed.

(** The piece after the last separator is a piece of its own. *)
Lemma split_snoc sep a b :
  sep ∉ b -> split sep (a ++ sep :: b) = split sep a ++ [b].
Proof.
  intros Hb. induction a as [|c a IH]; simpl.
  - rewrite N.eqb_refl. by rewrite split_absent.
  - destruct (c =? sep)%N; rewrite IH; [done|].
    pose proof (split_nonempty sep a). by destruct (split sep a).
Qed.

(** The piece before the first separator is a piece of its own. *)
Lemma split_cons sep a b :
  sep ∉ a -> split sep (a ++ sep :: b) = a :: split sep b.
Proof.
  induction a as [|c a IH]; intros Ha; simpl.
  - by rewrite N.eqb_refl.
  - apply not_elem_of_cons in Ha as [Hc Ha].
    destruct (N.eqb_spec c sep) as [->|_]; [done|]. by rewrite IH.
Qed.

Lemma join_split sep s : join sep (split sep s) = s.
Proof.
  induction s as [|c s IH]; simpl; [done|].
  pose proof (split_nonempty sep s) as Hne.
  destruct (N.eqb_spec c sep) as [->|_].
  - destruct (split sep s) as [|x l]; [done|]. simpl in *. by rewrite IH.
  - destruct (split sep s) as [|x l]; [done|]. simpl in *.
    destruct l; simpl in *; by rewrite <- IH.
Qed.

Lemma pop_snoc (a : list str) x : pop (a ++ [x]) = (a, Some x).
Proof. unfold pop. by rewrite removelast_last, last_snoc. Qed.

(** The first piece stops at the first separator. *)
Lemma split_head sep s : split sep s !! 0%nat = Some (take_while (fun c => negb (c =? sep)%N) s).
Proof.
  induction s as [|c s IH]; simpl; [done|].
  destruct (c =? sep)%N; simpl; [done|].
  destruct (split sep s); simpl in *; congruence.
Qed.

Lemma take_while_app_stop (p : N -> bool) a c b :
  Forall (fun x => p x = true) a -> p c = false ->
  take_while p (a ++ c :: b) = a.
Proof.
  intros Ha Hc. induction Ha as [|x a Hx _ IH]; simpl.
  - by rewrite Hc.
  - by rewrite Hx, IH.
Qed.

(** The helpers on the inputs that matter to the handlers. *)
Example split_examples :
  split dot (u "a.tar.gz") = [u "a"; u "tar"; u "gz"]
  /\ split dot (u "README") = [u "README"]
  /\ split dot (u "foo.") = [u "foo"; []]
  /\ split dot [] = [[]]
  /\ split hyphen (u "-500") = [[]; u "500"].
Proof. repeat split. Qed.

Example parseInt_examples :
  parseInt (u "5000000") = Num 5000000
  /\ parseInt (u "  42px") = Num 42
  /\ parseInt (u "-7") = Num (-7)
  /\ parseInt (u "0x10") = Num 0
  /\ parseInt [] = NaN
  /\ parseInt (u "abc") = NaN.
Proof. repeat split. Qed.

Example slice_examples :
  slice [1; 2; 3] (Num 0) (Num 2) = [1; 2]
  /\ slice [1; 2; 3] (Num 1) (Inf false) = [2; 3]
  /\ slice [1; 2; 3] (Num (-1)) (Num 5) = [3]
  /\ slice [1; 2; 3] (Num 2) (Num 1) = []
  /\ slice [1; 2; 3] NaN NaN = [].
Proof. repeat split. Qed.

Example trim_example : trim (u "  a b  ") = u "a b".
Proof. reflexivity. Qed.

Example generateDeleteToken_example :
  generateDeleteToken [x00; xff; x1a]%byte = u "00ff1a".
Proof. reflexivity. Qed.

End Strings.

(** ** Numbers *)

Section Numbers.

(** Up to 2^53 in magnitude the integers are doubles, and the arithmetic
    of the runtime is the exact one. *)
Lemma to_double_safe z : Z.abs z <= 2 ^ 53 -> to_double z = Num z.
Proof. intros Hz. unfold to_double. by destruct (Z.leb_spec (Z.abs z) (2 ^ 53)); [|lia]. Qed.

Lemma add_safe x y : Z.abs (x + y) <= 2 ^ 53 -> add (Num x) (Num y) = Num (x + y).
Proof. apply to_double_safe. Qed.

Lemma sub_safe x y : Z.abs (x - y) <= 2 ^ 53 -> sub (Num x) (Num y) = Num (x - y).
Proof. intros Hxy. unfold sub, neg. by rewrite add_safe; rewrite Z.add_opp_r. Qed.

Lemma floor_div_safe x y :
  Z.abs x <= 2 ^ 53 -> y <> 0 -> floor_div (Num x) (Num y) = Num (x / y).
Proof.
  intros Hx Hy. unfold floor_div, floor_quotient.
  destruct (Z.eqb_spec y 0); [done|].
  by destruct (Z.leb_spec (Z.abs x) (2 ^ 53)); [|lia].
Qed.

Lemma ceil_div_safe x y :
  Z.abs x <= 2 ^ 53 -> y <> 0 -> ceil_div (Num x) (Num y) = Num (- (- x / y)).
Proof.
  intros Hx Hy. unfold ceil_div, floor_quotient.
  destruct (Z.eqb_spec y 0); [done|].
  by destruct (Z.leb_spec (Z.abs (- x)) (2 ^ 53)); [|lia].
Qed.

Lemma to_string_safe z : Z.abs z <= 2 ^ 53 -> to_string (Num z) = u (pretty z).
Proof. intros Hz. unfold to_string. by destruct (Z.leb_spec (Z.abs z) (2 ^ 53)); [|lia]. Qed.

Lemma of_json_safe z : Z.abs z <= 2 ^ 53 -> of_json (Some z) = Num z.
Proof. apply to_double_safe. Qed.

Lemma json_to_string_safe z :
  Z.abs z <= 2 ^ 53 -> json_to_string (Some z) = u (pretty z).
Proof. intros Hz. unfold json_to_string. by rewrite to_double_safe, to_string_safe. Qed.

Lemma nearest_even_bounds q r d :
  0 <= q -> q <= nearest_even q r d <= q + 1.
Proof. intros Hq. unfold nearest_even. repeat case_match; lia. Qed.

(** Rounding keeps the sign: of an integer that is not negative, the
    nearest double is a number that is not negative or the positive
    infinity. *)
Lemma to_double_nonneg z :
  0 <= z ->
  (exists z', to_double z = Num z' /\ 0 <= z') \/ to_double z = Inf false.
Proof.
  intros Hz. unfold to_double.
  destruct (Z.leb_spec (Z.abs z) (2 ^ 53)); [left; by exists z|].
  assert (0 < z) as Hpos by lia.
  rewrite Z.sgn_pos, Z.abs_eq by lia.
  set (e := Z.log2 z - 52).
  assert (0 < 2 ^ e) as He.
  { apply Z.pow_pos_nonneg; [lia|]. subst e.
    assert (Z.log2 (2 ^ 53) <= Z.log2 z) by (apply Z.log2_le_mono; lia).
    rewrite Z.log2_pow2 in *; lia. }
  assert (0 <= z / 2 ^ e) as Hq by (apply Z.div_pos; lia).
  pose proof (nearest_even_bounds (z / 2 ^ e) (z mod 2 ^ e) (2 ^ e) Hq) as Hn.
  destruct (Z.leb_spec (2 ^ 1024) (nearest_even (z / 2 ^ e) (z mod 2 ^ e) (2 ^ e) * 2 ^ e)).
  - right. by destruct (Z.ltb_spec z 0); [lia|].
  - left. eexists. split; [done|]. nia.
Qed.

Lemma take_while_all (p : N -> bool) s : Forall (fun c => p c = true) (take_while p s).
Proof.
  induction s as [|c s IH]; simpl; [done|].
  destruct (p c) eqn:E; by constructor.
Qed.

Lemma digits_fold_nonneg ds : forall acc,
  Forall (fun c => is_digit c = true) ds -> 0 <= acc ->
  0 <= fold_left (fun a c => 10 * a + digit_value c) ds acc.
Proof.
  induction ds as [|c ds IH]; intros acc Hds Hacc; simpl; [done|].
  apply Forall_cons in Hds as [Hc Hds]. apply IH; [done|].
  unfold is_digit in Hc. apply andb_true_iff in Hc as [Hc _].
  apply N.leb_le in Hc. unfold digit_value. lia.
Qed.

(** Digits are read as a number that is not negative, or as the positive
    infinity when there are too many of them. *)
Lemma parse_unsigned_cases s :
  parse_unsigned s = NaN
  \/ parse_unsigned s = Inf false
  \/ exists z, parse_unsigned s = Num z /\ 0 <= z.
Proof.
  unfold parse_unsigned. pose proof (take_while_all is_digit s) as Hds.
  fold (take_digits s) in Hds. destruct (take_digits s) as [|c ds]; [by left|].
  right. destruct (to_double_nonneg (digits_value (c :: ds))) as [(z & -> & Hz)| ->].
  - by apply digits_fold_nonneg.
  - right. by exists z.
  - by left.
Qed.

Lemma Forall_drop_while_N (P : N -> Prop) p s :
  Forall P s -> Forall P (drop_while p s).
Proof.
  induction 1 as [|c s Hc Hs IH]; simpl; [done|]. destruct (p c); [done|].
  by constructor.
Qed.

(** Without a minus sign there is no negative number. *)
Lemma parseInt_cases s :
  hyphen ∉ s ->
  parseInt s = NaN \/ parseInt s = Inf false
  \/ exists z, parseInt s = Num z /\ 0 <= z.
Proof.
  intros Hs. unfold parseInt, trim_start.
  assert (Forall (fun c => c <> hyphen) (drop_while is_space s)) as Hd.
  { apply Forall_drop_while_N, Forall_forall. by intros c Hc ->. }
  destruct (drop_while is_space s) as [|c s']; [by left|].
  apply Forall_cons in Hd as [Hc _].
  destruct (N.eqb_spec c 45) as [->|_]; [done|].
  destruct (c =? 43)%N; apply parse_unsigned_cases.
Qed.

End Numbers.

(** ** Character classes *)

Section Classes.

Lemma is_space_spec c :
  is_space c = true <->
  (9 <= c <= 13 \/ c = 32 \/ c = 160 \/ c = 5760 \/ 8192 <= c <= 8202
   \/ c = 8232 \/ c = 8233 \/ c = 8239 \/ c = 8287 \/ c = 12288 \/ c = 65279)%N.
Proof.
  unfold is_space.
  rewrite !orb_true_iff, !andb_true_iff, !N.leb_le, !N.eqb_eq. tauto.
Qed.

Lemma is_digit_spec c : is_digit c = true <-> (48 <= c <= 57)%N.
Proof. unfold is_digit. by rewrite andb_true_iff, !N.leb_le. Qed.

Lemma is_upper_spec c : is_upper c = true <-> (65 <= c <= 90)%N.
Proof. unfold is_upper. by rewrite andb_true_iff, !N.leb_le. Qed.

Lemma is_lower_spec c : is_lower c = true <-> (97 <= c <= 122)%N.
Proof. unfold is_lower. by rewrite andb_true_iff, !N.leb_le. Qed.

Lemma is_hyphen_spec c : is_hyphen c = true <-> c = 45%N.
Proof. unfold is_hyphen. by rewrite N.eqb_eq. Qed.

Lemma is_alnum_spec c :
  is_alnum c = true <-> (97 <= c <= 122 \/ 65 <= c <= 90 \/ 48 <= c <= 57)%N.
Proof.
  unfold is_alnum.
  rewrite !orb_true_iff, is_lower_spec, is_upper_spec, is_digit_spec. tauto.
Qed.

Lemma is_kebab_spec c :
  is_kebab c = true <-> (97 <= c <= 122 \/ 48 <= c <= 57 \/ c = 45)%N.
Proof.
  unfold is_kebab.
  rewrite !orb_true_iff, is_lower_spec, is_digit_spec, is_hyphen_spec. tauto.
Qed.

Lemma is_kept_spec c :
  is_kept c = true <-> is_alnum c = true \/ is_space c = true \/ c = 45%N.
Proof.
  unfold is_kept, is_alnum. rewrite !orb_true_iff, is_hyphen_spec. tauto.
Qed.

Lemma lower_spec c :
  ((65 <= c <= 90)%N /\ lower c = (c + 32)%N) \/ (~ (65 <= c <= 90)%N /\ lower c = c).
Proof.
  unfold lower. destruct (is_upper c) eqn:E.
  - left. by apply is_upper_spec in E.
  - right. split; [|done]. intros Hc. apply is_upper_spec in Hc. congruence.
Qed.

Lemma space_not_alnum c : is_space c = true -> is_alnum c = false.
Proof.
  intros Hs. apply not_true_is_false. intros Ha.
  apply is_space_spec in Hs. apply is_alnum_spec in Ha. lia.
Qed.

Lemma hyphen_not_alnum c : is_hyphen c = true -> is_alnum c = false.
Proof.
  intros Hs. apply not_true_is_false. intros Ha.
  apply is_hyphen_spec in Hs. apply is_alnum_spec in Ha. lia.
Qed.

Lemma combining_not_alnum c : is_combining c = true -> is_alnum c = false.
Proof.
  unfold is_combining. rewrite andb_true_iff, !N.leb_le.
  intros Hs. apply not_true_is_false. intros Ha. apply is_alnum_spec in Ha. lia.
Qed.

Lemma alnum_kept c : is_alnum c = true -> negb (is_kept c) = false.
Proof. intros Ha. apply negb_false_iff, is_kept_spec. by left. Qed.

Lemma lower_alnum c : is_alnum (lower c) = is_alnum c.
Proof.
  apply eq_true_iff_eq. rewrite !is_alnum_spec.
  destruct (lower_spec c) as [[? ->]|[? ->]]; lia.
Qed.

(** Lower-casing a kept character that is not white space gives a
    character of the kebab alphabet. *)
Lemma lower_kept c :
  is_kept c = true -> is_space (lower c) = false -> is_kebab (lower c) = true.
Proof.
  intros Hk Hs. apply is_kebab_spec.
  apply is_kept_spec in Hk. rewrite is_alnum_spec in Hk.
  destruct (lower_spec c) as [[? Hl]|[? Hl]]; rewrite Hl in *; [lia|].
  destruct Hk as [?|[?|?]]; [lia| congruence | lia].
Qed.

End Classes.

(** ** Name normalization *)

Section FileNames.

Context `{Platform}.

Lemma Forall_drop_while (P : N -> Prop) p s : Forall P s -> Forall P (drop_while p s).
Proof.
  induction 1 as [|c s Hc Hs IH]; simpl; [done|].
  destruct (p c); [done|]. by constructor.
Qed.

Lemma Forall_trim (P : N -> Prop) s : Forall P s -> Forall P (trim s).
Proof.
  intros Hs. unfold trim, trim_start.
  by apply Forall_reverse, Forall_drop_while, Forall_reverse, Forall_drop_while.
Qed.

Lemma Forall_delete_all (P : N -> Prop) class s :
  Forall P s -> Forall P (delete_all class s).
Proof.
  unfold delete_all. rewrite !Forall_forall. intros Hs c Hc.
  apply list_elem_of_filter in Hc as [_ Hc]. by apply Hs.
Qed.

Lemma delete_all_class class s :
  Forall (fun c => class c = false) (delete_all class s).
Proof.
  unfold delete_all. apply Forall_forall. intros c Hc.
  by apply list_elem_of_filter in Hc as [Hc _].
Qed.

(** What [cleaned] keeps is in the class [[a-zA-Z0-9\s-]]. *)
Lemma cleaned_kept name : Forall (fun c => is_kept c = true) (cleaned name).
Proof.
  unfold cleaned. apply Forall_trim.
  eapply Forall_impl; [apply delete_all_class|].
  intros c Hc. by apply negb_false_iff.
Qed.

(** [squeeze] leaves the replacement and what is outside the class. *)
Lemma Forall_squeeze (Q : N -> Prop) class by_ inrun s :
  Q by_ -> Forall (fun c => class c = false -> Q c) s ->
  Forall Q (squeeze_from class by_ inrun s).
Proof.
  intros Hby Hs. revert inrun.
  induction Hs as [|c s Hc _ IH]; intros inrun; simpl; [done|].
  destruct (class c) eqn:E.
  - destruct inrun; [apply IH | constructor; [done | apply IH]].
  - constructor; [by apply Hc | apply IH].
Qed.

(** The base name is made of lower-case letters, digits and hyphens. *)
Lemma kebab_alphabet s :
  Forall (fun c => is_kept c = true) s ->
  Forall (fun c => is_kebab c = true) (kebab s).
Proof.
  intros Hs. unfold kebab, squeeze.
  apply Forall_squeeze; [done|]. apply Forall_forall. intros c Hc _.
  revert c Hc. apply Forall_forall.
  apply Forall_squeeze; [done|]. unfold toLowerCase.
  apply Forall_fmap. eapply Forall_impl; [exact Hs|].
  intros c Hk Hsp. by apply lower_kept.
Qed.

(** After the last [replace], a hyphen is never followed by a hyphen. *)
Lemma squeeze_single inrun s :
  single_hyphens (squeeze_from is_hyphen hyphen inrun s) = true
  /\ (inrun = true ->
      forall x r, squeeze_from is_hyphen hyphen inrun s = x :: r -> is_hyphen x = false).
Proof.
  revert inrun. induction s as [|c s IH]; intros inrun; simpl; [done|].
  destruct (is_hyphen c) eqn:E.
  - destruct inrun.
    + apply IH.
    + split; [|done].
      destruct (IH true) as [IH1 IH2].
      destruct (squeeze_from is_hyphen hyphen true s) as [|x r] eqn:Er; [done|].
      change (negb (is_hyphen hyphen && is_hyphen x) && single_hyphens (x :: r) = true).
      rewrite (IH2 eq_refl x r eq_refl), IH1. done.
  - split.
    + destruct (IH false) as [IH1 _].
      destruct (squeeze_from is_hyphen hyphen false s) as [|x r] eqn:Er; [done|].
      change (negb (is_hyphen c && is_hyphen x) && single_hyphens (x :: r) = true).
      by rewrite E, IH1.
    + intros _ x r [= <- _]. done.
Qed.

Lemma kebab_single s : single_hyphens (kebab s) = true.
Proof. unfold kebab, squeeze. apply squeeze_single. Qed.

(** The letters and digits go through every step but the lower-casing. *)
Lemma alnums_squeeze class by_ inrun s :
  (forall c, class c = true -> is_alnum c = false) -> is_alnum by_ = false ->
  alnums (squeeze_from class by_ inrun s) = alnums s.
Proof.
  intros Hclass Hby. revert inrun.
  induction s as [|c s IH]; intros inrun; simpl; [done|].
  destruct (class c) eqn:E.
  - rewrite (filter_cons_False _ c s) by (rewrite (Hclass c E); done).
    destruct inrun; [apply IH|].
    rewrite filter_cons_False by (rewrite Hby; done). apply IH.
  - rewrite !filter_cons. by rewrite IH.
Qed.

Lemma alnums_lower s : alnums (toLowerCase s) = toLowerCase (alnums s).
Proof.
  unfold toLowerCase. induction s as [|c s IH]; [done|].
  rewrite fmap_cons, !filter_cons, lower_alnum.
  destruct (decide (is_alnum c = true)); by rewrite IH.
Qed.

Lemma alnums_drop_while p s :
  (forall c, p c = true -> is_alnum c = false) ->
  alnums (drop_while p s) = alnums s.
Proof.
  intros Hp. induction s as [|c s IH]; simpl; [done|].
  destruct (p c) eqn:E; [|done].
  by rewrite (filter_cons_False _ c s) by (rewrite (Hp c E); done).
Qed.

Lemma alnums_trim s : alnums (trim s) = alnums s.
Proof.
  unfold trim, trim_start.
  rewrite filter_reverse, alnums_drop_while by apply space_not_alnum.
  rewrite filter_reverse, reverse_involutive.
  apply alnums_drop_while, space_not_alnum.
Qed.

Lemma alnums_delete_all class s :
  (forall c, class c = true -> is_alnum c = false) ->
  alnums (delete_all class s) = alnums s.
Proof.
  intros Hclass. unfold delete_all. induction s as [|c s IH]; [done|].
  rewrite !filter_cons. destruct (decide (class c = false)) as [Hc|Hc].
  - rewrite filter_cons. by rewrite IH.
  - apply not_false_is_true in Hc.
    by rewrite decide_False by (rewrite (Hclass c Hc); done).
Qed.

(** The letters and digits of the base name are those of the decomposed
    name, in the same order, in lower case. *)
Lemma kebab_alnums name :
  alnums (kebab (cleaned name)) = toLowerCase (alnums (normalize_NFD name)).
Proof.
  unfold kebab, squeeze, cleaned.
  rewrite alnums_squeeze by (done || apply hyphen_not_alnum).
  rewrite alnums_squeeze by (done || apply space_not_alnum).
  rewrite alnums_lower, alnums_trim. f_equal.
  rewrite alnums_delete_all.
  - apply alnums_delete_all, combining_not_alnum.
  - intros c Hc. apply not_true_is_false. intros Ha.
    by rewrite (alnum_kept c Ha) in Hc.
Qed.

(** A name with a dot splits at its last dot. *)
Lemma formatFileName_split base ext isChunk chunkIndex :
  dot ∉ ext ->
  formatFileName (base ++ dot :: ext) isChunk chunkIndex =
    kebab (cleaned base)
      ++ (if isChunk then hyphen :: to_string chunkIndex else [])
      ++ dot :: ext.
Proof.
  intros Hext. unfold formatFileName.
  rewrite split_snoc, pop_snoc, join_split by done.
  by destruct ext.
Qed.

Lemma kebab_no_dot s : dot ∉ kebab (cleaned s).
Proof.
  intros Hin.
  pose proof (kebab_alphabet _ (cleaned_kept s)) as Hk.
  rewrite Forall_forall in Hk. apply Hk in Hin.
  apply is_kebab_spec in Hin. unfold dot in Hin. lia.
Qed.

Lemma extension_of_snoc a ext : dot ∉ ext -> extension_of (a ++ dot :: ext) = ext.
Proof. intros Hext. unfold extension_of. by rewrite split_snoc, last_snoc. Qed.

Lemma formatFileName_at_last_dot base ext :
  dot ∉ ext ->
  formatFileName (base ++ dot :: ext) false (Num 0) = kebab (cleaned base) ++ dot :: ext
  /\ extension_of (formatFileName (base ++ dot :: ext) false (Num 0)) = ext.
Proof.
  intros Hext. rewrite formatFileName_split by done. simpl.
  split; [done | by apply extension_of_snoc].
Qed.

(** A name that has a dot has a last dot. *)
Lemma last_dot (filename : str) :
  dot ∈ filename -> exists base ext, filename = base ++ dot :: ext /\ dot ∉ ext.
Proof.
  induction filename as [|c filename IH]; intros Hin; [by apply elem_of_nil in Hin|].
  destruct (decide (dot ∈ filename)) as [Hlater|Hlater].
  - destruct (IH Hlater) as (base & ext & -> & Hext). by exists (c :: base), ext.
  - apply elem_of_cons in Hin as [<-|Hin]; [|done]. by exists [], filename.
Qed.

Lemma delete_all_none class s :
  Forall (fun c => class c = false) s -> delete_all class s = s.
Proof.
  unfold delete_all. induction 1 as [|c s Hc _ IH]; [done|].
  by rewrite filter_cons_True, IH.
Qed.

Lemma squeeze_outside class by_ inrun s :
  Forall (fun c => class c = false) s -> squeeze_from class by_ inrun s = s.
Proof.
  intros Hs. revert inrun. induction Hs as [|c s Hc _ IH]; intros inrun; simpl; [done|].
  by rewrite Hc, IH.
Qed.

Lemma squeeze_word class by_ inrun a rest :
  Forall (fun c => class c = false) a -> a <> [] ->
  squeeze_from class by_ inrun (a ++ rest) = a ++ squeeze_from class by_ false rest.
Proof.
  intros Ha. revert inrun. induction Ha as [|c a Hc Ha IH]; intros inrun Hne; [done|].
  simpl. rewrite Hc. f_equal. destruct a as [|c' a]; [done|]. by apply IH.
Qed.

Lemma squeeze_run class by_ w rest :
  Forall (fun c => class c = true) w -> w <> [] ->
  squeeze_from class by_ false (w ++ rest) = by_ :: squeeze_from class by_ true rest.
Proof.
  intros Hw Hne. destruct Hw as [|c w Hc Hw]; [done|]. simpl. rewrite Hc. f_equal.
  clear Hne Hc. induction Hw as [|c' w Hc' _ IH]; [done|]. simpl. by rewrite Hc'.
Qed.

Lemma drop_while_head (p : N -> bool) s :
  (forall c, head s = Some c -> p c = false) -> drop_while p s = s.
Proof. destruct s as [|c s]; [done|]. intros Hc. simpl. by rewrite (Hc c eq_refl). Qed.

Lemma trim_fixed s :
  (forall c, head s = Some c -> is_space c = false) ->
  (forall c, last s = Some c -> is_space c = false) ->
  trim s = s.
Proof.
  intros Hhead Hlast. unfold trim, trim_start.
  rewrite (drop_while_head _ s) by done.
  rewrite drop_while_head by (by rewrite head_reverse).
  apply reverse_involutive.
Qed.

Lemma head_word (P : N -> Prop) a rest c :
  Forall P a -> a <> [] -> head (a ++ rest) = Some c -> P c.
Proof. intros Ha Hne. destruct Ha; [done|]. by intros [= <-]. Qed.

Lemma last_word (P : N -> Prop) b rest c :
  Forall P b -> b <> [] -> last (rest ++ b) = Some c -> P c.
Proof.
  intros Hb Hne. destruct (reverse b) as [|d rb] eqn:Erb.
  { apply (f_equal reverse) in Erb. rewrite reverse_involutive in Erb. by subst b. }
  rewrite <- head_reverse, reverse_app, Erb. simpl. intros [= <-].
  apply Forall_reverse in Hb. rewrite Erb in Hb. by inversion Hb.
Qed.

Lemma alnum_not_space c : is_alnum c = true -> is_space c = false.
Proof.
  intros Ha. destruct (is_space c) eqn:E; [|done].
  by rewrite (space_not_alnum c E) in Ha.
Qed.

Lemma alnum_not_hyphen c : is_alnum c = true -> is_hyphen c = false.
Proof.
  intros Ha. destruct (is_hyphen c) eqn:E; [|done].
  by rewrite (hyphen_not_alnum c E) in Ha.
Qed.

Lemma space_lower c : is_space c = true -> lower c = c.
Proof.
  intros Hs. destruct (lower_spec c) as [[Hu _]|[_ ->]]; [|done].
  apply is_space_spec in Hs. lia.
Qed.

(** A run of white space between two words of letters and digits, whatever
    the white space, becomes one hyphen. *)
Lemma kebab_words a w b :
  Forall (fun c => is_alnum c = true) a -> a <> [] ->
  Forall (fun c => is_alnum c = true) b -> b <> [] ->
  Forall (fun c => is_space c = true) w -> w <> [] ->
  normalize_NFD (a ++ w ++ b) = a ++ w ++ b ->
  kebab (cleaned (a ++ w ++ b)) = toLowerCase a ++ hyphen :: toLowerCase b.
Proof.
  intros Ha Hane Hb Hbne Hw Hwne Hnfd.
  assert (Forall (fun c => is_alnum c = true \/ is_space c = true) (a ++ w ++ b)) as Hall.
  { rewrite !Forall_app. repeat split; eapply Forall_impl; eauto. }
  unfold cleaned. rewrite Hnfd.
  rewrite (delete_all_none is_combining).
  2: { eapply Forall_impl; [exact Hall|]. intros c [Hc|Hc].
       - apply not_true_is_false. intros Hcomb.
         by rewrite (combining_not_alnum c Hcomb) in Hc.
       - apply not_true_is_false. unfold is_combining.
         rewrite andb_true_iff, !N.leb_le. apply is_space_spec in Hc. lia. }
  rewrite delete_all_none.
  2: { eapply Forall_impl; [exact Hall|]. intros c Hc.
       apply negb_false_iff, is_kept_spec. destruct Hc as [Hc|Hc]; auto. }
  rewrite trim_fixed.
  2: { intros c Hc. apply alnum_not_space.
       exact (head_word (fun c => is_alnum c = true) a (w ++ b) c Ha Hane Hc). }
  2: { intros c Hc. rewrite app_assoc in Hc. apply alnum_not_space.
       exact (last_word (fun c => is_alnum c = true) b (a ++ w) c Hb Hbne Hc). }
  unfold kebab, squeeze, toLowerCase. rewrite !fmap_app.
  assert (Forall (fun c => is_alnum c = true) (lower <$> a)) as Ha'.
  { apply Forall_fmap. eapply Forall_impl; [exact Ha|]. intros c Hc. simpl.
    by rewrite lower_alnum. }
  assert (Forall (fun c => is_alnum c = true) (lower <$> b)) as Hb'.
  { apply Forall_fmap. eapply Forall_impl; [exact Hb|]. intros c Hc. simpl.
    by rewrite lower_alnum. }
  assert (lower <$> w = w) as ->.
  { clear Hwne Hnfd Hall. induction Hw as [|c w Hc _ IH]; [done|].
    by rewrite fmap_cons, IH, space_lower. }
  assert (lower <$> a <> []) as Hane' by by destruct a.
  rewrite (squeeze_word is_space hyphen false (lower <$> a)); [|by eapply Forall_impl;
    [exact Ha' | apply alnum_not_space] | done].
  rewrite (squeeze_run is_space hyphen w) by done.
  rewrite (squeeze_outside is_space hyphen true (lower <$> b))
    by (eapply Forall_impl; [exact Hb' | apply alnum_not_space]).
  rewrite (squeeze_word is_hyphen hyphen false (lower <$> a)); [|by eapply Forall_impl;
    [exact Ha' | apply alnum_not_hyphen] | done].
  simpl.
  by rewrite (squeeze_outside is_hyphen hyphen true (lower <$> b))
    by (eapply Forall_impl; [exact Hb' | apply alnum_not_hyphen]).
Qed.

(** The two passes that turn runs into hyphens, white space first and
    hyphens next, are one pass over the runs of both. *)
Lemma squeeze_twice s : forall inspace inrun,
  (inspace = true -> inrun = true) ->
  squeeze_from is_hyphen hyphen inrun (squeeze_from is_space hyphen inspace s)
  = squeeze_from is_sep hyphen inrun s.
Proof.
  induction s as [|c s IH]; intros inspace inrun Hrun; [done|].
  cbn [squeeze_from]. change (is_sep c) with (is_space c || is_hyphen c).
  destruct (is_space c) eqn:Es; cbn [orb].
  - destruct inspace.
    + rewrite (Hrun eq_refl). by apply IH.
    + cbn [squeeze_from]. change (is_hyphen hyphen) with true. cbn iota.
      rewrite (IH true true) by done. by destruct inrun.
  - cbn [squeeze_from]. destruct (is_hyphen c) eqn:Eh.
    + rewrite (IH false true) by done. by destruct inrun.
    + by rewrite (IH false false).
Qed.

Lemma kept_not_combining c : is_kept c = true -> is_combining c = false.
Proof.
  intros Hc%is_kept_spec. apply not_true_is_false. intros Hcomb.
  destruct Hc as [Hc|[Hc|Hc]].
  - by rewrite (combining_not_alnum c Hcomb) in Hc.
  - unfold is_combining in Hcomb. rewrite andb_true_iff, !N.leb_le in Hcomb.
    apply is_space_spec in Hc. lia.
  - unfold is_combining in Hcomb. rewrite andb_true_iff, !N.leb_le in Hcomb. lia.
Qed.

(** The two deletions leave what is in the class [[a-zA-Z0-9\s-]]. *)
Lemma delete_all_kept s :
  delete_all (fun c => negb (is_kept c)) (delete_all is_combining s)
  = filter (fun c => is_kept c = true) s.
Proof.
  unfold delete_all. induction s as [|c s IH]; [done|].
  rewrite (filter_cons (fun c => is_kept c = true)).
  destruct (decide (is_kept c = true)) as [Hc|Hc].
  - rewrite filter_cons_True by by apply kept_not_combining.
    rewrite filter_cons_True by by rewrite Hc. by rewrite IH.
  - apply not_true_is_false in Hc.
    destruct (is_combining c) eqn:Ecomb.
    + by rewrite filter_cons_False by by rewrite Ecomb.
    + rewrite filter_cons_True by done.
      by rewrite filter_cons_False by by rewrite Hc.
Qed.

(** The base name, in one expression. *)
Lemma kebab_cleaned base :
  kebab (cleaned base)
  = squeeze is_sep hyphen
      (toLowerCase (trim (filter (fun c => is_kept c = true) (normalize_NFD base)))).
Proof.
  unfold kebab, cleaned, squeeze. rewrite delete_all_kept. by apply squeeze_twice.
Qed.

Lemma drop_while_spaces w t :
  Forall (fun c => is_space c = true) w -> drop_while is_space (w ++ t) = drop_while is_space t.
Proof. induction 1 as [|c w Hc _ IH]; [done|]. simpl. by rewrite Hc. Qed.

Lemma drop_while_app_left (p : N -> bool) t w :
  drop_while p t <> [] -> drop_while p (t ++ w) = drop_while p t ++ w.
Proof.
  induction t as [|c t IH]; [done|]. simpl. destruct (p c); [apply IH | done].
Qed.

Lemma drop_while_nil (p : N -> bool) t :
  drop_while p t = [] -> Forall (fun c => p c = true) t.
Proof.
  induction t as [|c t IH]; [done|]. simpl. destruct (p c) eqn:Ec; [|done].
  intros Ht. constructor; [done | by apply IH].
Qed.

(** White space around a string is trimmed away with its own. *)
Lemma trim_spaces w1 t w2 :
  Forall (fun c => is_space c = true) w1 -> Forall (fun c => is_space c = true) w2 ->
  trim (w1 ++ t ++ w2) = trim t.
Proof.
  intros H1 H2. unfold trim, trim_start. rewrite drop_while_spaces by done.
  destruct (drop_while is_space t) as [|c t'] eqn:Et.
  - apply drop_while_nil in Et.
    rewrite drop_while_spaces by done.
    rewrite <- (app_nil_r w2), drop_while_spaces by done. done.
  - rewrite drop_while_app_left by by rewrite Et. rewrite Et, reverse_app.
    by rewrite drop_while_spaces by by apply Forall_reverse.
Qed.

Lemma filter_kept_spaces w :
  Forall (fun c => is_space c = true) w -> filter (fun c => is_kept c = true) w = w.
Proof.
  induction 1 as [|c w Hc _ IH]; [done|].
  rewrite filter_cons_True, IH; [done|]. apply is_kept_spec. auto.
Qed.

(** C5, as amended.  For a file name with a dot, [base] being what
    precedes its last dot and [ext] what follows it, [formatFileName]
    returns a base name, a dot and [ext] unchanged, casing included.  The
    base name is made of lower-case letters, digits and hyphens only, so
    that no diacritic, punctuation or white space is left; it has no two
    hyphens in a row; and its letters and digits are the letters and
    digits of the decomposed [base], in order and in lower case.  It is
    exactly this: of the decomposed [base], the code units of the class
    [[a-zA-Z0-9\s-]], white space of every kind included, and no other;
    without the white space at both ends; in lower case; every run of
    white space and hyphens turned into one hyphen.  So a run of white
    space between two words of letters and digits becomes one hyphen; a
    code unit outside the class leaves no trace, not even a hyphen; and
    white space around the base leaves none either.  Nothing is said of
    names without a dot. *)
Theorem formatFileName_dotted :
  (forall filename : str,
      dot ∈ filename ->
      exists base ext k,
        filename = base ++ dot :: ext /\ (dot ∉ ext)
        /\ formatFileName filename false (Num 0) = k ++ dot :: ext
        /\ extension_of (formatFileName filename false (Num 0)) = ext
        /\ Forall (fun c => is_kebab c = true) k
        /\ single_hyphens k = true
        /\ alnums k = toLowerCase (alnums (normalize_NFD base))
        /\ k = squeeze is_sep hyphen
                 (toLowerCase
                    (trim (filter (fun c => is_kept c = true) (normalize_NFD base)))))
  /\ (forall a w b ext : str,
        Forall (fun c => is_alnum c = true) a -> a <> [] ->
        Forall (fun c => is_alnum c = true) b -> b <> [] ->
        Forall (fun c => is_space c = true) w -> w <> [] ->
        dot ∉ ext ->
        normalize_NFD (a ++ w ++ b) = a ++ w ++ b ->
        formatFileName ((a ++ w ++ b) ++ dot :: ext) false (Num 0)
          = toLowerCase a ++ hyphen :: toLowerCase b ++ dot :: ext)
  /\ (forall (x y ext : str) (c : N),
        is_kept c = false -> dot ∉ ext ->
        normalize_NFD (x ++ c :: y) = x ++ c :: y -> normalize_NFD (x ++ y) = x ++ y ->
        formatFileName ((x ++ c :: y) ++ dot :: ext) false (Num 0)
          = formatFileName ((x ++ y) ++ dot :: ext) false (Num 0))
  /\ (forall w1 s w2 ext : str,
        Forall (fun c => is_space c = true) w1 ->
        Forall (fun c => is_space c = true) w2 ->
        dot ∉ ext ->
        normalize_NFD (w1 ++ s ++ w2) = w1 ++ s ++ w2 -> normalize_NFD s = s ->
        formatFileName ((w1 ++ s ++ w2) ++ dot :: ext) false (Num 0)
          = formatFileName (s ++ dot :: ext) false (Num 0)).
Proof.
  split; [|split; [|split]].
  - intros filename (base & ext & -> & Hext)%last_dot.
    exists base, ext, (kebab (cleaned base)).
    destruct (formatFileName_at_last_dot base ext Hext) as [Hout Hextension].
    repeat split; try done.
    + apply kebab_alphabet, cleaned_kept.
    + apply kebab_single.
    + apply kebab_alnums.
    + apply kebab_cleaned.
  - intros a w b ext Ha Hane Hb Hbne Hw Hwne Hext Hnfd.
    destruct (formatFileName_at_last_dot (a ++ w ++ b) ext Hext) as [-> _].
    rewrite kebab_words by done. by rewrite <- app_assoc.
  - intros x y ext c Hc Hext Hnfd Hnfd'.
    destruct (formatFileName_at_last_dot (x ++ c :: y) ext Hext) as [-> _].
    destruct (formatFileName_at_last_dot (x ++ y) ext Hext) as [-> _].
    rewrite !kebab_cleaned, Hnfd, Hnfd', !filter_app.
    by rewrite filter_cons_False by by rewrite Hc.
  - intros w1 s w2 ext Hw1 Hw2 Hext Hnfd Hnfd'.
    destruct (formatFileName_at_last_dot (w1 ++ s ++ w2) ext Hext) as [-> _].
    destruct (formatFileName_at_last_dot s ext Hext) as [-> _].
    rewrite !kebab_cleaned, Hnfd, Hnfd', !filter_app.
    rewrite (filter_kept_spaces w1), (filter_kept_spaces w2) by done.
    by rewrite trim_spaces by done.
Qed.

End FileNames.

(** ** Chunk uploads *)

Section Upload.

Context `{Platform}.

Implicit Types (st : store) (req : upload_request).
Implicit Types (replies : list send_reply) (entropy : list byte).

Lemma post_u_not_accepted st req replies entropy :
  accepted req = false ->
  exists x, post_u st req replies entropy = answer st [] x /\ upload_status x = 400.
Proof.
  unfold accepted, post_u. intros Ha.
  destruct (fields_present req); simpl in *; [|by eexists].
  apply negb_false_iff in Ha. rewrite Ha. by eexists.
Qed.

Lemma post_u_accepted st req replies entropy :
  accepted req = true ->
  post_u st req replies entropy =
    match open_metadata st (request_file req) (request_metadata req) with
    | None => answer st [] (AlreadyUploaded (request_id req))
    | Some (st1, effs1, metadata) =>
        store_chunk st1 effs1 metadata (request_file req) (request_id req) (field (req_fileName req))
          (default [] (req_chunk req)) (parseInt (field (req_chunkIndex req)))
          (parseInt (field (req_totalChunks req))) replies entropy
    end.
Proof.
  unfold accepted, post_u. intros [Hf Hc]%andb_true_iff.
  apply negb_true_iff in Hc. by rewrite Hf, Hc.
Qed.

(** The three ways [store_chunk] ends, by what the backend call gives. *)
Lemma store_chunk_pending st1 effs1 metadata req replies entropy :
  upload_of req replies = None ->
  let r := store_chunk st1 effs1 metadata (request_file req) (request_id req) (field (req_fileName req))
             (default [] (req_chunk req)) (parseInt (field (req_chunkIndex req)))
             (parseInt (field (req_totalChunks req))) replies entropy in
  response r = None /\ after r = st1.
Proof.
  unfold upload_of, store_chunk.
  destruct (uploadToService _ _ _) as [sends up]. simpl. by intros ->.
Qed.

Lemma store_chunk_thrown st1 effs1 metadata req replies entropy :
  upload_of req replies = Some Thrown ->
  let r := store_chunk st1 effs1 metadata (request_file req) (request_id req) (field (req_fileName req))
             (default [] (req_chunk req)) (parseInt (field (req_chunkIndex req)))
             (parseInt (field (req_totalChunks req))) replies entropy in
  response r = Some UploadFailed /\ after r = st1
  /\ exists sends, effects r = effs1 ++ sends /\ Forall (fun e => is_send e = true) sends.
Proof.
  unfold upload_of, store_chunk.
  destruct (uploadToService _ _ _) as [sends up] eqn:E. simpl. intros ->.
  split; [done|]. split; [done|]. exists sends. split; [done|].
  clear -E. revert sends E.
  induction replies as [|[id|ra] later IH]; intros sends; simpl.
  - by intros [= <-].
  - by intros [= <-].
  - destruct (is_rate_limit ra).
    + destruct (uploadToService later _ _) as [effs r]. intros [= <- ->].
      constructor; [done|]. by apply IH.
    + intros [= <-]. by repeat constructor.
Qed.

Lemma store_chunk_returned st1 effs1 metadata req replies entropy ref :
  upload_of req replies = Some (Returned ref) ->
  let r := store_chunk st1 effs1 metadata (request_file req) (request_id req) (field (req_fileName req))
             (default [] (req_chunk req)) (parseInt (field (req_chunkIndex req)))
             (parseInt (field (req_totalChunks req))) replies entropy in
  let w := written_record req entropy ref metadata in
  after r = <[request_file req := w]> st1
  /\ last (effects r) = Some (WriteFile (request_file req) w)
  /\ exists x, response r = Some x /\ upload_status x = 200.
Proof.
  unfold upload_of, store_chunk, written_record, declares_last.
  destruct (uploadToService _ _ _) as [sends up]. simpl. intros ->. simpl.
  split; [done|]. split; [by rewrite !app_assoc, last_snoc|].
  destruct (strict_eq _ _); by eexists.
Qed.

(** What a chunk upload does to the store: nothing; or it creates the
    record of the request and the backend call does not return a
    reference; or the backend call returns a reference and the record,
    the existing one or the one just created, is written with it. *)
Lemma post_u_cases st req replies entropy :
  let r := post_u st req replies entropy in
  let file := request_file req in
  after r = st
  \/ (accepted req = true /\ st !! file = None
      /\ after r = <[file := request_metadata req]> st
      /\ (upload_of req replies = None \/ upload_of req replies = Some Thrown))
  \/ (accepted req = true
      /\ exists metadata ref,
          upload_of req replies = Some (Returned ref)
          /\ (st !! file = Some metadata /\ done metadata = false
              \/ st !! file = None /\ metadata = request_metadata req)
          /\ after r = <[file := written_record req entropy ref metadata]> st).
Proof.
  intros r file. subst r file.
  destruct (accepted req) eqn:Hacc.
  2: { left. by destruct (post_u_not_accepted st req replies entropy Hacc) as (x & -> & _). }
  rewrite post_u_accepted by done. unfold open_metadata.
  destruct (st !! request_file req) as [existing|] eqn:Hst.
  - destruct (done existing) eqn:Hdone; [by left|].
    destruct (upload_of req replies) as [[ref|]|] eqn:Hup.
    + right; right. split; [done|]. exists existing, ref.
      split; [done|]. split; [by left|].
      by apply (store_chunk_returned st [] existing req replies entropy ref).
    + left. by apply (store_chunk_thrown st [] existing req replies entropy).
    + left. by apply (store_chunk_pending st [] existing req replies entropy).
  - destruct (upload_of req replies) as [[ref|]|] eqn:Hup.
    + right; right. split; [done|]. exists (request_metadata req), ref.
      split; [done|]. split; [by right|].
      destruct (store_chunk_returned (<[request_file req := request_metadata req]> st)
                  [WriteFile (request_file req) (request_metadata req)] (request_metadata req)
                  req replies entropy ref Hup) as (-> & _).
      apply insert_insert_eq.
    + right; left. repeat split; try done; [|by right].
      by apply (store_chunk_thrown (<[request_file req := request_metadata req]> st)
                  [WriteFile (request_file req) (request_metadata req)] (request_metadata req)
                  req replies entropy).
    + right; left. repeat split; try done; [|by left].
      by apply (store_chunk_pending (<[request_file req := request_metadata req]> st)
                  [WriteFile (request_file req) (request_metadata req)] (request_metadata req)
                  req replies entropy).
Qed.

(** C2.  Once the stored record of an identifier has [done = true], a
    further chunk upload for that identifier, whatever the request and
    whatever the backend would answer, sends nothing to the backend,
    writes nothing and leaves the store as it is; the answer is the
    conflict, status 409, for every request that gets past the input
    validation, which comes first and answers 400 otherwise. *)
Theorem conflict_guard st req replies entropy m :
  st !! request_file req = Some m -> done m = true ->
  let r := post_u st req replies entropy in
  effects r = [] /\ after r = st
  /\ (accepted req = true ->
      response r = Some (AlreadyUploaded (request_id req))
      /\ upload_status (AlreadyUploaded (request_id req)) = 409)
  /\ (accepted req = false -> exists x, response r = Some x /\ upload_status x = 400).
Proof.
  intros Hst Hdone r. subst r. destruct (accepted req) eqn:Hacc.
  - rewrite post_u_accepted by done. unfold open_metadata.
    rewrite Hst, Hdone. by repeat split.
  - destruct (post_u_not_accepted st req replies entropy Hacc) as (x & -> & Hx).
    repeat split; [done|]. intros _. by exists x.
Qed.

Lemma uploadToService_fails limits e later file name :
  Forall (fun r => rate_limited r = true) limits -> is_rate_limit e = false ->
  (uploadToService (limits ++ Rejected e :: later) file name).2 = Some Thrown.
Proof.
  intros Hl He. induction Hl as [|[id|ra] limits Hr _ IH]; simpl in *.
  - by rewrite He.
  - done.
  - rewrite Hr. by destruct (uploadToService _ _ _).
Qed.

(** The writes made before the backend call change the effects of
    [store_chunk] and nothing else. *)
Lemma store_chunk_same_answer st1 effs1 effs1' m file id name chunk i t replies entropy :
  response (store_chunk st1 effs1 m file id name chunk i t replies entropy)
    = response (store_chunk st1 effs1' m file id name chunk i t replies entropy)
  /\ after (store_chunk st1 effs1 m file id name chunk i t replies entropy)
    = after (store_chunk st1 effs1' m file id name chunk i t replies entropy).
Proof.
  unfold store_chunk. by destruct (uploadToService _ _ _) as [sends [[ref|]|]].
Qed.

(** C8, as amended.  When the backend upload of an accepted request for a
    file that is not complete fails with an error that is not a
    rate-limit signal, after any number of rate-limit signals, the answer
    is the failure, status 500.  If the identifier had a record, the
    store is exactly what it was.  If it had none, the store is what it
    was plus the record the handler created before calling the backend:
    [done = false], no delete token, no reference.  In both cases no
    reference was appended, and sending the same request again gives the
    answer and the store it would have given in place of the failed
    call. *)
Theorem backend_failure_keeps_record st req limits e later entropy :
  accepted req = true ->
  (forall m, st !! request_file req = Some m -> done m = false) ->
  Forall (fun r => rate_limited r = true) limits -> is_rate_limit e = false ->
  let r := post_u st req (limits ++ Rejected e :: later) entropy in
  response r = Some UploadFailed /\ upload_status UploadFailed = 500
  /\ match st !! request_file req with
     | Some m => after r = st
     | None =>
         after r = <[request_file req := request_metadata req]> st
         /\ done (request_metadata req) = false
         /\ deleteToken (request_metadata req) = None
         /\ fileIds (request_metadata req) = []
     end
  /\ forall replies' entropy',
      response (post_u (after r) req replies' entropy')
        = response (post_u st req replies' entropy')
      /\ after (post_u (after r) req replies' entropy')
        = after (post_u st req replies' entropy').
Proof.
  intros Hacc Hopen Hl He r. subst r.
  assert (upload_of req (limits ++ Rejected e :: later) = Some Thrown) as Hup
    by by apply uploadToService_fails.
  rewrite (post_u_accepted st req (limits ++ Rejected e :: later)) by done.
  unfold open_metadata at 1 2 3 4 5.
  destruct (st !! request_file req) as [m|] eqn:Hst.
  - rewrite (Hopen m eq_refl).
    by destruct (store_chunk_thrown st [] m req _ entropy Hup) as (-> & -> & _).
  - destruct (store_chunk_thrown (<[request_file req := request_metadata req]> st)
                [WriteFile (request_file req) (request_metadata req)]
                (request_metadata req) req _ entropy Hup) as (-> & -> & _).
    repeat split. all: rewrite !post_u_accepted by done; unfold open_metadata.
    all: rewrite lookup_insert_eq, Hst; simpl.
    all: apply store_chunk_same_answer.
Qed.

(** C9.  When a chunk goes into a record that exists and is not
    complete, the record is marked complete, and a delete token minted,
    exactly when the index of the request is one less than the total the
    request itself declares; the total stored in the record plays no part
    and stays what it was.  So a record created for three chunks, of which
    only chunk 0 was ever sent, is completed by a request for chunk 0 that
    declares a total of one. *)
Theorem completion_uses_request_total :
  (forall st req replies entropy m ref,
      accepted req = true ->
      st !! request_file req = Some m -> done m = false ->
      upload_of req replies = Some (Returned ref) ->
      exists m',
        after (post_u st req replies entropy) !! request_file req = Some m'
        /\ done m' = declares_last req
        /\ (declares_last req = true ->
            deleteToken m' = Some (generateDeleteToken entropy))
        /\ totalChunks m' = totalChunks m)
  /\ (let first := chunk_request "f" "a.bin" (3 * MiB) 0 MiB 3 in
      let again := chunk_request "f" "a.bin" (3 * MiB) 0 MiB 1 in
      let st := run ∅ [IngestChunk first [Sent (u "r0")] []] in
      exists m m',
        st !! metadata_file (u "f") = Some m /\ done m = false
        /\ totalChunks m = Some 3 /\ fileIds m = [u "r0"]
        /\ after (post_u st again [Sent (u "r1")] [x2a]%byte) !! metadata_file (u "f")
           = Some m'
        /\ done m' = true /\ deleteToken m' = Some (u "2a")
        /\ totalChunks m' = Some 3 /\ fileIds m' = [u "r0"; u "r1"]).
Proof.
  split.
  - intros st req replies entropy m ref Hacc Hst Hdone Hup.
    rewrite post_u_accepted by done. unfold open_metadata. rewrite Hst, Hdone.
    destruct (store_chunk_returned st [] m req replies entropy ref Hup) as (-> & _).
    exists (written_record req entropy ref m).
    rewrite lookup_insert_eq. unfold written_record.
    destruct (declares_last req); simpl; by repeat split.
  - cbn zeta.
    set (first := chunk_request "f" "a.bin" (3 * MiB) 0 MiB 3).
    set (again := chunk_request "f" "a.bin" (3 * MiB) 0 MiB 1).
    set (m := push_ref (u "r0") (request_metadata first)).
    assert (run ∅ [IngestChunk first [Sent (u "r0")] []]
            = <[metadata_file (u "f") := m]> ∅) as ->.
    { unfold run. simpl. rewrite post_u_accepted by reflexivity.
      unfold open_metadata. rewrite lookup_empty.
      destruct (store_chunk_returned (<[request_file first := request_metadata first]> ∅)
                  [WriteFile (request_file first) (request_metadata first)]
                  (request_metadata first) first [Sent (u "r0")] [] (u "r0") eq_refl)
        as (-> & _).
      apply insert_insert_eq. }
    exists m, (complete (u "2a") (push_ref (u "r1") m)).
    rewrite lookup_insert_eq. repeat (split; [reflexivity|]).
    split; [|by repeat split].
    rewrite post_u_accepted by reflexivity. unfold open_metadata.
    change (metadata_file (u "f")) with (request_file again).
    rewrite lookup_insert_eq. change (done m) with false. cbv iota.
    destruct (store_chunk_returned (<[request_file again := m]> ∅) [] m again
                [Sent (u "r1")] [x2a]%byte (u "r1") eq_refl) as (-> & _).
    by rewrite lookup_insert_eq.
Qed.

End Upload.

(** ** The life of a record *)

Section Lifecycle.

Context `{Platform}.

Implicit Types (st : store) (req : upload_request) (m : FileRecord).

Lemma consistent_insert st id m :
  consistent st -> token_iff_done m -> consistent (<[id := m]> st).
Proof.
  intros Hst Hm id' m'. rewrite lookup_insert.
  case_decide; [by intros [= <-] | apply Hst].
Qed.

Lemma consistent_delete st id : consistent st -> consistent (delete id st).
Proof.
  intros Hst id' m'. rewrite lookup_delete.
  case_decide; [done | apply Hst].
Qed.

Lemma token_iff_done_fresh req : token_iff_done (request_metadata req).
Proof. unfold token_iff_done. simpl. split; [done | discriminate]. Qed.

Lemma token_iff_done_written req entropy ref m :
  token_iff_done m -> token_iff_done (written_record req entropy ref m).
Proof.
  unfold token_iff_done, written_record.
  destruct (declares_last req); simpl; [|done]. by split.
Qed.

Lemma post_u_consistent st req replies entropy :
  consistent st -> consistent (after (post_u st req replies entropy)).
Proof.
  intros Hst.
  destruct (post_u_cases st req replies entropy)
    as [-> | [(_ & _ & -> & _) | (_ & m & ref & _ & Hm & ->)]]; [done| |].
  - apply consistent_insert; [done | apply token_iff_done_fresh].
  - apply consistent_insert; [done|]. apply token_iff_done_written.
    destruct Hm as [[Hm _] | [_ ->]]; [by eapply Hst | apply token_iff_done_fresh].
Qed.

Lemma delete_file_consistent st id token :
  consistent st -> consistent (after (delete_file st id token)).
Proof.
  intros Hst. unfold delete_file.
  repeat (case_match; simpl; try done). by apply consistent_delete.
Qed.

Lemma get_file_after st id rangeStr getFile fetch :
  after (get_file st id rangeStr getFile fetch) = st.
Proof. unfold get_file. by repeat (case_match; simpl). Qed.

Lemma step_consistent st op : consistent st -> consistent (step st op).
Proof.
  destruct op; simpl.
  - apply post_u_consistent.
  - by rewrite get_file_after.
  - apply delete_file_consistent.
Qed.

Lemma run_consistent st ops : consistent st -> consistent (run st ops).
Proof.
  revert st. induction ops as [|op ops IH]; intros st Hst; simpl; [done|].
  by apply IH, step_consistent.
Qed.

Lemma reachable_consistent st : reachable st -> consistent st.
Proof. intros [ops ->]. by apply run_consistent. Qed.

(** One chunk upload only appends to the records that are there. *)
Lemma post_u_extends st req replies entropy id m :
  st !! id = Some m ->
  exists m', after (post_u st req replies entropy) !! id = Some m' /\ extends m m'.
Proof.
  intros Hid.
  assert (extends m m) as Hrefl by by repeat split.
  destruct (post_u_cases st req replies entropy)
    as [-> | [(_ & Hnone & -> & _) | (_ & m0 & ref & _ & Hm & ->)]].
  - by exists m.
  - exists m. split; [|done]. rewrite lookup_insert_ne; [done|]. congruence.
  - destruct (decide (request_file req = id)) as [<-|Hne].
    + destruct Hm as [[Hm _] | [Hm _]]; [|congruence].
      assert (m0 = m) as -> by congruence.
      eexists. split; [apply lookup_insert_eq|].
      unfold extends, written_record.
      destruct (declares_last req); simpl; repeat split; by apply prefix_app_r.
    + exists m. by rewrite lookup_insert_ne.
Qed.

Lemma extends_trans m1 m2 m3 : extends m1 m2 -> extends m2 m3 -> extends m1 m3.
Proof.
  intros (? & ? & ? & ? & ?) (? & ? & ? & ? & ?).
  repeat split; [by etrans | congruence..].
Qed.

Lemma store_chunk_effects st1 effs1 m file id name chunk i t replies entropy :
  exists rest,
    effects (store_chunk st1 effs1 m file id name chunk i t replies entropy)
    = effs1 ++ rest.
Proof.
  unfold store_chunk. destruct (uploadToService _ _ _) as [sends [[ref|]|]];
    simpl; by eexists.
Qed.

(** A record that did not exist is first written with [done = false] and
    no delete token. *)
Lemma post_u_creates st req replies entropy :
  accepted req = true -> st !! request_file req = None ->
  head (effects (post_u st req replies entropy))
    = Some (WriteFile (request_file req) (request_metadata req))
  /\ done (request_metadata req) = false
  /\ deleteToken (request_metadata req) = None.
Proof.
  intros Hacc Hst. rewrite post_u_accepted by done.
  unfold open_metadata. rewrite Hst.
  destruct (store_chunk_effects (<[request_file req := request_metadata req]> st)
              [WriteFile (request_file req) (request_metadata req)]
              (request_metadata req) (request_file req) (request_id req)
              (field (req_fileName req))
              (default [] (req_chunk req)) (parseInt (field (req_chunkIndex req)))
              (parseInt (field (req_totalChunks req))) replies entropy)
    as [rest ->].
  done.
Qed.

(** A record becomes complete exactly when a last chunk is ingested, and
    the write that marks it carries the token. *)
Lemma post_u_completes st req replies entropy m' :
  ~ already_complete st req ->
  after (post_u st req replies entropy) !! request_file req = Some m' ->
  (done m' = true <-> ingests_last req replies)
  /\ (done m' = true ->
      deleteToken m' = Some (generateDeleteToken entropy)
      /\ last (effects (post_u st req replies entropy))
         = Some (WriteFile (request_file req) m')).
Proof.
  intros Hopen. unfold ingests_last.
  assert (forall m, st !! request_file req = Some m -> done m = false) as Hst.
  { intros m Hm. destruct (done m) eqn:E; [|done]. destruct Hopen. by exists m. }
  destruct (accepted req) eqn:Hacc.
  2: { destruct (post_u_not_accepted st req replies entropy Hacc) as (x & -> & _).
       simpl. intros Hm'. rewrite (Hst _ Hm').
       split; [|done]. split; [done | by intros (? & _)]. }
  rewrite post_u_accepted by done. unfold open_metadata.
  destruct (st !! request_file req) as [m|] eqn:Hm.
  - rewrite (Hst m eq_refl).
    destruct (upload_of req replies) as [[ref|]|] eqn:Hup.
    + destruct (store_chunk_returned st [] m req replies entropy ref Hup)
        as (-> & -> & _).
      rewrite lookup_insert_eq. intros [= <-]. unfold written_record.
      destruct (declares_last req) eqn:Hlast; simpl.
      * split; [|done]. split; [|done]. intros _. repeat split. by exists ref.
      * rewrite (Hst m eq_refl). split; [|done]. split; [done | by intros (_ & ? & _)].
    + destruct (store_chunk_thrown st [] m req replies entropy Hup) as (_ & -> & _).
      rewrite Hm. intros [= <-]. rewrite (Hst m eq_refl).
      split; [|done]. split; [done | by intros (_ & _ & ? & ?)].
    + destruct (store_chunk_pending st [] m req replies entropy Hup) as (_ & ->).
      rewrite Hm. intros [= <-]. rewrite (Hst m eq_refl).
      split; [|done]. split; [done | by intros (_ & _ & ? & ?)].
  - destruct (upload_of req replies) as [[ref|]|] eqn:Hup.
    + destruct (store_chunk_returned (<[request_file req := request_metadata req]> st)
                  [WriteFile (request_file req) (request_metadata req)]
                  (request_metadata req) req replies entropy ref Hup)
        as (-> & -> & _).
      rewrite lookup_insert_eq. intros [= <-]. unfold written_record.
      destruct (declares_last req) eqn:Hlast; simpl.
      * split; [|done]. split; [|done]. intros _. repeat split. by exists ref.
      * split; [|done]. split; [done | by intros (_ & ? & _)].
    + destruct (store_chunk_thrown (<[request_file req := request_metadata req]> st)
                  [WriteFile (request_file req) (request_metadata req)]
                  (request_metadata req) req replies entropy Hup) as (_ & -> & _).
      rewrite lookup_insert_eq. intros [= <-]. simpl.
      split; [|done]. split; [done | by intros (_ & _ & ? & ?)].
    + destruct (store_chunk_pending (<[request_file req := request_metadata req]> st)
                  [WriteFile (request_file req) (request_metadata req)]
                  (request_metadata req) req replies entropy Hup) as (_ & ->).
      rewrite lookup_insert_eq. intros [= <-]. simpl.
      split; [|done]. split; [done | by intros (_ & _ & ? & ?)].
Qed.

Lemma accepted_chunk_size req cs :
  accepted req = true -> chunkSize (request_metadata req) = Some cs ->
  1024 * 1024 <= cs <= 50 * 1024 * 1024.
Proof.
  unfold accepted, chunk_size_rejected. simpl.
  intros [_ Hsize%negb_true_iff]%andb_true_iff Hcs.
  destruct (parseInt (field (req_chunkSize req))) as [| |z]; try done.
  injection Hcs as ->. apply orb_false_iff in Hsize as [Hlo Hhi].
  unfold gt in Hhi. simpl in Hlo, Hhi. lia.
Qed.

(** Every stored chunk size that is a number lies between 1 MiB and
    50 MiB: a positive chunk size is what the downloads of a reachable
    store meet. *)
Lemma reachable_sized st : reachable st -> sized st.
Proof.
  intros [ops ->]. unfold run.
  assert (sized ∅) as Hst by (intros id m cs Hm; by rewrite lookup_empty in Hm).
  revert Hst. generalize (∅ : store). 
  induction ops as [|op ops IH]; intros st Hst; simpl; [done|].
  apply IH. destruct op as [req replies entropy | id rangeStr getFile fetch | id token];
    simpl.
  - destruct (post_u_cases st req replies entropy)
      as [-> | [(Hacc & _ & -> & _) | (Hacc & m & ref & _ & Hm & ->)]]; [done| |].
    + intros id m cs. rewrite lookup_insert. case_decide; [|apply Hst].
      intros [= <-]. by apply accepted_chunk_size.
    + intros id m' cs. rewrite lookup_insert. case_decide; [|apply Hst].
      intros [= <-]. replace (chunkSize (written_record req entropy ref m))
        with (chunkSize m) by (unfold written_record; by destruct (declares_last req)).
      destruct Hm as [[Hm _] | [_ ->]]; [by eapply Hst | by apply accepted_chunk_size].
  - by rewrite get_file_after.
  - unfold delete_file. repeat (case_match; simpl; try done).
    intros id' m cs. rewrite lookup_delete.
    destruct (decide (metadata_file id = id')); [done | apply Hst].
Qed.

(** C3.  In every store the server can reach by chunk uploads, downloads
    and deletions, a record has a delete token if and only if it is
    [done].  A record is created, in a write of its own, with
    [done = false] and no token; and a chunk upload leaves the record of
    its identifier [done] exactly when its chunk, declared the last one
    ([chunkIndex == totalChunks - 1] on the fields of the request), was
    stored by the backend, in which case the token, made from the random
    bytes of that call, is in the record that the last write of the call
    persists together with [done = true]. *)
Theorem delete_token_iff_done ops :
  let st := run ∅ ops in
  (forall file m, st !! file = Some m -> (deleteToken m <> None <-> done m = true))
  /\ forall req replies entropy,
      let r := post_u st req replies entropy in
      (accepted req = true -> st !! request_file req = None ->
       head (effects r) = Some (WriteFile (request_file req) (request_metadata req))
       /\ done (request_metadata req) = false
       /\ deleteToken (request_metadata req) = None)
      /\ (~ already_complete st req ->
          forall m', after r !! request_file req = Some m' ->
            (done m' = true <-> ingests_last req replies)
            /\ (done m' = true ->
                deleteToken m' = Some (generateDeleteToken entropy)
                /\ last (effects r) = Some (WriteFile (request_file req) m'))).
Proof.
  intros st. split.
  - intros file m Hm. by apply (run_consistent ∅ ops) in Hm.
  - intros req replies entropy r. split.
    + apply post_u_creates.
    + intros Hopen m' Hm'. by apply post_u_completes.
Qed.

(** C4, as amended.  Over every sequence of chunk uploads, a record that
    is there stays there and its list of references only grows, by
    appending: its length never decreases.  The declared [totalChunks],
    [fileSize], [chunkSize] and the stored [fileName] stay what they were
    at creation.  (The length is not bounded by [totalChunks].) *)
Theorem chunk_refs_only_grow calls : forall st file m,
  st !! file = Some m ->
  exists m',
    ingest_all st calls !! file = Some m'
    /\ (length (fileIds m) <= length (fileIds m'))%nat
    /\ extends m m'.
Proof.
  unfold ingest_all.
  induction calls as [|[[req replies] entropy] calls IH]; intros st file m Hm; simpl.
  - exists m. by repeat split.
  - destruct (post_u_extends st req replies entropy file m Hm) as (m1 & Hm1 & H1).
    destruct (IH _ file m1 Hm1) as (m' & Hm' & Hlen & H2).
    exists m'. split; [done|]. split; [|by eapply extends_trans].
    destruct H1 as [Hpre _]. apply prefix_length in Hpre. lia.
Qed.

End Lifecycle.

(** ** Deletion *)

Section Deletion.

Context `{Platform}.

(** C6, as amended.  A deletion request that carries a token, for a
    record that exists and has no delete token because its upload never
    completed, is answered "This file cannot be deleted" with status 400;
    nothing is removed and the store is what it was. *)
Theorem delete_before_completion (st : store) id token m :
  truthy_str token = true -> st !! metadata_file id = Some m ->
  deleteToken m = None ->
  let r := delete_file st id token in
  response r = Some CannotBeDeleted /\ delete_status CannotBeDeleted = 400
  /\ after r = st /\ effects r = [].
Proof.
  intros Htoken Hm Hnull. unfold delete_file. by rewrite Htoken, Hm, Hnull.
Qed.

End Deletion.

(** ** Downloads *)

Section Download.

Context `{Platform}.

Implicit Types (st : store) (m : FileRecord) (rangeStr : option str).

Lemma take_while_app (p : N -> bool) a b :
  Forall (fun x => p x = true) a -> take_while p (a ++ b) = a ++ take_while p b.
Proof. induction 1 as [|x a Hx _ IH]; simpl; [done|]. by rewrite Hx, IH. Qed.

Lemma absent_differs (c : N) a :
  c ∉ a -> Forall (fun x => negb (x =? c)%N = true) a.
Proof.
  intros Ha. apply Forall_forall. intros x Hx.
  apply negb_true_iff, N.eqb_neq. by intros ->.
Qed.

(** Of a header [<unit>=<start>-<rest>], only [<start>] is read. *)
Lemma range_start_form pre a rest :
  61%N ∉ pre -> 61%N ∉ a -> hyphen ∉ a ->
  range_start (Some (pre ++ 61%N :: a ++ hyphen :: rest))
    = Returned (Some (parseInt a)).
Proof.
  intros Hpre Ha1 Ha2. unfold range_start.
  replace (truthy_str (Some (pre ++ 61%N :: a ++ hyphen :: rest))) with true
    by by destruct pre.
  simpl. rewrite split_cons by done. simpl.
  rewrite split_head, take_while_app by by apply absent_differs.
  simpl. rewrite split_head.
  by rewrite take_while_app_stop by (by apply absent_differs || done).
Qed.

Lemma range_start_truthy rangeStr start :
  range_start rangeStr = Returned (Some start) -> truthy_str rangeStr = true.
Proof. unfold range_start. by destruct (truthy_str rangeStr). Qed.

(** What is parsed stops at the first hyphen, so no minus sign is read. *)
Lemma range_start_sign rangeStr start :
  range_start rangeStr = Returned (Some start) ->
  start = NaN \/ start = Inf false \/ exists s, start = Num s /\ 0 <= s.
Proof.
  unfold range_start. destruct (truthy_str rangeStr); [|done].
  destruct (split 61%N (default [] rangeStr) !! 1%nat) as [piece|]; [|done].
  rewrite split_head. simpl. intros [= <-]. apply parseInt_cases.
  intros Hin. pose proof (take_while_all (fun c => negb (c =? hyphen)%N) piece) as Hall.
  rewrite Forall_forall in Hall. apply Hall in Hin. by rewrite N.eqb_refl in Hin.
Qed.

Lemma range_start_bound rangeStr s :
  range_start rangeStr = Returned (Some (Num s)) -> 0 <= s.
Proof.
  intros [?|[?|(s' & [= ->] & Hs)]]%range_start_sign; done.
Qed.

(** The handler looks at the header through [range_start] and the test of
    its presence only. *)
Lemma get_file_same_start st id r1 r2 getFile fetch :
  truthy_str r1 = truthy_str r2 -> range_start r1 = range_start r2 ->
  get_file st id r1 getFile fetch = get_file st id r2 getFile fetch.
Proof.
  intros Ht Hs. unfold get_file, range_end, partsToDownload.
  by rewrite Ht, Hs.
Qed.

(** A record whose name or type is refused in a header is answered 500,
    before anything is asked of the backend. *)
Lemma get_file_refused st id m rangeStr getFile fetch :
  st !! metadata_file id = Some m -> headers_accepted (full_headers m) = false ->
  get_file st id rangeStr getFile fetch = answer st [] InternalError.
Proof. intros Hm Hh. unfold get_file. by rewrite Hm, Hh. Qed.

(** The handler on a record whose headers are accepted. *)
Lemma get_file_found st id m rangeStr getFile fetch :
  st !! metadata_file id = Some m -> headers_accepted (full_headers m) = true ->
  get_file st id rangeStr getFile fetch
  = match range_start rangeStr with
    | Thrown => answer st (GetFile <$> fileIds m) InternalError
    | Returned start =>
        let p := partsToDownload (full_headers m)
                   (convertFileIdsToUrls getFile (fileIds m)) rangeStr start
                   (range_end rangeStr start m) m in
        answer st ((GetFile <$> fileIds m) ++ (stream_parts fetch p.1).1.1)
          (if (stream_parts fetch p.1).2
           then Streamed p.2 (stream_parts fetch p.1).1.2 true
           else match (stream_parts fetch p.1).1.2 with
                | [] => InternalError
                | _ => Streamed p.2 (stream_parts fetch p.1).1.2 false
                end)
    end.
Proof.
  intros Hm Hh. unfold get_file. rewrite Hm, Hh. simpl.
  destruct (range_start rangeStr) as [start|]; [|done].
  destruct (partsToDownload _ _ _ _ _ _) as [parts h']. simpl.
  by destruct (stream_parts fetch parts) as [[fetches body] ok].
Qed.

(** The handler on a header whose start is read. *)
Lemma get_file_ranged st id m rangeStr start getFile fetch :
  st !! metadata_file id = Some m -> headers_accepted (full_headers m) = true ->
  range_start rangeStr = Returned (Some start) ->
  let e := min (add start (of_json (chunkSize m))) (sub (of_json (fileSize m)) (Num 1)) in
  let parts := ranged_parts (convertFileIdsToUrls getFile (fileIds m)) start e m in
  let h := partial_headers (full_headers m) start e m in
  get_file st id rangeStr getFile fetch
  = answer st ((GetFile <$> fileIds m) ++ (stream_parts fetch parts).1.1)
      (if (stream_parts fetch parts).2 then Streamed h (stream_parts fetch parts).1.2 true
       else match (stream_parts fetch parts).1.2 with
            | [] => InternalError
            | _ => Streamed h (stream_parts fetch parts).1.2 false
            end).
Proof.
  intros Hm Hh Hstart e parts h. subst e parts h.
  pose proof (range_start_truthy _ _ Hstart) as Htruthy.
  rewrite (get_file_found st id m) by done. rewrite Hstart.
  unfold range_end, partsToDownload. by rewrite Htruthy.
Qed.

(** Without offsets every link is fetched whole, in order. *)
Lemma stream_whole fetch urls :
  Forall (intact fetch) urls ->
  stream_parts fetch (whole <$> urls)
    = ((fun link => Fetch link None) <$> urls, urls ≫= object_of fetch, true).
Proof.
  induction 1 as [|link urls [data Hd] _ IH]; [done|].
  rewrite fmap_cons. simpl. unfold part_range. simpl.
  rewrite Hd, IH. unfold object_of at 2. by rewrite Hd.
Qed.

(** What the handler answers to a request without a range. *)
Lemma get_file_whole st id m getFile fetch :
  st !! metadata_file id = Some m -> headers_accepted (full_headers m) = true ->
  Forall (intact fetch) (convertFileIdsToUrls getFile (fileIds m)) ->
  response (get_file st id None getFile fetch)
    = Some (Streamed (full_headers m)
              (convertFileIdsToUrls getFile (fileIds m) ≫= object_of fetch) true).
Proof.
  intros Hm Hh Hok. rewrite (get_file_found st id m) by done. simpl.
  by rewrite (stream_whole fetch _ Hok).
Qed.

Lemma fmap_alter_same {A B} (g : A -> B) (f : A -> A) i (l : list A) :
  (forall x, g (f x) = g x) -> g <$> alter f i l = g <$> l.
Proof.
  intros Hg. revert i. induction l as [|x l IH]; intros [|i]; try done.
  - cbn. by rewrite Hg.
  - cbn. f_equal. apply IH.
Qed.

Lemma last_alter {A} (f : A -> A) (l : list A) :
  last (alter f (length l - 1)%nat l) = f <$> last l.
Proof.
  rewrite !last_lookup, length_alter.
  replace (length l - 1)%nat with (pred (length l)) by lia.
  apply list_lookup_alter_eq.
Qed.

(** The links of the parts of a ranged request are the slice. *)
Lemma ranged_parts_urls urls start end_ m :
  url <$> ranged_parts urls start end_ m
    = slice urls (startPartNumber start m) (endPartNumber end_ m).
Proof.
  unfold ranged_parts. case_bool_decide.
  - rewrite !fmap_alter_same by done. rewrite <- list_fmap_compose.
    by rewrite list_fmap_id.
  - rewrite <- list_fmap_compose. by rewrite list_fmap_id.
Qed.

Lemma ranged_parts_head urls start end_ m p :
  head (ranged_parts urls start end_ m) = Some p ->
  part_start p = Some (rem start (of_json (chunkSize m))).
Proof.
  unfold ranged_parts.
  destruct (whole <$> slice urls _ _) as [|q parts]; simpl; [done|].
  destruct parts; simpl; by intros [= <-].
Qed.

Lemma ranged_parts_last urls start end_ m p :
  last (ranged_parts urls start end_ m) = Some p ->
  part_end p = Some (rem end_ (of_json (chunkSize m))).
Proof.
  unfold ranged_parts. case_bool_decide as Hlen.
  - rewrite <- (length_alter (set_start (rem start (of_json (chunkSize m)))) _ 0).
    rewrite last_alter. by intros [q [_ ->]]%fmap_Some.
  - destruct (whole <$> slice urls _ _); [done | simpl in Hlen; lia].
Qed.

(** The quotients of the part numbers, as integers. *)
Lemma floor_div_pos s cs :
  Z.abs s <= 2 ^ 53 -> 0 < cs ->
  exists a, floor_div (Num s) (Num cs) = Num a /\ a * cs <= s < (a + 1) * cs.
Proof.
  intros Hs Hcs. exists (s / cs). rewrite floor_div_safe by lia. split; [done|].
  pose proof (Z.div_mod s cs). pose proof (Z.mod_pos_bound s cs). nia.
Qed.

Lemma ceil_div_pos e cs :
  Z.abs e <= 2 ^ 53 -> 0 < cs ->
  exists b, ceil_div (Num e) (Num cs) = Num b /\ (b - 1) * cs < e <= b * cs.
Proof.
  intros He Hcs. exists (- (- e / cs)). rewrite ceil_div_safe by lia.
  split; [done|].
  pose proof (Z.div_mod (- e) cs). pose proof (Z.mod_pos_bound (- e) cs). nia.
Qed.

(** The arithmetic of a ranged request on sizes up to 2^53: the end and
    the length announced are the exact integers. *)
Lemma range_end_safe m fs cs s :
  fileSize m = Some fs -> chunkSize m = Some cs ->
  0 < cs -> 0 <= fs <= 2 ^ 53 -> 0 <= s -> s + cs <= 2 ^ 53 ->
  let e := Z.min (s + cs) (fs - 1) in
  of_json (chunkSize m) = Num cs
  /\ min (add (Num s) (of_json (chunkSize m))) (sub (of_json (fileSize m)) (Num 1))
     = Num e
  /\ -1 <= e <= 2 ^ 53
  /\ to_string (add (sub (Num e) (Num s)) (Num 1)) = u (pretty (e - s + 1))
  /\ to_string (Num s) = u (pretty s) /\ to_string (Num e) = u (pretty e)
  /\ json_to_string (fileSize m) = u (pretty fs).
Proof.
  intros Hfs Hcs Hpos Hsize Hs Hsum e. rewrite Hfs, Hcs.
  rewrite !of_json_safe, add_safe, sub_safe by lia.
  split; [done|]. split; [done|]. split; [lia|].
  rewrite sub_safe, add_safe, !to_string_safe, json_to_string_safe by lia.
  done.
Qed.

(** C1, as amended.  For the record of 25 000 000 bytes in chunks of
    10 000 000 and the header [bytes=5000000-]: the start is 5000000, the
    end is 15000000, the part numbers are 0 and 2, the parts are the
    first two links, the first fetched from offset 5000000 and the second
    up to offset 5000000, the status is 206, [Content-Length] is 10000001
    and [Content-Range] is [bytes 5000000-15000000/25000000].  In general,
    for a record whose name and type go into a header, with a positive
    chunk size and a file size that is not negative, and a header whose
    start is read as the number [s], all of them small enough for the
    arithmetic of the runtime to be exact ([fileSize] and [s + chunkSize]
    up to 2^53): the end is [min (s + chunkSize) (fileSize - 1)], the
    start part is the floor of [s / chunkSize], the end part the ceiling
    of [end / chunkSize], the parts are the end-exclusive slice of the
    links between them, the first one carrying the remainder of [s] and
    the last one the remainder of the end, and the answer has status 206,
    [Content-Length = end - s + 1] and [Content-Range] of start, end and
    file size. *)
Theorem range_arithmetic :
  (let m := range_example in
   let rangeStr := Some (u "bytes=5000000-") in
   range_start rangeStr = Returned (Some (Num 5000000))
   /\ range_end rangeStr (Some (Num 5000000)) m = Some (Num 15000000)
   /\ startPartNumber (Num 5000000) m = Num 0
   /\ endPartNumber (Num 15000000) m = Num 2
   /\ forall l0 l1 l2, exists h,
       partsToDownload (full_headers m) [l0; l1; l2] rangeStr
           (Some (Num 5000000)) (Some (Num 15000000)) m
         = ([set_start (Num 5000000) (whole l0); set_end (Num 5000000) (whole l1)], h)
       /\ part_range (set_start (Num 5000000) (whole l0)) = Some (u "bytes=5000000-")
       /\ part_range (set_end (Num 5000000) (whole l1)) = Some (u "bytes=0-5000000")
       /\ status h = 206 /\ content_length h = u "10000001"
       /\ content_range h = Some (u "bytes 5000000-15000000/25000000"))
  /\ forall st id m fs cs rangeStr s getFile fetch,
      st !! metadata_file id = Some m ->
      headers_accepted (full_headers m) = true ->
      fileSize m = Some fs -> chunkSize m = Some cs ->
      0 < cs -> 0 <= fs <= 2 ^ 53 -> s + cs <= 2 ^ 53 ->
      range_start rangeStr = Returned (Some (Num s)) ->
      let e := Z.min (s + cs) (fs - 1) in
      let urls := convertFileIdsToUrls getFile (fileIds m) in
      let r := get_file st id rangeStr getFile fetch in
      range_end rangeStr (Some (Num s)) m = Some (Num e)
      /\ exists a b parts h,
          startPartNumber (Num s) m = Num a /\ a * cs <= s < (a + 1) * cs
          /\ endPartNumber (Num e) m = Num b /\ (b - 1) * cs < e <= b * cs
          /\ partsToDownload (full_headers m) urls rangeStr
                (Some (Num s)) (Some (Num e)) m = (parts, h)
          /\ url <$> parts = slice urls (Num a) (Num b)
          /\ (forall p, head parts = Some p -> part_start p = Some (Num (Z.rem s cs)))
          /\ (forall p, last parts = Some p -> part_end p = Some (Num (Z.rem e cs)))
          /\ status h = 206
          /\ content_length h = u (pretty (e - s + 1))
          /\ content_range h
               = Some (u "bytes " ++ u (pretty s) ++ u "-" ++ u (pretty e)
                         ++ u "/" ++ u (pretty fs))
          /\ effects r = (GetFile <$> fileIds m) ++ (stream_parts fetch parts).1.1
          /\ forall h' body ended,
              response r = Some (Streamed h' body ended) -> h' = h.
Proof.
  split.
  - repeat split. intros l0 l1 l2. eexists. repeat split.
  - intros st id m fs cs rangeStr s getFile fetch Hm Hh Hfs Hcs Hpos Hsize Hsum
      Hstart e urls r.
    pose proof (range_start_truthy _ _ Hstart) as Htruthy.
    pose proof (range_start_bound _ _ Hstart) as Hs.
    destruct (range_end_safe m fs cs s Hfs Hcs Hpos Hsize Hs Hsum)
      as (Hcs' & Hend & He & Hlength & Hss & Hes & Hsize').
    fold e in Hend, He, Hlength, Hes.
    split; [unfold range_end; by rewrite Htruthy, Hend|].
    destruct (floor_div_pos s cs) as (a & Ha & Hab); [lia..|].
    destruct (ceil_div_pos e cs) as (b & Hb & Hbb); [lia..|].
    exists a, b, (ranged_parts urls (Num s) (Num e) m),
      (partial_headers (full_headers m) (Num s) (Num e) m).
    assert (rem (Num s) (Num cs) = Num (Z.rem s cs)
            /\ rem (Num e) (Num cs) = Num (Z.rem e cs)) as [Hrs Hre].
    { unfold rem. destruct (Z.eqb_spec cs 0); [lia | done]. }
    unfold startPartNumber, endPartNumber. rewrite Hcs'.
    split; [done|]. split; [done|]. split; [done|]. split; [done|].
    split; [unfold partsToDownload; by rewrite Htruthy|].
    split.
    { rewrite ranged_parts_urls. unfold startPartNumber, endPartNumber.
      by rewrite Hcs', Ha, Hb. }
    split.
    { intros p Hp. apply ranged_parts_head in Hp. by rewrite Hp, Hcs', Hrs. }
    split.
    { intros p Hp. apply ranged_parts_last in Hp. by rewrite Hp, Hcs', Hre. }
    split; [done|].
    split; [done|].
    split.
    { unfold partial_headers, content_range. by rewrite Hss, Hes, Hsize'. }
    subst r. rewrite (get_file_ranged st id m rangeStr (Num s)) by done.
    rewrite Hend. fold urls.
    destruct (stream_parts fetch _) as [[fetches body] ok]. simpl.
    split; [done|]. intros h' body' ended.
    destruct ok; [by intros [= <- _ _]|]. destruct body; [done|]. by intros [= <- _ _].
Qed.

(** C7, as amended.  On a record whose name and type go into a header,
    every header that is not empty and holds a [=] is handled as a range,
    and answered 206 with a [Content-Range], whatever it holds.  When its
    start is read as a number it is the open-ended range from that start,
    whatever follows the start: [bytes=<start>-<end>] is answered exactly
    as [bytes=<start>-].  When no number is read, as in [bytes=-500], the
    offsets are [NaN], no part is fetched and the answer is an empty body
    under the headers [Content-Length: NaN] and
    [Content-Range: bytes NaN-NaN/<size>].  A header that is not empty and
    holds no [=] is answered 500.  Only an absent or empty header is
    handled as no range: status 200, [Content-Length] the stored file
    size, no [Content-Range], and the bytes of every link in order for a
    body. *)
Theorem range_header_forms st id m getFile fetch :
  st !! metadata_file id = Some m -> headers_accepted (full_headers m) = true ->
  (forall pre a rest,
      61%N ∉ pre -> 61%N ∉ a -> hyphen ∉ a ->
      get_file st id (Some (pre ++ 61%N :: a ++ hyphen :: rest)) getFile fetch
      = get_file st id (Some (pre ++ 61%N :: a ++ [hyphen])) getFile fetch)
  /\ (forall rangeStr start h body ended,
        range_start rangeStr = Returned (Some start) ->
        response (get_file st id rangeStr getFile fetch)
          = Some (Streamed h body ended) ->
        status h = 206 /\ is_Some (content_range h))
  /\ (forall pre rest,
        61%N ∉ pre ->
        range_start (Some (pre ++ 61%N :: hyphen :: rest)) = Returned (Some NaN))
  /\ (forall rangeStr,
        range_start rangeStr = Returned (Some NaN) ->
        get_file st id rangeStr getFile fetch
        = answer st (GetFile <$> fileIds m)
            (Streamed (partial_headers (full_headers m) NaN NaN m) [] true)
        /\ content_length (partial_headers (full_headers m) NaN NaN m) = u "NaN"
        /\ content_range (partial_headers (full_headers m) NaN NaN m)
           = Some (u "bytes NaN-NaN/" ++ json_to_string (fileSize m)))
  /\ (forall header,
        header <> [] -> 61%N ∉ header ->
        response (get_file st id (Some header) getFile fetch) = Some InternalError)
  /\ get_file st id (Some []) getFile fetch = get_file st id None getFile fetch
  /\ (let urls := convertFileIdsToUrls getFile (fileIds m) in
      Forall (intact fetch) urls ->
      response (get_file st id None getFile fetch)
        = Some (Streamed (full_headers m) (urls ≫= object_of fetch) true)
      /\ status (full_headers m) = 200
      /\ content_length (full_headers m) = json_to_string (fileSize m)
      /\ content_range (full_headers m) = None).
Proof.
  intros Hm Hh. split; [|split; [|split; [|split; [|split; [|split]]]]].
  - intros pre a rest Hpre Ha1 Ha2. apply get_file_same_start.
    + by destruct pre.
    + by rewrite !range_start_form.
  - intros rangeStr start h body ended Hstart.
    rewrite (get_file_ranged st id m rangeStr start) by done.
    destruct (stream_parts fetch _) as [[fetches b] ok]. simpl.
    destruct ok; [by intros [= <- _ _]|]. destruct b; [done|]. by intros [= <- _ _].
  - intros pre rest Hpre.
    apply (range_start_form pre [] rest Hpre); apply not_elem_of_nil.
  - intros rangeStr Hstart.
    rewrite (get_file_ranged st id m rangeStr NaN) by done.
    split; [|done].
    assert (ranged_parts (convertFileIdsToUrls getFile (fileIds m)) NaN NaN m = [])
      as Hparts.
    { unfold ranged_parts, startPartNumber, endPartNumber. simpl.
      unfold slice. by simpl. }
    change (min (add NaN _) _) with NaN. rewrite Hparts. simpl.
    by rewrite app_nil_r.
  - intros header Hne Habsent. rewrite (get_file_found st id m) by done.
    unfold range_start. destruct header as [|c header]; [done|].
    simpl truthy_str. cbv iota. simpl default. by rewrite split_absent.
  - by apply get_file_same_start.
  - intros urls Hok. split; [by apply get_file_whole | done].
Qed.

(** One request at most for each part, and nothing but requests. *)
Lemma stream_parts_fetches fetch parts :
  (length (stream_parts fetch parts).1.1 <= length parts)%nat
  /\ Forall (fun e => is_fetch e = true) (stream_parts fetch parts).1.1.
Proof.
  induction parts as [|p parts [IH1 IH2]]; simpl; [by split|].
  destruct (fetch (url p) (part_range p)) as [|data [|]]; simpl.
  - split; [lia | by repeat constructor].
  - destruct (stream_parts fetch parts) as [[effs body] ok]. simpl in *.
    split; [lia | by constructor].
  - split; [lia | by repeat constructor].
Qed.

Lemma filter_fetch_resolved (refs : list str) (fetches : list effect) :
  Forall (fun e => is_fetch e = true) fetches ->
  filter (fun e => is_fetch e = true) ((GetFile <$> refs) ++ fetches) = fetches.
Proof.
  intros Hf. rewrite filter_app.
  replace (filter (fun e => is_fetch e = true) (GetFile <$> refs)) with (@nil effect).
  - simpl. induction Hf as [|e l He _ IH]; [done|]. by rewrite filter_cons_True, IH.
  - induction refs as [|r refs IH]; [done|]. rewrite fmap_cons.
    by rewrite filter_cons_False.
Qed.

(** The links are those of the references that resolve, in order. *)
Lemma file_url_truthy file_path : truthy_str (Some (file_url file_path)) = true.
Proof. reflexivity. Qed.

Lemma omap_cons {A B} (f : A -> option B) x l :
  omap f (x :: l)
    = match f x with
      | Some y => y :: omap f l
      | None => omap f l
      end.
Proof. reflexivity. Qed.

Lemma convertFileIdsToUrls_resolved getFile refs :
  convertFileIdsToUrls getFile refs = file_url <$> omap getFile refs.
Proof.
  unfold convertFileIdsToUrls. induction refs as [|ref refs IH]; [done|].
  rewrite fmap_cons, !omap_cons, IH. unfold getFileFromService.
  destruct (getFile ref) as [file_path|]; [|done].
  by rewrite file_url_truthy.
Qed.





End Download.

(** * Further properties of the handlers *)

(** ** Input validation and the backend call *)

Section Validation.

Context `{Platform}.

Implicit Types (st : store) (req : upload_request).
Implicit Types (replies : list send_reply) (entropy : list byte).

(** What a chunk upload does once both guards and the completion test are
    passed, by the outcome of the backend call. *)
Lemma post_u_open st req replies entropy :
  accepted req = true -> ~ already_complete st req ->
  let r := post_u st req replies entropy in
  let file := request_file req in
  let m := working_record st req in
  match upload_of req replies with
  | Some (Returned ref) =>
      response r = Some (stored_answer st req entropy ref)
      /\ after r = <[file := written_record req entropy ref m]> st
  | Some Thrown =>
      response r = Some UploadFailed
      /\ after r = match st !! file with Some _ => st | None => <[file := m]> st end
  | None =>
      response r = None
      /\ after r = match st !! file with Some _ => st | None => <[file := m]> st end
  end.
Proof.
  intros Hacc Hopen r file m. subst r file m. unfold stored_answer, working_record.
  rewrite post_u_accepted by done. unfold open_metadata.
  destruct (st !! request_file req) as [m|] eqn:Hm; simpl.
  - assert (done m = false) as ->.
    { destruct (done m) eqn:E; [|done]. destruct Hopen. by exists m. }
    unfold store_chunk, upload_of, written_record, declares_last.
    destruct (uploadToService _ _ _) as [sends [[ref|]|]]; simpl; try done.
  - unfold store_chunk, upload_of, written_record, declares_last.
    destruct (uploadToService _ _ _) as [sends [[ref|]|]]; simpl; try done.
    rewrite insert_insert_eq. by destruct (strict_eq _ _).
Qed.

(** X1.  A chunk upload that fails one of the two guards is answered 400
    and does nothing: a missing chunk or an empty or missing field gives
    "Missing required fields"; otherwise the chunk size is an infinity, or
    a number below 1 MiB or above 50 MiB, and is echoed in the answer.
    Nothing is sent to the backend, nothing is written, the store is what
    it was. *)
Theorem rejected_upload_does_nothing st req replies entropy :
  accepted req = false ->
  let r := post_u st req replies entropy in
  let size := parseInt (field (req_chunkSize req)) in
  effects r = [] /\ after r = st
  /\ (fields_present req = false -> response r = Some MissingFields)
  /\ (fields_present req = true ->
      response r = Some (ChunkSizeOutOfRange size)
      /\ ((exists negative, size = Inf negative)
          \/ exists z, size = Num z /\ (z < 1024 * 1024 \/ 50 * 1024 * 1024 < z)))
  /\ exists x, response r = Some x /\ upload_status x = 400.
Proof.
  intros Hacc r size. subst r size. unfold accepted in Hacc. unfold post_u.
  destruct (fields_present req) eqn:Hf; simpl in *.
  - apply negb_false_iff in Hacc. rewrite Hacc.
    split; [done|]. split; [done|]. split; [done|]. split; [|by eexists].
    intros _. split; [done|].
    unfold chunk_size_rejected, gt in Hacc.
    destruct (parseInt (field (req_chunkSize req))) as [|b|z]; simpl in *;
      [done | left; by exists b |].
    right. exists z. split; [done | lia].
  - split; [done|]. split; [done|]. split; [done|]. split; [done | by eexists].
Qed.

(** X2.  The size guard lets through exactly the chunk sizes that are
    numbers between 1 MiB and 50 MiB and those that are not numbers at
    all: a [chunkSize] field without leading digits is read as [NaN],
    which no comparison rejects, and an accepted upload for a new
    identifier then leaves a record whose [chunkSize] is [null]. *)
Theorem chunk_size_guard req :
  (accepted req = true <->
   fields_present req = true
   /\ (parseInt (field (req_chunkSize req)) = NaN
       \/ exists z, parseInt (field (req_chunkSize req)) = Num z
                    /\ 1024 * 1024 <= z <= 50 * 1024 * 1024))
  /\ forall st replies entropy,
      fields_present req = true ->
      parseInt (field (req_chunkSize req)) = NaN ->
      st !! request_file req = None ->
      exists m,
        after (post_u st req replies entropy) !! request_file req = Some m
        /\ chunkSize m = None.
Proof.
  assert (accepted req = true <->
          fields_present req = true
          /\ (parseInt (field (req_chunkSize req)) = NaN
              \/ exists z, parseInt (field (req_chunkSize req)) = Num z
                           /\ 1024 * 1024 <= z <= 50 * 1024 * 1024)) as Hiff.
  { unfold accepted, chunk_size_rejected, gt.
    rewrite andb_true_iff, negb_true_iff.
    destruct (parseInt (field (req_chunkSize req))) as [|b|z]; simpl.
    - split; [intros [? _]; split; [done | by left] | by intros [? _]].
    - split; [by destruct b; intros [_ ?] | by intros [_ [?|(? & ? & _)]]].
    - rewrite orb_false_iff, !Z.ltb_ge. split.
      + intros [? [? ?]]. split; [done|]. right. exists z. split; [done | lia].
      + intros [? [?|(z' & [= <-] & ?)]]; [done|]. split; [done | lia]. }
  split; [exact Hiff|].
  intros st replies entropy Hf Hnan Hst.
  assert (accepted req = true) as Hacc by (apply Hiff; split; [done | by left]).
  assert (~ already_complete st req) as Hopen.
  { intros (m & Hm & _). congruence. }
  pose proof (post_u_open st req replies entropy Hacc Hopen) as Hr.
  simpl in Hr. unfold working_record in Hr. rewrite Hst in Hr. simpl in Hr.
  assert (chunkSize (request_metadata req) = None) as Hnull.
  { unfold request_metadata. simpl. by rewrite Hnan. }
  destruct (upload_of req replies) as [[ref|]|]; destruct Hr as [_ ->];
    rewrite lookup_insert_eq; eexists; (split; [done|]); [|done..].
  unfold written_record. by destruct (declares_last req).
Qed.

(** [uploadToService] in full: every rate-limit signal costs one more
    request for the same document. *)
Lemma uploadToService_script limits reply later file name :
  Forall (fun r => rate_limited r = true) limits -> rate_limited reply = false ->
  uploadToService (limits ++ reply :: later) file name
  = (replicate (S (length limits)) (SendDocument name file),
     Some match reply with
          | Sent id => Returned id
          | Rejected _ => Thrown
          end).
Proof.
  intros Hl Hr. induction Hl as [|[id|ra] limits Hlim _ IH]; simpl in *.
  - destruct reply as [id|ra]; [done|]. simpl in Hr. by rewrite Hr.
  - done.
  - by rewrite Hlim, IH.
Qed.

Lemma uploadToService_waiting limits file name :
  Forall (fun r => rate_limited r = true) limits ->
  uploadToService limits file name
  = (replicate (length limits) (SendDocument name file), None).
Proof.
  induction 1 as [|[id|ra] limits Hlim _ IH]; simpl in *; [done..|].
  by rewrite Hlim, IH.
Qed.

(** X3.  [uploadToService] sends the same document under the same name
    again after each rate-limit signal and stops at the first answer that
    is not one: it makes one request more than it got rate-limit signals,
    returns the [file_id] of that answer or throws its error, and does not
    look at what the backend would have answered next.  A failure whose
    [retry_after] is 0 or missing is an error, not a signal.  As long as
    the backend only sends signals the call has not returned. *)
Theorem uploadToService_retries limits reply later file name :
  Forall (fun r => rate_limited r = true) limits -> rate_limited reply = false ->
  uploadToService (limits ++ reply :: later) file name
  = (replicate (S (length limits)) (SendDocument name file),
     Some match reply with
          | Sent id => Returned id
          | Rejected _ => Thrown
          end)
  /\ uploadToService limits file name
    = (replicate (length limits) (SendDocument name file), None)
  /\ rate_limited (Rejected (Some 0)) = false
  /\ rate_limited (Rejected None) = false.
Proof.
  intros Hl Hr. split; [by apply uploadToService_script|].
  split; [by apply uploadToService_waiting | done].
Qed.

End Validation.

(** ** Records over sequences of requests *)

Section Records.

Context `{Platform}.

Implicit Types (st : store) (req : upload_request) (m : FileRecord).

(** X4.  A request changes nothing of the metadata files other than the
    one its identifier names: after a chunk upload, a download or a
    deletion, every other file holds the record it held, or is missing as
    before. *)
Theorem other_files_untouched st op file :
  file <> target op -> step st op !! file = st !! file.
Proof.
  intros Hne. destruct op as [req replies entropy | id rangeStr getFile fetch | id token];
    simpl in *.
  - destruct (post_u_cases st req replies entropy)
      as [-> | [(_ & _ & -> & _) | (_ & m & ref & _ & _ & ->)]]; [done|..];
      by rewrite lookup_insert_ne.
  - by rewrite get_file_after.
  - unfold delete_file. repeat (case_match; simpl; try done).
    by rewrite lookup_delete_ne.
Qed.

(** A complete record outlives every request that is not a deletion with
    its token. *)
Lemma step_keeps_complete st op file m :
  st !! file = Some m -> done m = true ->
  ~ deletes_with file (deleteToken m) op ->
  step st op !! file = Some m.
Proof.
  intros Hm Hdone Hop.
  destruct op as [req replies entropy | id rangeStr getFile fetch | id token]; simpl in *.
  - destruct (post_u_cases st req replies entropy)
      as [-> | [(_ & Hnone & -> & _) | (_ & m0 & ref & _ & Hm0 & ->)]]; [done|..].
    + rewrite lookup_insert_ne; [done | congruence].
    + destruct (decide (request_file req = file)) as [Heq|Hne].
      * rewrite Heq in Hm0. destruct Hm0 as [[Hm0 Hd]|[Hm0 _]]; congruence.
      * by rewrite lookup_insert_ne.
  - by rewrite get_file_after.
  - unfold delete_file.
    destruct (truthy_str token); simpl; [|done].
    destruct (st !! metadata_file id) as [m0|] eqn:Hm0; simpl; [|done].
    destruct (truthy_str (deleteToken m0)); simpl; [|done].
    case_bool_decide as Htoken; simpl; [|done].
    destruct (decide (metadata_file id = file)) as [Heq|Hne];
      [|by rewrite lookup_delete_ne].
    destruct Hop. split; [done|]. rewrite Heq in Hm0. congruence.
Qed.

(** X5.  Completion is final.  Once the record of a metadata file is
    [done], no sequence of chunk uploads, downloads and deletions changes
    it in any way, delete token included, unless it contains a deletion
    whose identifier names that file and that carries the token of the
    record. *)
Theorem complete_record_is_final ops : forall st file m,
  st !! file = Some m -> done m = true ->
  Forall (fun op => ~ deletes_with file (deleteToken m) op) ops ->
  run st ops !! file = Some m.
Proof.
  induction ops as [|op ops IH]; intros st file m Hm Hdone Hops; simpl; [done|].
  apply Forall_cons in Hops as [Hop Hops].
  apply IH; [|done..]. by apply step_keeps_complete.
Qed.

(** Properties of single records that the handlers establish and keep. *)
Lemma reachable_records (P : str -> FileRecord -> Prop) :
  (forall req, accepted req = true -> P (request_file req) (request_metadata req)) ->
  (forall req entropy ref m,
      accepted req = true -> P (request_file req) m -> done m = false ->
      P (request_file req) (written_record req entropy ref m)) ->
  forall st, reachable st -> forall file m, st !! file = Some m -> P file m.
Proof.
  intros Hnew Hwrite st [ops ->]. unfold run.
  assert (forall file m, (∅ : store) !! file = Some m -> P file m) as Hst
    by (intros file m Hm; by rewrite lookup_empty in Hm).
  revert Hst. generalize (∅ : store).
  induction ops as [|op ops IH]; intros st Hst; simpl; [done|].
  apply IH. destruct op as [req replies entropy | id rangeStr getFile fetch | id token];
    simpl.
  - destruct (post_u_cases st req replies entropy)
      as [-> | [(Hacc & _ & -> & _) | (Hacc & m & ref & _ & Hm & ->)]]; [done|..].
    + intros file m. rewrite lookup_insert.
      destruct (decide (request_file req = file)) as [<-|_]; [|apply Hst].
      intros [= <-]. by apply Hnew.
    + intros file m'. rewrite lookup_insert.
      destruct (decide (request_file req = file)) as [<-|_]; [|apply Hst].
      intros [= <-]. destruct Hm as [[Hm Hd] | [_ ->]].
      * apply Hwrite; [done | by apply Hst | done].
      * apply Hwrite; [done | by apply Hnew | done].
  - by rewrite get_file_after.
  - unfold delete_file. repeat (case_match; simpl; try done).
    intros file m. rewrite lookup_delete.
    destruct (decide (metadata_file id = file)); [done | apply Hst].
Qed.

(** X6.  In every store the server can reach, the record of a metadata
    file holds an identifier that names this file, its name is the
    normalised name of the request that created it, its chunk size, if it
    is a number, lies between 1 MiB and 50 MiB, a record that is [done]
    has at least one reference, and a record that is not [done] was never
    given a delete token. *)
Theorem reachable_record_shape st file m :
  reachable st -> st !! file = Some m ->
  metadata_file (fileId m) = file
  /\ (exists name, fileName m = formatFileName name false (Num 0))
  /\ (forall cs, chunkSize m = Some cs -> 1024 * 1024 <= cs <= 50 * 1024 * 1024)
  /\ (done m = true -> fileIds m <> [])
  /\ (done m = false -> deleteToken m = None).
Proof.
  intros Hst Hm. revert st Hst file m Hm.
  apply (reachable_records
           (fun file m => metadata_file (fileId m) = file
                        /\ (exists name, fileName m = formatFileName name false (Num 0))
                        /\ (forall cs, chunkSize m = Some cs ->
                              1024 * 1024 <= cs <= 50 * 1024 * 1024)
                        /\ (done m = true -> fileIds m <> [])
                        /\ (done m = false -> deleteToken m = None))).
  - intros req Hacc. split; [done|]. split; [by eexists|].
    split; [intros cs; by apply accepted_chunk_size|]. by split.
  - intros req entropy ref m _ (Hid & Hname & Hsize & _ & Htoken) Hdone.
    unfold written_record. destruct (declares_last req); simpl.
    + split; [done|]. split; [done|]. split; [done|]. split; [|done].
      intros _. by destruct (fileIds m).
    + split; [done|]. split; [done|]. split; [done|]. rewrite Hdone.
      split; [done|]. auto.
Qed.

End Records.

(** ** A whole upload, and the download that follows *)

Section RoundTrip.

Context `{Platform}.

Implicit Types (st : store) (req : upload_request) (m : FileRecord).
Implicit Types (calls : list (upload_request * list send_reply * list byte)).

Lemma ingest_all_app st calls calls' :
  ingest_all st (calls ++ calls') = ingest_all (ingest_all st calls) calls'.
Proof. unfold ingest_all, run. by rewrite fmap_app, foldl_app. Qed.

Lemma ingest_all_cons st call calls :
  ingest_all st (call :: calls)
  = ingest_all (after (post_u st call.1.1 call.1.2 call.2)) calls.
Proof. by destruct call as [[req replies] entropy]. Qed.

Lemma ingest_all_one st call :
  ingest_all st [call] = after (post_u st call.1.1 call.1.2 call.2).
Proof. by destruct call as [[req replies] entropy]. Qed.

Lemma push_refs_fields refs m :
  fileIds (push_refs refs m) = fileIds m ++ refs
  /\ done (push_refs refs m) = done m
  /\ deleteToken (push_refs refs m) = deleteToken m
  /\ fileName (push_refs refs m) = fileName m
  /\ fileSize (push_refs refs m) = fileSize m
  /\ chunkSize (push_refs refs m) = chunkSize m
  /\ totalChunks (push_refs refs m) = totalChunks m.
Proof.
  unfold push_refs. revert m. induction refs as [|ref refs IH]; intros m; simpl.
  - by rewrite app_nil_r.
  - destruct (IH (push_ref ref m)) as (-> & -> & -> & -> & -> & -> & ->).
    simpl. by rewrite <- app_assoc.
Qed.

(** One call of the sequence: the reference is pushed on the record at
    work; the last call also marks it. *)
Lemma stores_chunk_step st id last call ref :
  stores_chunk id last call ref -> ~ already_complete st call.1.1 ->
  after (post_u st call.1.1 call.1.2 call.2) =
    <[metadata_file id := if last
            then complete (generateDeleteToken call.2)
                   (push_ref ref (working_record st call.1.1))
            else push_ref ref (working_record st call.1.1)]> st.
Proof.
  intros (Hacc & <- & Hlast & Hup) Hopen.
  pose proof (post_u_open st call.1.1 call.1.2 call.2 Hacc Hopen) as Hr.
  simpl in Hr. rewrite Hup in Hr. destruct Hr as [_ ->].
  unfold written_record. by rewrite Hlast.
Qed.

(** The calls that are not the last one, on a record that is there. *)
Lemma ingest_middle calls : forall refs st id m,
  st !! metadata_file id = Some m -> done m = false ->
  Forall2 (stores_chunk id false) calls refs ->
  ingest_all st calls !! metadata_file id = Some (push_refs refs m).
Proof.
  induction calls as [|call calls IH]; intros refs st id m Hm Hdone Hcalls.
  - by apply Forall2_nil_inv_l in Hcalls as ->.
  - apply Forall2_cons_inv_l in Hcalls as (ref & refs' & Hcall & Hcalls & ->).
    rewrite ingest_all_cons.
    assert (~ already_complete st call.1.1) as Hopen.
    { intros (m0 & Hm0 & Hd). destruct Hcall as (_ & Hid & _).
      unfold request_file in Hm0. rewrite Hid in Hm0. congruence. }
    rewrite (stores_chunk_step st id false call ref Hcall Hopen).
    unfold working_record, request_file. destruct Hcall as (_ & Hid & _).
    rewrite Hid, Hm. simpl.
    apply (IH refs' _ id (push_ref ref m)); [apply lookup_insert_eq | done | done].
Qed.

(** The whole sequence, from an identifier without record. *)
Lemma ingest_sequence st id init final refs ref :
  st !! metadata_file id = None ->
  Forall2 (stores_chunk id false) init refs -> stores_chunk id true final ref ->
  ingest_all st (init ++ [final]) !! metadata_file id
  = Some (complete (generateDeleteToken final.2)
            (push_refs (refs ++ [ref])
               (request_metadata (default final (head init)).1.1))).
Proof.
  intros Hst Hinit Hfinal.
  assert (forall st' m,
            st' !! metadata_file id = Some m
            \/ (st' !! metadata_file id = None /\ m = request_metadata final.1.1) ->
            done m = false ->
            ingest_all st' [final] !! metadata_file id
            = Some (complete (generateDeleteToken final.2) (push_ref ref m))) as Hlast.
  { intros st' m Hm Hdone. rewrite ingest_all_one.
    assert (~ already_complete st' final.1.1) as Hopen.
    { intros (m0 & Hm0 & Hd). destruct Hfinal as (_ & Hid & _).
      unfold request_file in Hm0. rewrite Hid in Hm0.
      destruct Hm as [Hm|[Hm _]]; congruence. }
    rewrite (stores_chunk_step st' id true final ref Hfinal Hopen).
    unfold working_record, request_file. destruct Hfinal as (_ & Hid & _).
    rewrite Hid. rewrite lookup_insert_eq. by destruct Hm as [->|[-> ->]]. }
  destruct Hinit as [|call ref0 init refs0 Hcall Hinit].
  - apply Hlast; [by right | done].
  - rewrite <- app_comm_cons, ingest_all_cons, ingest_all_app.
    assert (~ already_complete st call.1.1) as Hopen.
    { intros (m0 & Hm0 & Hd). destruct Hcall as (_ & Hid & _).
      unfold request_file in Hm0. rewrite Hid in Hm0. congruence. }
    rewrite (stores_chunk_step st id false call ref0 Hcall Hopen).
    unfold working_record, request_file. destruct Hcall as (_ & Hid & _).
    rewrite Hid, Hst. simpl.
    rewrite (Hlast _ (push_refs refs0 (push_ref ref0 (request_metadata call.1.1)))).
    + unfold push_refs. simpl. by rewrite foldl_app.
    + left. apply ingest_middle; [apply lookup_insert_eq | done | done].
    + by destruct (push_refs_fields refs0 (push_ref ref0 (request_metadata call.1.1)))
        as (_ & -> & _).
Qed.

(** A record whose references all resolve is served whole. *)
Lemma get_file_resolved st id m getFile fetch content :
  st !! metadata_file id = Some m -> headers_accepted (full_headers m) = true ->
  backend_holds getFile fetch content (fileIds m) ->
  get_file st id None getFile fetch
  = answer st
      ((GetFile <$> fileIds m)
         ++ ((fun link => Fetch link None)
               <$> convertFileIdsToUrls getFile (fileIds m)))
      (Streamed (full_headers m) (fileIds m ≫= content) true)
  /\ length (convertFileIdsToUrls getFile (fileIds m)) = length (fileIds m).
Proof.
  intros Hm Hh Hold. rewrite (get_file_found st id m) by done. simpl.
  assert (Forall (intact fetch) (convertFileIdsToUrls getFile (fileIds m))
          /\ convertFileIdsToUrls getFile (fileIds m) ≫= object_of fetch
             = fileIds m ≫= content
          /\ length (convertFileIdsToUrls getFile (fileIds m)) = length (fileIds m))
    as (Hok & Hbody & Hlen).
  { rewrite convertFileIdsToUrls_resolved. unfold backend_holds in Hold.
    induction (fileIds m) as [|ref refs IH]; [done|].
    destruct (Hold ref) as (file_path & Hpath & Hfetch); [by left|].
    destruct IH as (IH1 & IH2 & IH3).
    { intros r Hr. apply Hold. by right. }
    rewrite omap_cons, Hpath, fmap_cons, !bind_cons. repeat split.
    - constructor; [by eexists | done].
    - unfold object_of at 1. by rewrite Hfetch, IH2.
    - simpl. by rewrite IH3. }
  rewrite (stream_whole fetch _ Hok). by rewrite Hbody.
Qed.

Lemma chunks_of_refs (content : str -> list byte) calls (rs : list str) :
  Forall2 (fun call r => content r = request_chunk call.1.1) calls rs ->
  rs ≫= content = mjoin ((fun call => request_chunk call.1.1) <$> calls).
Proof.
  induction 1 as [|call r calls rs Hc _ IH]; [done|].
  rewrite fmap_cons, bind_cons. simpl. by rewrite Hc, IH.
Qed.

(** X7.  A download without range of a record whose name and type go
    into a header and whose references all resolve resolves every
    reference, in order, then fetches every object whole, in order, and
    answers 200 with the objects' bytes concatenated in the order of the
    references and the stream ended. *)
Theorem download_reassembles st id m getFile fetch content :
  st !! metadata_file id = Some m -> headers_accepted (full_headers m) = true ->
  backend_holds getFile fetch content (fileIds m) ->
  let r := get_file st id None getFile fetch in
  response r = Some (Streamed (full_headers m) (fileIds m ≫= content) true)
  /\ status (full_headers m) = 200
  /\ effects r
     = (GetFile <$> fileIds m)
         ++ ((fun link => Fetch link None)
               <$> convertFileIdsToUrls getFile (fileIds m))
  /\ length (convertFileIdsToUrls getFile (fileIds m)) = length (fileIds m)
  /\ after r = st.
Proof.
  intros Hm Hh Hold r. subst r.
  destruct (get_file_resolved st id m getFile fetch content Hm Hh Hold) as [-> Hlen].
  by repeat split.
Qed.

(** X8.  The round trip.  When the chunks of a file are uploaded one
    after the other for an identifier whose metadata file does not exist,
    each accepted and stored by the backend, the last one declared last
    and no other, the record is [done], holds the references in the order
    of the uploads, has the token of the last call and the name and sizes
    of the first request; and when that name and its type go into a header
    and the backend still holds each chunk under its reference, the
    download without range answers 200 with exactly the uploaded chunks,
    concatenated in the order of the uploads.  When the name or its type
    is refused in a header, the download is answered 500 and nothing is
    asked of the backend. *)
Theorem upload_download_round_trip st id init final refs ref getFile fetch content :
  st !! metadata_file id = None ->
  Forall2 (stores_chunk id false) init refs -> stores_chunk id true final ref ->
  Forall2 (fun call r => content r = request_chunk call.1.1)
          (init ++ [final]) (refs ++ [ref]) ->
  backend_holds getFile fetch content (refs ++ [ref]) ->
  let st' := ingest_all st (init ++ [final]) in
  let first := (default final (head init)).1.1 in
  (exists m,
      st' !! metadata_file id = Some m /\ done m = true
      /\ fileIds m = refs ++ [ref]
      /\ deleteToken m = Some (generateDeleteToken final.2)
      /\ fileName m = formatFileName (field (req_fileName first)) false (Num 0)
      /\ totalChunks m = to_json (parseInt (field (req_totalChunks first))))
  /\ (headers_accepted (full_headers (request_metadata first)) = true ->
      exists h,
        response (get_file st' id None getFile fetch)
        = Some (Streamed h (mjoin ((fun call => request_chunk call.1.1)
                                     <$> init ++ [final])) true)
        /\ status h = 200)
  /\ (headers_accepted (full_headers (request_metadata first)) = false ->
      get_file st' id None getFile fetch = answer st' [] InternalError).
Proof.
  intros Hst Hinit Hfinal Hcontent Hold st' first. subst st' first.
  pose proof (ingest_sequence st id init final refs ref Hst Hinit Hfinal) as Hm.
  set (m0 := request_metadata (default final (head init)).1.1) in *.
  destruct (push_refs_fields (refs ++ [ref]) m0) as (Hids & _ & _ & Hn & _ & _ & Ht).
  split; [|split].
  - eexists. split; [exact Hm|]. simpl. rewrite Hids, Hn, Ht. by repeat split.
  - intros Hh.
    exists (full_headers (complete (generateDeleteToken final.2)
                           (push_refs (refs ++ [ref]) m0))).
    split; [|done].
    destruct (get_file_resolved _ id _ getFile fetch content Hm) as [-> _].
    { unfold headers_accepted, full_headers in *. simpl in *. by rewrite Hn. }
    { simpl. by rewrite Hids. }
    simpl. rewrite Hids. change (fileIds m0) with (@nil str).
    by rewrite app_nil_l, (chunks_of_refs content _ _ Hcontent).
  - intros Hh. apply (get_file_refused _ id _ None getFile fetch Hm).
    unfold headers_accepted, full_headers in *. simpl in *. by rewrite Hn.
Qed.

End RoundTrip.

(** ** Delete tokens and deletions *)

Section Tokens.

Context `{Platform}.

Implicit Types (st : store) (req : upload_request) (m : FileRecord).

Lemma hex_digit_hex n : (n < 16)%N -> is_hex (hex_digit n) = true.
Proof.
  intros Hn. unfold is_hex, hex_digit, is_digit.
  destruct (N.ltb_spec n 10).
  - apply orb_true_iff. left. apply andb_true_iff. rewrite !N.leb_le. lia.
  - apply orb_true_iff. right. apply andb_true_iff. rewrite !N.leb_le. lia.
Qed.

Lemma hex_digit_inj n n' :
  (n < 16)%N -> (n' < 16)%N -> hex_digit n = hex_digit n' -> n = n'.
Proof.
  unfold hex_digit. intros Hn Hn'.
  destruct (N.ltb_spec n 10), (N.ltb_spec n' 10); lia.
Qed.

Lemma byte_to_N_inj (x y : byte) : Byte.to_N x = Byte.to_N y -> x = y.
Proof.
  intros Hxy. pose proof (Byte.of_to_N x) as Hx. rewrite Hxy, Byte.of_to_N in Hx.
  congruence.
Qed.

Lemma to_hex_cons x b :
  to_hex (x :: b)
  = hex_digit (Byte.to_N x / 16) :: hex_digit (Byte.to_N x mod 16) :: to_hex b.
Proof. reflexivity. Qed.

(** X9.  The delete token of [n] random bytes is a string of [2 n]
    lower-case hexadecimal digits, not empty when [n] is not zero; and
    different bytes give different tokens. *)
Theorem delete_token_shape entropy :
  length (generateDeleteToken entropy) = (2 * length entropy)%nat
  /\ Forall (fun c => is_hex c = true) (generateDeleteToken entropy)
  /\ (entropy <> [] -> truthy_str (Some (generateDeleteToken entropy)) = true)
  /\ forall entropy',
      generateDeleteToken entropy = generateDeleteToken entropy' -> entropy = entropy'.
Proof.
  unfold generateDeleteToken. split; [|split; [|split]].
  - induction entropy as [|x b IH]; [done|]. rewrite to_hex_cons. simpl in *. lia.
  - induction entropy as [|x b IH]; [by constructor|]. rewrite to_hex_cons.
    pose proof (Byte.to_N_bounded x).
    repeat constructor; [apply hex_digit_hex..|done].
    + apply N.Div0.div_lt_upper_bound. lia.
    + apply N.mod_lt. lia.
  - by destruct entropy.
  - induction entropy as [|x b IH]; intros [|y b']; try done.
    rewrite !to_hex_cons. intros [= Hhi Hlo Hrest].
    pose proof (Byte.to_N_bounded x). pose proof (Byte.to_N_bounded y).
    apply hex_digit_inj in Hhi; [|apply N.Div0.div_lt_upper_bound; lia..].
    apply hex_digit_inj in Hlo; [|apply N.mod_lt; lia..].
    f_equal; [|by apply IH]. apply byte_to_N_inj.
    rewrite (N.div_mod (Byte.to_N x) 16), (N.div_mod (Byte.to_N y) 16) by lia.
    by rewrite Hhi, Hlo.
Qed.

(** X10.  A deletion changes the store only when it carries the token of
    the record: then the metadata file its identifier names is removed,
    and nothing is asked of the backend.  Otherwise nothing happens and the
    answer is 400 without a token, whether the file exists or not, 404
    when it does not, 403 for a token that is not the one of the
    record. *)
Theorem deletion_needs_the_token st id token :
  let r := delete_file st id token in
  let file := metadata_file id in
  ((after r = st /\ effects r = [])
   \/ (exists m, st !! file = Some m /\ deleteToken m = token
                 /\ truthy_str token = true
                 /\ response r = Some (Deleted id)
                 /\ after r = delete file st /\ effects r = [Unlink file]))
  /\ (truthy_str token = false ->
      response r = Some MissingToken /\ delete_status MissingToken = 400)
  /\ (truthy_str token = true -> st !! file = None ->
      response r = Some DeleteNotFound /\ delete_status DeleteNotFound = 404)
  /\ (forall m, truthy_str token = true -> st !! file = Some m ->
       truthy_str (deleteToken m) = true -> deleteToken m <> token ->
       response r = Some InvalidToken /\ delete_status InvalidToken = 403
       /\ after r !! file = Some m).
Proof.
  intros r file. subst r file. unfold delete_file.
  destruct (truthy_str token) eqn:Ht; simpl.
  2: { split; [by left|]. split; [done|]. split; [done|]. by intros m. }
  destruct (st !! metadata_file id) as [m|] eqn:Hm; simpl.
  2: { split; [by left|]. split; [done|]. split; [done|]. by intros m. }
  destruct (truthy_str (deleteToken m)) eqn:Hd; simpl.
  2: { split; [by left|]. split; [done|]. split; [done|].
       intros m' _ [= <-]. congruence. }
  case_bool_decide as Htoken; simpl.
  - split; [right; by exists m|]. split; [done|]. split; [done|].
    intros m' _ [= <-] _ Hne. by destruct Hne.
  - split; [by left|]. split; [done|]. split; [done|]. by intros m' _ [= <-].
Qed.

Lemma delete_file_authorised st id m token :
  st !! metadata_file id = Some m -> deleteToken m = Some token -> token <> [] ->
  delete_file st id (Some token)
  = answer (delete (metadata_file id) st) [Unlink (metadata_file id)] (Deleted id).
Proof.
  intros Hm Htoken Hne. unfold delete_file. rewrite Hm, Htoken.
  replace (truthy_str (Some token)) with true by by destruct token.
  simpl. by rewrite bool_decide_true.
Qed.

Lemma to_hex_not_empty entropy : entropy <> [] -> to_hex entropy <> [].
Proof. by destruct entropy. Qed.

(** X11.  A deletion with the token of the record removes the record and
    only it; the backend is not asked to remove anything.  From then on a
    download and a deletion for that identifier are answered 404, and an
    accepted chunk upload for it starts a new record. *)
Theorem authorised_deletion st id m token :
  st !! metadata_file id = Some m -> deleteToken m = Some token -> token <> [] ->
  let r := delete_file st id (Some token) in
  let file := metadata_file id in
  response r = Some (Deleted id) /\ delete_status (Deleted id) = 200
  /\ after r = delete file st /\ effects r = [Unlink file]
  /\ (forall rangeStr getFile fetch,
        get_file (after r) id rangeStr getFile fetch = answer (after r) [] FileNotFound)
  /\ (forall token', truthy_str token' = true ->
        delete_file (after r) id token' = answer (after r) [] DeleteNotFound)
  /\ (forall req replies entropy,
        accepted req = true -> request_id req = id ->
        head (effects (post_u (after r) req replies entropy))
        = Some (WriteFile file (request_metadata req))).
Proof.
  intros Hm Htoken Hne r file. subst file.
  assert (r = answer (delete (metadata_file id) st) [Unlink (metadata_file id)]
                (Deleted id)) as ->
    by by apply (delete_file_authorised st id m).
  simpl. repeat split.
  - intros rangeStr getFile fetch. unfold get_file. by rewrite lookup_delete_eq.
  - intros token' Ht. unfold delete_file. by rewrite Ht, lookup_delete_eq.
  - intros req replies entropy Hacc <-.
    apply post_u_creates; [done | apply lookup_delete_eq].
Qed.

(** X12.  The token handed out with the answer to the last chunk is the
    one that deletes the file: sent back in a deletion, it removes the
    record. *)
Theorem completion_token_deletes st req replies entropy ref :
  accepted req = true -> ~ already_complete st req ->
  declares_last req = true -> upload_of req replies = Some (Returned ref) ->
  entropy <> [] ->
  let r := post_u st req replies entropy in
  let token := generateDeleteToken entropy in
  (exists name total,
      response r = Some (FileUploaded (request_id req) name total (Some token)))
  /\ response (delete_file (after r) (request_id req) (Some token))
     = Some (Deleted (request_id req))
  /\ after (delete_file (after r) (request_id req) (Some token)) !! request_file req
     = None.
Proof.
  intros Hacc Hopen Hlast Hup Hne r token. subst r token.
  pose proof (post_u_open st req replies entropy Hacc Hopen) as Hr.
  simpl in Hr. rewrite Hup in Hr. destruct Hr as [-> ->].
  unfold stored_answer, written_record. rewrite Hlast. simpl.
  split; [by eexists _, _|].
  erewrite delete_file_authorised;
    [|apply lookup_insert_eq | done | by apply to_hex_not_empty].
  simpl. split; [done | apply lookup_delete_eq].
Qed.

(** X13.  The answer to a chunk stored into a record that exists reports
    the name and the total of the record, as written when it was created,
    not those of the request; the next index it reports is the index of the
    request plus one. *)
Theorem answer_reports_stored_record st req replies entropy m ref :
  accepted req = true -> st !! request_file req = Some m -> done m = false ->
  upload_of req replies = Some (Returned ref) ->
  response (post_u st req replies entropy)
  = Some (if declares_last req
          then FileUploaded (request_id req) (fileName m) (totalChunks m)
                 (Some (generateDeleteToken entropy))
          else ChunkUploaded (request_id req) (fileName m)
                 (add (parseInt (field (req_chunkIndex req))) (Num 1))
                 (totalChunks m)).
Proof.
  intros Hacc Hm Hdone Hup.
  assert (~ already_complete st req) as Hopen.
  { intros (m0 & Hm0 & Hd). congruence. }
  pose proof (post_u_open st req replies entropy Hacc Hopen) as Hr.
  simpl in Hr. rewrite Hup in Hr. destruct Hr as [-> _].
  unfold stored_answer, working_record, written_record. rewrite Hm. simpl.
  by destruct (declares_last req).
Qed.

End Tokens.

(** ** Ranges and failures of [GET /:fileId] *)

Section Ranges.

Context `{Platform}.

Implicit Types (st : store) (m : FileRecord) (rangeStr : option str).

(** A string that holds the separator splits into two pieces at least. *)
Lemma split_second sep s : sep ∈ s -> is_Some (split sep s !! 1%nat).
Proof.
  induction s as [|c s IH]; intros Hin; [by apply elem_of_nil in Hin|].
  simpl. destruct (N.eqb_spec c sep) as [->|Hc].
  - pose proof (split_nonempty sep s). by destruct (split sep s).
  - apply elem_of_cons in Hin as [->|Hin]; [done|].
    specialize (IH Hin). by destruct (split sep s).
Qed.

(** X14.  What is read of a [Range] header: no start at all exactly when
    the header is absent or empty; otherwise a start that is [NaN], the
    positive infinity or an integer that is not negative, and the infinity
    is what four hundred digits give; the reading fails exactly on a header
    that is not empty and has no [=], which is answered 500, after the
    references were resolved, when the headers of the record are
    accepted. *)
Theorem range_start_cases rangeStr :
  (range_start rangeStr = Returned None <-> truthy_str rangeStr = false)
  /\ (forall start, range_start rangeStr = Returned (Some start) ->
        start = NaN \/ start = Inf false \/ exists s, start = Num s /\ 0 <= s)
  /\ range_start (Some (u "bytes=" ++ replicate 400 57%N ++ u "-"))
     = Returned (Some (Inf false))
  /\ (range_start rangeStr = Thrown <->
      exists header, rangeStr = Some header /\ header <> [] /\ (61%N ∉ header))
  /\ (forall st id m getFile fetch,
        st !! metadata_file id = Some m -> headers_accepted (full_headers m) = true ->
        range_start rangeStr = Thrown ->
        get_file st id rangeStr getFile fetch
        = answer st (GetFile <$> fileIds m) InternalError).
Proof.
  split; [|split; [|split; [|split]]]; cycle 4.
  { intros st id m getFile fetch Hm Hh Hthrown.
    rewrite (get_file_found st id m) by done. by rewrite Hthrown. }
  - unfold range_start. destruct (truthy_str rangeStr); [|done].
    split; [|done]. by destruct (split 61%N (default [] rangeStr) !! 1%nat).
  - intros start. apply range_start_sign.
  - by vm_compute.
  - unfold range_start. split.
    + destruct rangeStr as [[|c header]|]; [done| |done].
      simpl truthy_str. cbv iota. simpl default.
      destruct (split 61%N (c :: header) !! 1%nat) as [piece|] eqn:Epiece; [done|].
      intros _. exists (c :: header). split; [done|]. split; [done|]. intros Hin.
      apply (split_second 61%N) in Hin as [piece Hpiece]. congruence.
    + intros (header & -> & Hne & Habsent).
      destruct header as [|c header]; [done|].
      simpl truthy_str. cbv iota. simpl default. by rewrite split_absent.
Qed.

Lemma ranged_parts_length urls start end_ m :
  length (ranged_parts urls start end_ m)
  = length (slice urls (startPartNumber start m) (endPartNumber end_ m)).
Proof. by rewrite <- ranged_parts_urls, length_fmap. Qed.

Lemma slice_length {A} (l : list A) a b :
  0 <= a -> 0 <= b -> (length (slice l (Num a) (Num b)) <= Z.to_nat (b - a))%nat.
Proof.
  intros Ha Hb. unfold slice, clamp_index.
  destruct (Z.ltb_spec a 0), (Z.ltb_spec b 0); try lia.
  rewrite length_take. lia.
Qed.

(** X15.  A ranged request on a record whose headers are accepted, with
    a chunk size above one and a file size up to 2^53, for a start which
    with the chunk size stays within 2^53, fetches at most two objects, and
    announces at most [chunkSize + 1] bytes. *)
Theorem ranged_request_two_parts st id m fs cs rangeStr s getFile fetch :
  st !! metadata_file id = Some m -> headers_accepted (full_headers m) = true ->
  fileSize m = Some fs -> 0 <= fs <= 2 ^ 53 ->
  chunkSize m = Some cs -> 1 < cs ->
  range_start rangeStr = Returned (Some (Num s)) -> s + cs <= 2 ^ 53 ->
  let r := get_file st id rangeStr getFile fetch in
  (length (filter (fun e => is_fetch e = true) (effects r)) <= 2)%nat
  /\ forall h body ended,
      response r = Some (Streamed h body ended) ->
      exists n, content_length h = u (pretty n) /\ n <= cs + 1.
Proof.
  intros Hm Hh Hfs Hfs0 Hcs Hcs0 Hstart Hsum r. subst r.
  pose proof (range_start_bound _ _ Hstart) as Hs.
  rewrite (get_file_ranged st id m rangeStr (Num s) getFile fetch Hm Hh Hstart).
  pose proof (range_end_safe m fs cs s Hfs Hcs ltac:(lia) Hfs0 Hs Hsum) as Hsafe.
  cbv zeta in Hsafe. destruct Hsafe as (Hc & He & Hb & Hlen & _).
  rewrite He. set (e := Z.min (s + cs) (fs - 1)) in *.
  set (parts := ranged_parts _ _ _ _).
  destruct (stream_parts_fetches fetch parts) as [Hlen' Hall].
  split.
  - unfold answer, effects. rewrite filter_fetch_resolved by done.
    etrans; [exact Hlen'|]. subst parts. rewrite ranged_parts_length.
    unfold startPartNumber, endPartNumber. rewrite Hc.
    destruct (floor_div_pos s cs) as (a & -> & Ha); [lia|lia|].
    destruct (ceil_div_pos e cs) as (b & -> & Hb'); [lia|lia|].
    assert (0 <= a) by nia. assert (0 <= b) by (subst e; nia).
    etrans; [by apply slice_length|]. subst e. nia.
  - intros h body ended Hr. exists (e - s + 1). split; [|subst e; lia].
    unfold answer, response in Hr.
    destruct (stream_parts fetch parts) as [[fetches b] [|]]; simpl in Hr.
    + injection Hr as <- _ _. exact Hlen.
    + destruct b; [done|]. injection Hr as <- _ _. exact Hlen.
Qed.

Lemma slice_one {A} (l : list A) k x :
  0 <= k -> l !! Z.to_nat k = Some x -> slice l (Num k) (Num (k + 1)) = [x].
Proof.
  intros Hk Hx. pose proof (lookup_lt_Some _ _ _ Hx) as Hlen.
  unfold slice, clamp_index.
  destruct (Z.ltb_spec k 0), (Z.ltb_spec (k + 1) 0); try lia.
  replace (Z.to_nat (Z.min k (Z.of_nat (length l)))) with (Z.to_nat k) by lia.
  replace (Z.to_nat (Z.min (k + 1) (Z.of_nat (length l))) - Z.to_nat k)%nat
    with 1%nat by lia.
  by rewrite (drop_S _ _ _ Hx).
Qed.

(** X16.  On a record whose headers are accepted and whose file size is
    at most 2^53, a range that starts on a chunk boundary, with a whole
    chunk size of bytes left after it, is served from one object, of which
    the single byte at offset 0 is asked for, while the answer announces
    [chunkSize + 1] bytes. *)
Theorem aligned_range_fetches_one_byte st id m fs cs k link rangeStr getFile fetch :
  st !! metadata_file id = Some m -> headers_accepted (full_headers m) = true ->
  fileSize m = Some fs -> fs <= 2 ^ 53 -> chunkSize m = Some cs ->
  0 < cs -> 0 <= k -> (k + 1) * cs < fs ->
  range_start rangeStr = Returned (Some (Num (k * cs))) ->
  convertFileIdsToUrls getFile (fileIds m) !! Z.to_nat k = Some link ->
  let r := get_file st id rangeStr getFile fetch in
  filter (fun e => is_fetch e = true) (effects r) = [Fetch link (Some (u "bytes=0-0"))]
  /\ forall h body ended,
      response r = Some (Streamed h body ended) ->
      status h = 206 /\ content_length h = u (pretty (cs + 1)).
Proof.
  intros Hm Hh Hfs Hfs0 Hcs Hcs0 Hk Hleft Hstart Hlink r. subst r.
  rewrite (get_file_ranged st id m rangeStr (Num (k * cs)) getFile fetch Hm Hh Hstart).
  pose proof (range_end_safe m fs cs (k * cs) Hfs Hcs Hcs0 ltac:(lia) ltac:(nia)
                ltac:(lia)) as Hsafe.
  cbv zeta in Hsafe. destruct Hsafe as (Hc & He & Hb & Hlen & _).
  replace (Z.min (k * cs + cs) (fs - 1)) with ((k + 1) * cs) in * by lia.
  rewrite He.
  assert (ranged_parts (convertFileIdsToUrls getFile (fileIds m))
            (Num (k * cs)) (Num ((k + 1) * cs)) m
          = [{| url := link; part_start := Some (Num 0); part_end := Some (Num 0) |}])
    as ->.
  { unfold ranged_parts, startPartNumber, endPartNumber. rewrite Hc.
    rewrite floor_div_safe, ceil_div_safe by lia. unfold rem.
    destruct (Z.eqb_spec cs 0) as [|Hne]; [lia|].
    rewrite Z.div_mul by done.
    replace (- (- ((k + 1) * cs) / cs)) with (k + 1)
      by (rewrite <- Z.mul_opp_l, Z.div_mul by done; lia).
    rewrite (slice_one _ k link) by done.
    by rewrite !Z.rem_mul by done. }
  replace ((k + 1) * cs - k * cs + 1) with (cs + 1) in Hlen by lia.
  split.
  - unfold answer, effects. rewrite filter_fetch_resolved.
    + simpl. by destruct (fetch _ _) as [|data [|]].
    + apply stream_parts_fetches.
  - intros h body ended Hr. unfold answer, response in Hr.
    destruct (stream_parts fetch _) as [[fetches b] [|]]; simpl in Hr.
    + injection Hr as <- _ _. split; [done|]. exact Hlen.
    + destruct b; [done|]. injection Hr as <- _ _. split; [done|]. exact Hlen.
Qed.

(** The loop stops at the first part that does not come to its end. *)
Lemma stream_whole_stops fetch oks link rest :
  Forall (intact fetch) oks -> ~ intact fetch link ->
  stream_parts fetch (whole <$> (oks ++ link :: rest))
    = ((fun l => Fetch l None) <$> (oks ++ [link]),
       (oks ≫= object_of fetch) ++ object_of fetch link, false).
Proof.
  intros Hoks Hlink. induction Hoks as [|l oks [data Hd] _ IH].
  - simpl. unfold part_range, object_of. simpl.
    destruct (fetch link None) as [|data [|]] eqn:E; try done.
    destruct Hlink. by exists data.
  - rewrite <- !app_comm_cons, fmap_cons. simpl. unfold part_range at 1. simpl.
    rewrite Hd. rewrite IH. simpl. unfold object_of at 3. by rewrite Hd, app_assoc.
Qed.

(** X17.  When an object of a download without range, of a record whose
    headers are accepted, cannot be fetched to its end, the objects after
    it are not asked for; the answer is a 500 only if no byte was sent
    before, and otherwise the answer already begun, with the status and the
    length of the whole file, cut short. *)
Theorem failed_fetch_ends_download st id m getFile fetch oks link rest :
  st !! metadata_file id = Some m -> headers_accepted (full_headers m) = true ->
  convertFileIdsToUrls getFile (fileIds m) = oks ++ link :: rest ->
  Forall (intact fetch) oks -> ~ intact fetch link ->
  let r := get_file st id None getFile fetch in
  let sent := (oks ≫= object_of fetch) ++ object_of fetch link in
  filter (fun e => is_fetch e = true) (effects r)
    = (fun l => Fetch l None) <$> (oks ++ [link])
  /\ response r
     = Some (match sent with
             | [] => InternalError
             | _ => Streamed (full_headers m) sent false
             end).
Proof.
  intros Hm Hh Hurls Hoks Hlink r sent. subst r sent.
  rewrite (get_file_found st id m) by done. simpl. rewrite Hurls.
  rewrite (stream_whole_stops fetch oks link rest Hoks Hlink).
  unfold answer, effects, response. split; [|done].
  apply filter_fetch_resolved, Forall_fmap, Forall_true. done.
Qed.

(** X18.  A download leaves the metadata as it is.  When a header of the
    record is refused it asks nothing of the backend and is answered 500;
    otherwise, with a range or without, it asks the backend to resolve every
    stored reference, in order, before it fetches anything, and makes no
    other call than these and fetches. *)
Theorem download_only_reads st id m rangeStr getFile fetch :
  st !! metadata_file id = Some m ->
  let r := get_file st id rangeStr getFile fetch in
  after r = st
  /\ (headers_accepted (full_headers m) = false ->
      effects r = [] /\ response r = Some InternalError)
  /\ (headers_accepted (full_headers m) = true ->
      exists fetches,
        effects r = (GetFile <$> fileIds m) ++ fetches
        /\ Forall (fun e => is_fetch e = true) fetches).
Proof.
  intros Hm r. subst r. split; [apply get_file_after|]. split; intros Hh.
  - by rewrite (get_file_refused st id m).
  - rewrite (get_file_found st id m) by done.
    destruct (range_start rangeStr) as [start|].
    + cbv zeta. set (p := partsToDownload _ _ _ _ _ _).
      pose proof (stream_parts_fetches fetch p.1) as [_ Hf].
      by exists (stream_parts fetch p.1).1.1.
    + exists []. by rewrite app_nil_r.
Qed.

End Ranges.

(** ** Names and numeric fields *)

Section Names.

Context `{Platform}.

Lemma u_cons a s : u (String a s) = N_of_ascii a :: u s.
Proof. done. Qed.

Lemma u_app s t : u (s +:+ t) = u s ++ u t.
Proof.
  induction s as [|a s IH]; [done|].
  change (String a s +:+ t) with (String a (s +:+ t)). by rewrite !u_cons, IH.
Qed.

Lemma u_inj s t : u s = u t -> s = t.
Proof.
  revert t. induction s as [|a s IH]; intros [|b t]; try done.
  rewrite !u_cons. intros [= Hab Hst]. f_equal; [|by apply IH].
  by rewrite <- (ascii_N_embedding a), <- (ascii_N_embedding b), Hab.
Qed.

Lemma squeeze_fixed s :
  single_hyphens s = true -> squeeze is_hyphen hyphen s = s.
Proof.
  unfold squeeze. induction s as [|a s IH]; [done|]. intros Hs.
  assert (single_hyphens s = true) as Hs'.
  { destruct s; [done|]. simpl in Hs. by apply andb_prop in Hs as [_ ?]. }
  simpl. destruct (is_hyphen a) eqn:Ea.
  - apply is_hyphen_spec in Ea as ->. f_equal.
    destruct s as [|b s]; [done|]. specialize (IH Hs').
    simpl in Hs, IH |- *. destruct (is_hyphen b); [done|]. done.
  - f_equal. by apply IH.
Qed.

Lemma kebab_not_space c : is_kebab c = true -> is_space c = false.
Proof.
  intros Hc%is_kebab_spec. destruct (is_space c) eqn:E; [|done].
  apply is_space_spec in E. lia.
Qed.

Lemma kebab_not_combining c : is_kebab c = true -> is_combining c = false.
Proof.
  intros Hc%is_kebab_spec. unfold is_combining.
  apply andb_false_iff. left. apply N.leb_gt. lia.
Qed.

Lemma kebab_is_kept c : is_kebab c = true -> negb (is_kept c) = false.
Proof.
  intros Hc%is_kebab_spec. apply negb_false_iff, is_kept_spec.
  rewrite is_alnum_spec. lia.
Qed.

Lemma kebab_lower c : is_kebab c = true -> lower c = c.
Proof.
  intros Hc%is_kebab_spec. unfold lower. destruct (is_upper c) eqn:E; [|done].
  apply is_upper_spec in E. lia.
Qed.

(** A base name that is already in its final form is left as it is. *)
Lemma kebab_fixed k :
  plain_on_kebab -> Forall (fun c => is_kebab c = true) k ->
  single_hyphens k = true -> kebab (cleaned k) = k.
Proof.
  intros Hplain Hk Hs. unfold cleaned. rewrite (Hplain k Hk).
  rewrite (delete_all_none is_combining k)
    by (eapply Forall_impl; [exact Hk|]; apply kebab_not_combining).
  rewrite delete_all_none
    by (eapply Forall_impl; [exact Hk|]; apply kebab_is_kept).
  rewrite trim_fixed.
  - unfold kebab, toLowerCase.
    replace (lower <$> k) with k.
    + unfold squeeze at 2. rewrite squeeze_outside; [by apply squeeze_fixed|].
      eapply Forall_impl; [exact Hk|]. apply kebab_not_space.
    + clear Hs. induction Hk as [|c k Hc _ IH]; [done|].
      by rewrite fmap_cons, kebab_lower, <- IH.
  - intros c Hc. destruct Hk; [done|]. injection Hc as <-. by apply kebab_not_space.
  - intros c Hc. apply kebab_not_space.
    rewrite Forall_forall in Hk. apply Hk.
    by apply last_Some_elem_of.
Qed.

(** X20.  Formatting a name that was already formatted changes nothing,
    on a platform whose decomposition leaves letters, digits and hyphens
    alone. *)
Theorem formatFileName_idempotent filename i j :
  plain_on_kebab ->
  formatFileName (formatFileName filename false i) false j
    = formatFileName filename false i.
Proof.
  intros Hplain.
  assert (forall base ext, dot ∉ ext ->
            formatFileName (kebab (cleaned base) ++ dot :: ext) false j
            = kebab (cleaned base) ++ dot :: ext) as Hfix.
  { intros base ext Hext. rewrite formatFileName_split by done. simpl.
    rewrite kebab_fixed; [done..| |apply kebab_single].
    apply kebab_alphabet, cleaned_kept. }
  destruct (decide (dot ∈ filename)) as [Hdot|Hdot].
  - destruct (last_dot filename Hdot) as (base & ext & -> & Hext).
    rewrite formatFileName_split by done. simpl. by apply Hfix.
  - assert (formatFileName filename false i = kebab (cleaned []) ++ dot :: filename)
      as ->.
    { unfold formatFileName. rewrite split_absent by done.
      change (pop [filename]) with (pop ([] ++ [filename])). rewrite pop_snoc.
      by destruct filename. }
    by apply Hfix.
Qed.

Lemma pretty_N_char_code r :
  (r < 10)%N -> N_of_ascii (pretty_N_char r) = (48 + r)%N.
Proof.
  intros Hr.
  assert (r = 0 \/ r = 1 \/ r = 2 \/ r = 3 \/ r = 4 \/ r = 5 \/ r = 6 \/ r = 7
          \/ r = 8 \/ r = 9)%N as Hc by lia.
  repeat (destruct Hc as [->|Hc]; [reflexivity|]). by subst.
Qed.

Lemma digits_value_snoc d c : digits_value (d ++ [c]) = 10 * digits_value d + digit_value c.
Proof. unfold digits_value. by rewrite fold_left_app. Qed.

(** The digits that [pretty] writes in front of [s]. *)
Lemma pretty_N_go_digits x : forall s,
  exists d, u (pretty_N_go x s) = d ++ u s
    /\ Forall (fun c => is_digit c = true) d
    /\ digits_value d = Z.of_N x
    /\ ((0 < x)%N -> d <> []).
Proof.
  induction (N.lt_wf_0 x) as [x _ IH]. intros s.
  destruct (decide (x = 0)%N) as [->|Hx].
  { exists []. rewrite pretty_N_go_0. repeat split; [done|lia]. }
  rewrite pretty_N_go_step by lia.
  destruct (IH (x `div` 10)%N) with (s := String (pretty_N_char (x `mod` 10)) s)
    as (d & Hd & Hdigits & Hvalue & _).
  { apply N.div_lt; lia. }
  pose proof (N.mod_lt x 10 ltac:(lia)) as Hmod.
  exists (d ++ [(48 + x `mod` 10)%N]). split; [|split; [|split]].
  - rewrite Hd, u_cons, pretty_N_char_code by lia. by rewrite <- app_assoc.
  - apply Forall_app. split; [done|]. constructor; [|done].
    apply is_digit_spec. clear -Hmod. revert Hmod. generalize (x `mod` 10)%N. intros r Hr. lia.
  - rewrite digits_value_snoc, Hvalue. unfold digit_value.
    rewrite N2Z.inj_div, N2Z.inj_add, N2Z.inj_mod.
    change (Z.of_N 48) with 48. change (Z.of_N 10) with 10.
    pose proof (Z.div_mod (Z.of_N x) 10 ltac:(lia)). lia.
  - intros _. by destruct d.
Qed.

Lemma parseInt_digits d :
  Forall (fun c => is_digit c = true) d -> d <> [] ->
  parseInt d = to_double (digits_value d).
Proof.
  intros Hd Hne. unfold parseInt, trim_start.
  assert (take_digits d = d) as Htake.
  { unfold take_digits. rewrite <- (app_nil_r d) at 1. by rewrite take_while_app, app_nil_r. }
  destruct Hd as [|c d Hc Hd]; [done|].
  pose proof Hc as Hc'. apply is_digit_spec in Hc'.
  simpl. replace (is_space c) with false
    by (symmetry; destruct (is_space c) eqn:E; [apply is_space_spec in E; lia | done]).
  destruct (N.eqb_spec c 45); [lia|]. destruct (N.eqb_spec c 43); [lia|].
  unfold parse_unsigned. by rewrite Htake.
Qed.

Lemma pretty_N_digits (x : N) :
  exists d, u (pretty x) = d /\ Forall (fun c => is_digit c = true) d
    /\ digits_value d = Z.of_N x /\ d <> [].
Proof.
  unfold pretty, pretty_N. destruct (decide (x = 0)%N) as [->|Hx].
  - exists [48%N]. repeat split; [by repeat constructor | done].
  - destruct (pretty_N_go_digits x "") as (d & Hd & Hdigits & Hvalue & Hne).
    exists d. rewrite Hd. change (u "") with (@nil N). rewrite app_nil_r.
    repeat split; [done..|]. apply Hne. lia.
Qed.

Lemma to_double_opp z : to_double (- z) = neg (to_double z).
Proof.
  unfold to_double. rewrite Z.abs_opp. cbv zeta.
  destruct (Z.leb_spec (Z.abs z) (2 ^ 53)) as [|Hz]; [done|].
  destruct (2 ^ 1024 <=? _); simpl.
  - f_equal. destruct (Z.ltb_spec z 0), (Z.ltb_spec (- z) 0); try done; lia.
  - f_equal. rewrite Z.sgn_opp. lia.
Qed.

(** [parseInt] reads an integer back from its decimal form, as the double
    nearest to it. *)
Lemma parseInt_decimal (z : Z) : parseInt (u (pretty z)) = to_double z.
Proof.
  destruct z as [|p|p].
  - done.
  - change (pretty (Z.pos p)) with (pretty (N.pos p)).
    destruct (pretty_N_digits (Npos p)) as (d & -> & Hd & Hv & Hne).
    rewrite parseInt_digits by done. by rewrite Hv.
  - change (pretty (Z.neg p)) with ("-" +:+ pretty (N.pos p)).
    rewrite u_app. destruct (pretty_N_digits (Npos p)) as (d & -> & Hd & Hv & Hne).
    change (u "-") with [45%N]. simpl.
    pose proof (parseInt_digits d Hd Hne) as Hp. unfold parseInt, trim_start in Hp.
    destruct Hd as [|c d Hc Hd]; [done|].
    pose proof Hc as Hc'. apply is_digit_spec in Hc'.
    simpl in Hp. replace (is_space c) with false in Hp
      by (symmetry; destruct (is_space c) eqn:E; [apply is_space_spec in E; lia | done]).
    destruct (N.eqb_spec c 45); [lia|]. destruct (N.eqb_spec c 43); [lia|].
    unfold parseInt, trim_start. simpl. rewrite Hp, Hv.
    change (Z.neg p) with (- Z.pos p). by rewrite to_double_opp.
Qed.

Lemma parseInt_double (z : Z) : is_double z = true -> parseInt (u (pretty z)) = Num z.
Proof.
  intros Hz. rewrite parseInt_decimal. by apply bool_decide_eq_true in Hz.
Qed.

Lemma decimal_truthy (z : Z) : truthy_str (Some (u (pretty z))) = true.
Proof.
  assert (parseInt (u (pretty z)) <> NaN) as Hz.
  { rewrite parseInt_decimal. unfold to_double. cbv zeta.
    destruct (_ <=? _); [done|]. by destruct (_ <=? _). }
  by destruct (u (pretty z)).
Qed.

Lemma to_double_idem_pos z w : 0 <= z -> to_double z = Num w -> to_double w = Num w.
Proof.
  intros Hz. unfold to_double at 1. cbv zeta.
  rewrite (Z.abs_eq z) by done.
  destruct (Z.leb_spec z (2 ^ 53)) as [Hs|Hs].
  { intros [= <-]. apply to_double_safe. lia. }
  set (e := Z.log2 z - 52).
  set (m := nearest_even (z / 2 ^ e) (z mod 2 ^ e) (2 ^ e)).
  destruct (Z.leb_spec (2 ^ 1024) (m * 2 ^ e)) as [|Hfin]; [done|].
  rewrite Z.sgn_pos by lia. rewrite Z.mul_1_l. intros [= <-].
  pose proof (Z.log2_spec z ltac:(lia)) as [Hlo Hhi].
  assert (53 <= Z.log2 z) as HL.
  { apply Z.log2_le_pow2; lia. }
  assert (1 <= e) as He by lia.
  assert (0 < 2 ^ e) as Hpe by (apply Z.pow_pos_nonneg; lia).
  assert (2 ^ Z.log2 z = 2 ^ 52 * 2 ^ e) as Hsplit.
  { rewrite <- Z.pow_add_r by lia. f_equal. lia. }
  rewrite Z.pow_succ_r in Hhi by lia.
  assert (2 ^ 52 <= z / 2 ^ e < 2 ^ 53) as Hq.
  { split.
    - apply Z.div_le_lower_bound; lia.
    - apply Z.div_lt_upper_bound; lia. }
  pose proof (nearest_even_bounds (z / 2 ^ e) (z mod 2 ^ e) (2 ^ e) ltac:(lia)) as Hm.
  fold m in Hm.
  assert (0 < m) as Hm0 by lia.
  unfold to_double. cbv zeta. rewrite (Z.abs_eq (m * 2 ^ e)) by nia.
  destruct (Z.leb_spec (m * 2 ^ e) (2 ^ 53)) as [|Hbig]; [done|].
  assert (Z.sgn (m * 2 ^ e) = 1) as -> by (apply Z.sgn_pos; nia).
  rewrite Z.mul_1_l.
  destruct (decide (m = 2 ^ 53)) as [Hm53|Hm53].
  - assert (m * 2 ^ e = 2 ^ (53 + e)) as Hpow.
    { rewrite Hm53, <- Z.pow_add_r by lia. done. }
    rewrite Hpow in Hfin |- *. rewrite Z.log2_pow2 by lia.
    replace (53 + e - 52) with (e + 1) by lia.
    assert (2 ^ (53 + e) = 2 ^ 52 * 2 ^ (e + 1)) as Hsp2.
    { rewrite <- Z.pow_add_r by lia. f_equal. lia. }
    assert (0 < 2 ^ (e + 1)) as Hpe' by (apply Z.pow_pos_nonneg; lia).
    assert (2 ^ (53 + e) / 2 ^ (e + 1) = 2 ^ 52) as ->
      by (rewrite Hsp2; apply Z.div_mul; lia).
    assert (2 ^ (53 + e) mod 2 ^ (e + 1) = 0) as ->
      by (rewrite Hsp2; apply Z.mod_mul; lia).
    unfold nearest_even.
    destruct (Z.ltb_spec (2 * 0) (2 ^ (e + 1))) as [_|Hc]; [|lia].
    rewrite <- Hsp2.
    destruct (Z.leb_spec (2 ^ 1024) (2 ^ (53 + e))); [lia|done].
  - assert (Z.log2 (m * 2 ^ e) = 52 + e) as ->.
    { apply Z.log2_unique; [lia|]. rewrite Z.pow_succ_r, Z.pow_add_r by lia. nia. }
    replace (52 + e - 52) with e by lia.
    rewrite Z.div_mul, Z.mod_mul by lia.
    unfold nearest_even at 1 2.
    destruct (Z.ltb_spec (2 * 0) (2 ^ e)) as [_|Hc]; [|lia].
    destruct (Z.leb_spec (2 ^ 1024) (m * 2 ^ e)); [lia|done].
Qed.

Lemma to_double_idem z w : to_double z = Num w -> to_double w = Num w.
Proof.
  destruct (Z.le_gt_cases 0 z) as [Hz|Hz]; [by apply to_double_idem_pos|].
  intros Hw. replace z with (- - z) in Hw by lia. rewrite to_double_opp in Hw.
  destruct (to_double (- z)) as [| |w'] eqn:Hw'; try done.
  injection Hw as <-. apply to_double_idem_pos in Hw'; [|lia].
  by rewrite to_double_opp, Hw'.
Qed.

(** The digits that are printed for a double read back as it. *)
Lemma shortest_from_sound a n k fuel :
  to_double a = Num a -> to_double (shortest_from a n k fuel) = Num a.
Proof.
  intros Ha. revert k. induction fuel as [|fuel IH]; intros k; simpl; [done|].
  repeat case_bool_decide; simpl; repeat case_match; auto.
Qed.

Lemma shortest_sound a : to_double a = Num a -> to_double (shortest a) = Num a.
Proof. apply shortest_from_sound. Qed.

Lemma shortest_from_nonneg a n k fuel : 0 <= a -> 0 <= shortest_from a n k fuel.
Proof.
  intros Ha. revert k. induction fuel as [|fuel IH]; intros k; simpl; [done|].
  assert (0 <= 10 ^ (n - k)) as Hp by (apply Z.pow_nonneg; lia).
  assert (0 <= a / 10 ^ (n - k)) as Hq by (by apply Z_div_nonneg_nonneg).
  repeat case_match; try apply IH; nia.
Qed.

Lemma shortest_nonneg a : 0 <= a -> 0 <= shortest a.
Proof. apply shortest_from_nonneg. Qed.

Lemma pretty_nonneg_digits (z : Z) :
  0 <= z -> Forall (fun c => is_digit c = true) (u (pretty z)) /\ u (pretty z) <> [].
Proof.
  intros Hz. destruct z as [|p|p]; [|..|lia].
  - split; [by repeat constructor | done].
  - change (pretty (Z.pos p)) with (pretty (N.pos p)).
    by destruct (pretty_N_digits (Npos p)) as (d & -> & Hd & _ & Hne).
Qed.

Lemma pretty_negative (z : Z) : z < 0 -> u (pretty z) = 45%N :: u (pretty (- z)).
Proof.
  intros Hz. destruct z as [|p|p]; [lia..|].
  change (pretty (Z.neg p)) with ("-" +:+ pretty (N.pos p)). by rewrite u_app.
Qed.

Lemma pretty_inj (v w : Z) : u (pretty v) = u (pretty w) -> v = w.
Proof. intros Heq. by apply u_inj, (inj pretty) in Heq. Qed.

(** No decimal form holds the letter of the exponent. *)
Lemma pretty_no_exponent (z : Z) : 101%N ∉ u (pretty z).
Proof.
  assert (forall v : Z, 0 <= v -> 101%N ∉ u (pretty v)) as Hpos.
  { intros v Hv Hin. destruct (pretty_nonneg_digits v Hv) as [Hd _].
    rewrite Forall_forall in Hd. by apply Hd in Hin. }
  destruct (Z.le_gt_cases 0 z) as [Hz|Hz]; [by apply Hpos|].
  rewrite pretty_negative by done. intros [|Hin]%elem_of_cons; [done|].
  by apply (Hpos (- z)); [lia|].
Qed.

(** A string is cut at the first occurrence of a code unit in one way. *)
Lemma app_cut (c : N) (a1 a2 b1 b2 : str) :
  c ∉ a1 -> c ∉ a2 -> a1 ++ c :: b1 = a2 ++ c :: b2 -> a1 = a2 /\ b1 = b2.
Proof.
  revert a2. induction a1 as [|x a1 IH]; intros [|y a2] H1 H2 Heq; simpl in *.
  - by injection Heq as ->.
  - injection Heq as <- _. by apply not_elem_of_cons in H2 as [? _].
  - injection Heq as -> _. by apply not_elem_of_cons in H1 as [? _].
  - injection Heq as -> Heq.
    apply not_elem_of_cons in H1 as [_ H1]. apply not_elem_of_cons in H2 as [_ H2].
    by destruct (IH a2 H1 H2 Heq) as [-> ->].
Qed.

Lemma drop_while_zeros (s : str) :
  exists k, s = replicate k 48%N ++ drop_while (fun c => c =? 48)%N s.
Proof.
  induction s as [|c s [k IH]]; [by exists 0%nat|]. simpl.
  destruct (N.eqb_spec c 48) as [->|]; [|by exists 0%nat].
  exists (S k). simpl. by rewrite <- IH.
Qed.

(** The digits are those that are kept and the zeros after them. *)
Lemma strip_zeros_restore (ds : str) :
  ds = strip_zeros ds ++ replicate (length ds - length (strip_zeros ds)) 48%N.
Proof.
  unfold strip_zeros. destruct (drop_while_zeros (reverse ds)) as [k Hk].
  set (kept := drop_while _ (reverse ds)) in *.
  assert (ds = reverse kept ++ replicate k 48%N) as Hds.
  { apply (inj reverse). by rewrite reverse_app, reverse_involutive, reverse_replicate. }
  rewrite Hds at 1. f_equal. f_equal. rewrite Hds at 1.
  rewrite length_app, length_replicate. lia.
Qed.

Lemma strip_zeros_elem c ds : c ∈ strip_zeros ds -> c ∈ ds.
Proof.
  intros Hc. rewrite (strip_zeros_restore ds). apply elem_of_app. by left.
Qed.

(** The two layouts of [print_digits]. *)
Lemma print_digits_cases v :
  print_digits v = u (pretty v)
  \/ exists d rest,
      strip_zeros (u (pretty v)) = d :: rest
      /\ print_digits v
         = d :: match rest with [] => [] | _ => 46%N :: rest end
             ++ 101%N :: 43%N :: u (pretty (Z.of_nat (length (u (pretty v))) - 1)).
Proof.
  unfold print_digits. cbv zeta. destruct (_ <=? _)%nat; [by left|].
  destruct (strip_zeros (u (pretty v))) as [|d rest]; [by left|].
  right. by exists d, rest.
Qed.

Lemma print_digits_inj v w : print_digits v = print_digits w -> v = w.
Proof.
  assert (forall (x : Z) d rest,
            strip_zeros (u (pretty x)) = d :: rest ->
            101%N ∉ match rest with [] => [] | _ => 46%N :: rest end) as Hfrac.
  { intros x d rest Hs Hin.
    assert (101%N ∈ rest) as Hin'.
    { destruct rest; [by apply elem_of_nil in Hin|].
      by apply elem_of_cons in Hin as [|Hin]. }
    apply (pretty_no_exponent x), strip_zeros_elem. rewrite Hs. by right. }
  assert (forall (x : Z) d M X, u (pretty x) = d :: M ++ 101%N :: X -> False) as Hmixed.
  { intros x d M X Hx. apply (pretty_no_exponent x). rewrite Hx.
    right. apply elem_of_app. right. by left. }
  destruct (print_digits_cases v) as [Hv | (d1 & r1 & Hs1 & Hv)],
    (print_digits_cases w) as [Hw | (d2 & r2 & Hs2 & Hw)]; rewrite Hv, Hw; intros Heq.
  - by apply pretty_inj.
  - by apply Hmixed in Heq.
  - symmetry in Heq. by apply Hmixed in Heq.
  - injection Heq as -> Heq.
    apply app_cut in Heq as [HM HX]; [|by eapply Hfrac..].
    injection HX as HX. apply pretty_inj in HX.
    assert (r1 = r2) as -> by (destruct r1, r2; congruence).
    apply pretty_inj.
    rewrite (strip_zeros_restore (u (pretty v))), (strip_zeros_restore (u (pretty w))).
    rewrite Hs1, Hs2. do 2 f_equal. lia.
Qed.

(** A number that is not negative is printed with a digit in front, and a
    negative one as the hyphen and its opposite. *)
Lemma to_string_negative z : z < 0 -> to_string (Num z) = 45%N :: to_string (Num (- z)).
Proof.
  intros Hz. unfold to_string. rewrite Z.abs_opp.
  destruct (Z.leb_spec (Z.abs z) (2 ^ 53)); [by apply pretty_negative|].
  destruct (Z.ltb_spec z 0), (Z.ltb_spec (- z) 0); try lia. done.
Qed.

Lemma to_string_nonneg z :
  0 <= z -> exists c rest, to_string (Num z) = c :: rest /\ is_digit c = true.
Proof.
  intros Hz.
  assert (forall v : Z, 0 <= v ->
            exists c rest, u (pretty v) = c :: rest /\ is_digit c = true) as Hplain.
  { intros v Hv. destruct (pretty_nonneg_digits v Hv) as [Hd Hne].
    destruct Hd as [|c rest Hc _]; [done|]. by exists c, rest. }
  unfold to_string. rewrite Z.abs_eq by done.
  destruct (Z.leb_spec z (2 ^ 53)); [by apply Hplain|].
  destruct (Z.ltb_spec z 0); [lia|]. simpl.
  pose proof (shortest_nonneg z Hz) as Hs.
  destruct (print_digits_cases (shortest z)) as [-> | (d & rest & Hstrip & ->)];
    [by apply Hplain|].
  eexists _, _. split; [done|].
  destruct (pretty_nonneg_digits (shortest z) Hs) as [Hd _].
  rewrite Forall_forall in Hd. apply Hd, strip_zeros_elem. rewrite Hstrip. by left.
Qed.

Lemma to_string_nonneg_inj a b :
  0 <= a -> 0 <= b -> to_double a = Num a -> to_double b = Num b ->
  to_string (Num a) = to_string (Num b) -> a = b.
Proof.
  assert (forall x y : Z, 0 <= y -> to_double x = Num x -> to_double y = Num y ->
            u (pretty x) = print_digits (shortest y) -> x = y) as Hmixed.
  { intros x y Hy Hx Hdy Heq.
    destruct (print_digits_cases (shortest y)) as [Hp | (d & rest & _ & Hp)];
      rewrite Hp in Heq.
    - apply pretty_inj in Heq. pose proof (shortest_sound y Hdy) as Hs.
      rewrite <- Heq in Hs. congruence.
    - destruct (pretty_no_exponent x). rewrite Heq.
      right. apply elem_of_app. right. by left. }
  intros Ha Hb Hda Hdb. unfold to_string. rewrite !Z.abs_eq by done.
  destruct (Z.ltb_spec a 0), (Z.ltb_spec b 0); try lia. simpl.
  destruct (Z.leb_spec a (2 ^ 53)), (Z.leb_spec b (2 ^ 53)); intros Heq.
  - by apply pretty_inj.
  - by apply Hmixed.
  - symmetry. by apply Hmixed.
  - apply print_digits_inj in Heq.
    pose proof (shortest_sound a Hda) as Hsa. pose proof (shortest_sound b Hdb) as Hsb.
    rewrite Heq in Hsa. congruence.
Qed.

Lemma is_double_opp z : to_double z = Num z -> to_double (- z) = Num (- z).
Proof. intros Hz. by rewrite to_double_opp, Hz. Qed.

(** Two doubles are printed differently. *)
Lemma to_string_num_inj i j :
  to_double i = Num i -> to_double j = Num j ->
  to_string (Num i) = to_string (Num j) -> i = j.
Proof.
  intros Hi Hj Heq.
  destruct (Z.le_gt_cases 0 i) as [Hi0|Hi0], (Z.le_gt_cases 0 j) as [Hj0|Hj0].
  - by apply to_string_nonneg_inj.
  - rewrite (to_string_negative j) in Heq by done.
    destruct (to_string_nonneg i Hi0) as (c & rest & Hc & Hd).
    rewrite Hc in Heq. by injection Heq as -> _.
  - rewrite (to_string_negative i) in Heq by done.
    destruct (to_string_nonneg j Hj0) as (c & rest & Hc & Hd).
    rewrite Hc in Heq. by injection Heq as <- _.
  - rewrite (to_string_negative i), (to_string_negative j) in Heq by done.
    injection Heq as Heq.
    apply to_string_nonneg_inj in Heq; [lia | lia | lia | by apply is_double_opp..].
Qed.

(** Two numbers of the runtime are printed differently. *)
Lemma to_string_inj a b :
  is_value a = true -> is_value b = true -> to_string a = to_string b -> a = b.
Proof.
  assert (forall z, to_string (Num z) <> u "NaN"
                    /\ to_string (Num z) <> u "Infinity"
                    /\ to_string (Num z) <> u "-Infinity") as Hnum.
  { intros z. destruct (Z.le_gt_cases 0 z) as [Hz|Hz].
    - destruct (to_string_nonneg z Hz) as (c & rest & -> & Hc).
      repeat split; intros [= -> _]; done.
    - rewrite to_string_negative by done.
      destruct (to_string_nonneg (- z) ltac:(lia)) as (c & rest & -> & Hc).
      repeat split; try done. intros [= -> _]. done. }
  intros Ha Hb Heq.
  destruct a as [|[|]|i], b as [|[|]|j]; try done;
    try (by destruct (Hnum j) as (H1 & H2 & H3); symmetry in Heq);
    try (by destruct (Hnum i) as (H1 & H2 & H3)).
  f_equal. apply to_string_num_inj; [by apply bool_decide_eq_true in Ha
                                    | by apply bool_decide_eq_true in Hb | done].
Qed.

Lemma to_double_value z : is_value (to_double z) = true.
Proof.
  destruct (to_double z) as [| |w] eqn:Hw; [done..|].
  apply bool_decide_eq_true. by apply (to_double_idem z).
Qed.

(** What [parseInt] returns is a number of the runtime. *)
Lemma parseInt_value s : is_value (parseInt s) = true.
Proof.
  assert (forall t, is_value (parse_unsigned t) = true) as Hu.
  { intros t. unfold parse_unsigned. destruct (take_digits t); [done|].
    apply to_double_value. }
  assert (forall a, is_value a = true -> is_value (neg a) = true) as Hneg.
  { intros [| |z]; [done..|]. simpl. intros Hz%bool_decide_eq_true.
    apply bool_decide_eq_true. by apply is_double_opp. }
  unfold parseInt. destruct (trim_start s) as [|c s']; [done|].
  destruct (c =? 45)%N; [apply Hneg, Hu|]. destruct (c =? 43)%N; apply Hu.
Qed.

(** X19.  The names under which the chunks of one file go to the backend
    differ when their indices differ: for every two numbers of the
    runtime, printed as [String] prints them, and so for the indices read
    from the fields of every two requests.  (An integer that is not a
    double is no number of the runtime; 2^60 is printed
    [1152921504606847000], which is not one.) *)
Theorem chunk_names_differ filename :
  (forall a b,
      is_value a = true -> is_value b = true -> a <> b ->
      formatFileName filename true a <> formatFileName filename true b)
  /\ (forall s t,
        parseInt s <> parseInt t ->
        formatFileName filename true (parseInt s)
        <> formatFileName filename true (parseInt t)).
Proof.
  assert (forall a b, is_value a = true -> is_value b = true -> a <> b ->
            formatFileName filename true a <> formatFileName filename true b) as Hgen.
  { intros a b Ha Hb Hab Heq. apply Hab. unfold formatFileName in Heq.
    destruct (pop (split dot filename)) as [splitted popped].
    apply app_inv_head in Heq. injection Heq as Heq.
    apply app_inv_tail in Heq. by apply to_string_inj. }
  split; [exact Hgen|]. intros s t. apply Hgen; apply parseInt_value.
Qed.

(** X21.  A request whose numeric fields are written in decimal, each the
    decimal form of a double, is read at their values: it passes the guards
    exactly when its chunk size is between 1 MiB and 50 MiB, the record it
    would create holds the sizes it declares, and its chunk counts as the
    last one exactly when [chunkIndex] is the double nearest to
    [totalChunks - 1], which is [totalChunks - 1] itself when that is
    within 2^53. *)
Theorem decimal_fields_are_read req fs cs n i :
  is_Some (req_chunk req) ->
  truthy_str (req_fileId req) = true -> truthy_str (req_fileName req) = true ->
  req_fileSize req = Some (u (pretty fs)) -> is_double fs = true ->
  req_chunkSize req = Some (u (pretty cs)) -> is_double cs = true ->
  req_totalChunks req = Some (u (pretty n)) -> is_double n = true ->
  req_chunkIndex req = Some (u (pretty i)) -> is_double i = true ->
  (accepted req = true <-> 1024 * 1024 <= cs <= 50 * 1024 * 1024)
  /\ fileSize (request_metadata req) = Some fs
  /\ chunkSize (request_metadata req) = Some cs
  /\ totalChunks (request_metadata req) = Some n
  /\ (declares_last req = true <-> Num i = to_double (n - 1))
  /\ (Z.abs (n - 1) <= 2 ^ 53 -> declares_last req = true <-> i = n - 1).
Proof.
  intros Hchunk Hid Hname Hfs Hdfs Hcs Hdcs Hn Hdn Hi Hdi.
  assert (declares_last req = true <-> Num i = to_double (n - 1)) as Hlast.
  { unfold declares_last. rewrite Hn, Hi. unfold field. simpl default.
    rewrite !parseInt_double by done.
    change (sub (Num n) (Num 1)) with (to_double (n + -1)).
    replace (n + -1) with (n - 1) by lia.
    destruct (to_double (n - 1)) as [|b|w]; simpl; [done..|].
    rewrite Z.eqb_eq. split; [by intros ->|by intros [= ->]]. }
  split; [|split; [|split; [|split; [|split; [exact Hlast|]]]]].
  - unfold accepted, fields_present.
    rewrite Hfs, Hcs, Hn, Hid, Hname, Hi, !decimal_truthy.
    rewrite (bool_decide_eq_true_2 _ Hchunk). unfold field. simpl default.
    rewrite !parseInt_double by done. simpl.
    unfold chunk_size_rejected, gt, lt.
    rewrite negb_true_iff, orb_false_iff, !Z.ltb_ge. lia.
  - unfold request_metadata, new_metadata, field. rewrite Hfs. simpl default.
    by rewrite parseInt_double.
  - unfold request_metadata, new_metadata, field. rewrite Hcs. simpl default.
    by rewrite parseInt_double.
  - unfold request_metadata, new_metadata, field. rewrite Hn. simpl default.
    by rewrite parseInt_double.
  - intros Hsafe. rewrite Hlast, to_double_safe by done.
    split; [by intros [= ->]|by intros ->].
Qed.

End Names.

(** * The properties on concrete requests

    Each general statement above is run here on the platform [excerpt], and
    each sentence of the specification that the code does not satisfy is
    refuted on a concrete request. *)

#[local] Existing Instance excerpt.

(** ** Range arithmetic *)

Lemma range_arithmetic_witness :
  let st : store := {[ u "f1.json" := range_example ]} in
  let rangeStr := Some (u "bytes=5000000-") in
  st !! metadata_file (u "f1") = Some range_example
  /\ headers_accepted (full_headers range_example) = true
  /\ fileSize range_example = Some 25000000
  /\ chunkSize range_example = Some 10000000
  /\ 0 < 10000000 /\ 0 <= 25000000 <= 2 ^ 53 /\ 5000000 + 10000000 <= 2 ^ 53
  /\ range_start rangeStr = Returned (Some (Num 5000000))
  /\ range_end rangeStr (Some (Num 5000000)) range_example
     = Some (Num (Z.min (5000000 + 10000000) (25000000 - 1))).
Proof.
  intros st rangeStr.
  assert (st !! metadata_file (u "f1") = Some range_example) as H1 by reflexivity.
  assert (headers_accepted (full_headers range_example) = true) as Hh by reflexivity.
  assert (fileSize range_example = Some 25000000) as H2 by reflexivity.
  assert (chunkSize range_example = Some 10000000) as H3 by reflexivity.
  assert (0 < 10000000) as H4 by lia.
  assert (0 <= 25000000 <= 2 ^ 53) as H6 by lia.
  assert (5000000 + 10000000 <= 2 ^ 53) as H7 by lia.
  assert (range_start rangeStr = Returned (Some (Num 5000000))) as H5 by reflexivity.
  split; [exact H1|]. split; [exact Hh|]. split; [exact H2|]. split; [exact H3|].
  split; [exact H4|]. split; [exact H6|]. split; [exact H7|]. split; [exact H5|].
  exact (proj1 (proj2 range_arithmetic st (u "f1") range_example 25000000 10000000
                  rangeStr 5000000 resolve_all fetch_two H1 Hh H2 H3 H4 H6 H7 H5)).
Defined.

(** The figures of the specification for this request are not those of the
    code: the end is 15000000, not 14999999, and so on for the length, the
    [Content-Range] and the end offset of the last part. *)
Lemma range_example_counterexample :
  let r := get_file {[ u "f1.json" := range_example ]} (u "f1")
             (Some (u "bytes=5000000-")) resolve_all fetch_two in
  range_end (Some (u "bytes=5000000-")) (Some (Num 5000000)) range_example
    = Some (Num 15000000)
  /\ range_end (Some (u "bytes=5000000-")) (Some (Num 5000000)) range_example
     <> Some (Num 14999999)
  /\ last (effects r)
     = Some (Fetch (file_url (u "r1")) (Some (u "bytes=0-5000000")))
  /\ exists h body,
      response r = Some (Streamed h body true)
      /\ status h = 206
      /\ content_length h = u "10000001"
      /\ content_length h <> u "10000000"
      /\ content_range h = Some (u "bytes 5000000-15000000/25000000")
      /\ content_range h <> Some (u "bytes 5000000-14999999/25000000").
Proof.
  intros r. split; [reflexivity|]. split; [by vm_compute|].
  split; [reflexivity|]. eexists _, _. split; [reflexivity|].
  repeat split; by vm_compute.
Qed.

(** ** The conflict guard *)

Lemma conflict_guard_witness :
  let st : store := {[ u "f1.json" := range_example ]} in
  let req := chunk_request "f1" "movie.bin" 25000000 0 10000000 3 in
  let r := post_u st req [Sent (u "r9")] [] in
  st !! request_file req = Some range_example
  /\ done range_example = true
  /\ effects r = [] /\ after r = st
  /\ response r = Some (AlreadyUploaded (u "f1"))
  /\ upload_status (AlreadyUploaded (u "f1")) = 409.
Proof.
  intros st req r.
  assert (st !! request_file req = Some range_example) as H1 by reflexivity.
  assert (done range_example = true) as H2 by reflexivity.
  destruct (conflict_guard st req [Sent (u "r9")] [] range_example H1 H2)
    as (He & Ha & Hr & _).
  destruct (Hr eq_refl) as [Hr1 Hr2].
  repeat split; assumption.
Defined.

(** ** The completion invariant *)

Lemma delete_token_iff_done_witness :
  let ops :=
    [IngestChunk (chunk_request "f" "a.bin" (2 * MiB) 0 MiB 2) [Sent (u "r0")] [];
     IngestChunk (chunk_request "f" "a.bin" (2 * MiB) 1 MiB 2)
       [Rejected (Some 3); Sent (u "r1")] [x2a; xff]%byte] in
  exists m,
    run ∅ ops !! u "f.json" = Some m
    /\ done m = true /\ deleteToken m = Some (u "2aff")
    /\ (deleteToken m <> None <-> done m = true).
Proof.
  intros ops. eexists. split; [reflexivity|]. split; [reflexivity|].
  split; [reflexivity|].
  exact (proj1 (delete_token_iff_done ops) (u "f.json") _ eq_refl).
Defined.

(** ** The list of references *)

Lemma chunk_refs_only_grow_witness :
  let st : store := {[ u "f.json" := pending_example ]} in
  let calls := [(chunk_request "f" "a.bin" (3 * MiB) 1 MiB 3, [Sent (u "r1")], [])] in
  st !! metadata_file (u "f") = Some pending_example
  /\ exists m',
      ingest_all st calls !! metadata_file (u "f") = Some m'
      /\ (length (fileIds pending_example) <= length (fileIds m'))%nat
      /\ extends pending_example m'.
Proof.
  intros st calls.
  assert (st !! metadata_file (u "f") = Some pending_example) as H1 by reflexivity.
  split; [assumption|].
  exact (chunk_refs_only_grow calls st (metadata_file (u "f")) pending_example H1).
Defined.

(** Nothing keeps the list within [totalChunks]: chunk 0 of two, sent
    three times, leaves three references. *)
Lemma chunk_refs_exceed_total_counterexample :
  let call := (chunk_request "f" "a.bin" (2 * MiB) 0 MiB 2, [Sent (u "r")], []) in
  exists m,
    ingest_all ∅ [call; call; call] !! u "f.json" = Some m
    /\ totalChunks m = Some 2
    /\ length (fileIds m) = 3%nat
    /\ ~ (Z.of_nat (length (fileIds m)) <= 2).
Proof.
  intros call. eexists. split; [reflexivity|]. split; [reflexivity|].
  split; [reflexivity|]. by vm_compute.
Qed.

(** ** Name normalization *)

Lemma formatFileName_dotted_witness :
  (dot ∈ u "My  File - v2 (final).PDF")
  /\ (exists base ext k,
        u "My  File - v2 (final).PDF" = base ++ dot :: ext /\ (dot ∉ ext)
        /\ formatFileName (u "My  File - v2 (final).PDF") false (Num 0) = k ++ dot :: ext
        /\ extension_of (formatFileName (u "My  File - v2 (final).PDF") false (Num 0))
           = ext
        /\ Forall (fun c => is_kebab c = true) k
        /\ single_hyphens k = true
        /\ alnums k = toLowerCase (alnums (normalize_NFD base))
        /\ k = squeeze is_sep hyphen
                 (toLowerCase
                    (trim (filter (fun c => is_kept c = true) (normalize_NFD base)))))
  /\ is_kept 40%N = false /\ (dot ∉ u "txt")
  /\ normalize_NFD (u "a" ++ 40%N :: u "b") = u "a" ++ 40%N :: u "b"
  /\ normalize_NFD (u "a" ++ u "b") = u "a" ++ u "b"
  /\ formatFileName ((u "a" ++ 40%N :: u "b") ++ dot :: u "txt") false (Num 0)
     = formatFileName ((u "a" ++ u "b") ++ dot :: u "txt") false (Num 0)
  /\ Forall (fun c => is_space c = true) [32%N]
  /\ Forall (fun c => is_space c = true) [9%N; 32%N]
  /\ normalize_NFD ([32%N] ++ u "a" ++ [9%N; 32%N]) = [32%N] ++ u "a" ++ [9%N; 32%N]
  /\ normalize_NFD (u "a") = u "a"
  /\ formatFileName (([32%N] ++ u "a" ++ [9%N; 32%N]) ++ dot :: u "txt") false (Num 0)
     = formatFileName (u "a" ++ dot :: u "txt") false (Num 0).
Proof.
  assert (dot ∈ u "My  File - v2 (final).PDF") as H1 by compute_done.
  assert (is_kept 40%N = false) as H2 by reflexivity.
  assert (dot ∉ u "txt") as H3 by compute_done.
  assert (normalize_NFD (u "a" ++ 40%N :: u "b") = u "a" ++ 40%N :: u "b") as H4
    by reflexivity.
  assert (normalize_NFD (u "a" ++ u "b") = u "a" ++ u "b") as H5 by reflexivity.
  assert (Forall (fun c => is_space c = true) [32%N]) as H6 by (by repeat constructor).
  assert (Forall (fun c => is_space c = true) [9%N; 32%N]) as H7
    by (by repeat constructor).
  assert (normalize_NFD ([32%N] ++ u "a" ++ [9%N; 32%N])
          = [32%N] ++ u "a" ++ [9%N; 32%N]) as H8 by reflexivity.
  assert (normalize_NFD (u "a") = u "a") as H9 by reflexivity.
  destruct formatFileName_dotted as (Hdotted & _ & Hdropped & Htrimmed).
  split; [exact H1|]. split; [exact (Hdotted (u "My  File - v2 (final).PDF") H1)|].
  split; [exact H2|]. split; [exact H3|]. split; [exact H4|]. split; [exact H5|].
  split; [exact (Hdropped (u "a") (u "b") (u "txt") 40%N H2 H3 H4 H5)|].
  split; [exact H6|]. split; [exact H7|]. split; [exact H8|]. split; [exact H9|].
  exact (Htrimmed [32%N] (u "a") [9%N; 32%N] (u "txt") H6 H7 H3 H8 H9).
Defined.

(** White space at the ends is trimmed, and a parenthesis is dropped
    without a hyphen in its place. *)
Example formatFileName_trims_and_drops :
  formatFileName (u " a.txt") false (Num 0) = u "a.txt"
  /\ formatFileName (u "a(b.txt") false (Num 0) = u "ab.txt"
  /\ formatFileName (u "a - b.txt") false (Num 0) = u "a-b.txt".
Proof. repeat split. Qed.

(** A tab and two spaces between two words. *)
Example formatFileName_white_space :
  formatFileName (u "Annual" ++ [9%N; 32%N; 32%N] ++ u "Report2.txt") false (Num 0)
    = u "annual-report2.txt".
Proof. reflexivity. Qed.

Example formatFileName_example :
  formatFileName (u "My  File - v2 (final).PDF") false (Num 0)
    = u "my-file-v2-final.PDF".
Proof. reflexivity. Qed.

(** A name without a dot does not get an empty extension: the whole name
    is taken for the extension and is not sanitised.  And a tab, which is
    outside [[A-Za-z0-9 -]], is not dropped: it becomes a hyphen. *)
Lemma formatFileName_counterexample :
  (dot ∉ u "README")
  /\ formatFileName (u "README") false (Num 0) = u ".README"
  /\ extension_of (formatFileName (u "README") false (Num 0)) = u "README"
  /\ spec_extension (u "README") = []
  /\ extension_of (formatFileName (u "README") false (Num 0)) <> []
  /\ formatFileName (u "a" ++ 9%N :: u "b.txt") false (Num 0) = u "a-b.txt".
Proof.
  split; [compute_done|].
  repeat split; by vm_compute.
Qed.

(** The example of the specification. *)
Example formatFileName_vietnamese :
  formatFileName ([84%N; 7879%N] ++ u "p tin (final)v2.PDF") false (Num 0)
    = u "tep-tin-finalv2.PDF".
Proof. reflexivity. Qed.

(** ** Deletion before completion *)

Lemma delete_before_completion_witness :
  let st : store := {[ u "f.json" := pending_example ]} in
  let r := delete_file st (u "f") (Some (u "00ff")) in
  truthy_str (Some (u "00ff")) = true
  /\ st !! metadata_file (u "f") = Some pending_example
  /\ deleteToken pending_example = None
  /\ response r = Some CannotBeDeleted /\ delete_status CannotBeDeleted = 400
  /\ after r = st /\ effects r = [].
Proof.
  intros st r.
  assert (truthy_str (Some (u "00ff")) = true) as H1 by reflexivity.
  assert (st !! metadata_file (u "f") = Some pending_example) as H2 by reflexivity.
  assert (deleteToken pending_example = None) as H3 by reflexivity.
  repeat (split; [assumption|]).
  exact (delete_before_completion st (u "f") (Some (u "00ff")) pending_example H1 H2 H3).
Defined.

(** The status of that answer is not 403. *)
Lemma delete_before_completion_counterexample :
  ~ (forall (st : store) id token m x,
        truthy_str token = true -> st !! metadata_file id = Some m ->
        deleteToken m = None ->
        response (delete_file st id token) = Some x -> delete_status x = 403).
Proof.
  intros Hclaim.
  specialize (Hclaim {[ u "f.json" := pending_example ]} (u "f") (Some (u "00ff"))
                pending_example CannotBeDeleted eq_refl eq_refl eq_refl eq_refl).
  discriminate Hclaim.
Qed.

(** ** The forms of the range header *)

Lemma range_header_forms_witness :
  let st : store := {[ u "f1.json" := range_example ]} in
  st !! metadata_file (u "f1") = Some range_example
  /\ headers_accepted (full_headers range_example) = true
  /\ (61%N ∉ u "bytes") /\ (61%N ∉ u "100") /\ (hyphen ∉ u "100")
  /\ get_file st (u "f1") (Some (u "bytes" ++ 61%N :: u "100" ++ hyphen :: u "200"))
       resolve_all fetch_two
     = get_file st (u "f1") (Some (u "bytes" ++ 61%N :: u "100" ++ [hyphen]))
         resolve_all fetch_two
  /\ range_start (Some (u "bytes" ++ 61%N :: hyphen :: u "500")) = Returned (Some NaN)
  /\ get_file st (u "f1") (Some (u "bytes" ++ 61%N :: hyphen :: u "500"))
       resolve_all fetch_two
     = answer st (GetFile <$> fileIds range_example)
         (Streamed (partial_headers (full_headers range_example) NaN NaN range_example)
            [] true).
Proof.
  intros st.
  assert (st !! metadata_file (u "f1") = Some range_example) as H1 by reflexivity.
  assert (headers_accepted (full_headers range_example) = true) as Hh by reflexivity.
  assert (61%N ∉ u "bytes") as H2 by compute_done.
  assert (61%N ∉ u "100") as H3 by compute_done.
  assert (hyphen ∉ u "100") as H4 by compute_done.
  destruct (range_header_forms st (u "f1") range_example resolve_all fetch_two H1 Hh)
    as (Hsame & _ & Hnan & Hsuffix & _).
  split; [exact H1|]. split; [exact Hh|]. split; [exact H2|]. split; [exact H3|].
  split; [exact H4|].
  split; [exact (Hsame (u "bytes") (u "100") (u "200") H2 H3 H4)|].
  split; [exact (Hnan (u "bytes") (u "500") H2)|].
  exact (proj1 (Hsuffix _ (Hnan (u "bytes") (u "500") H2))).
Defined.

(** A header that is not of the open-ended form is not handled as an
    absent one: [bytes=100-200] is answered 206, from byte 100. *)
Lemma range_header_forms_counterexample :
  ~ (forall rangeStr,
        open_ended rangeStr = false ->
        get_file {[ u "f1.json" := range_example ]} (u "f1") (Some rangeStr)
          resolve_all fetch_two
        = get_file {[ u "f1.json" := range_example ]} (u "f1") None resolve_all fetch_two).
Proof.
  intros Hclaim. specialize (Hclaim (u "bytes=100-200") eq_refl).
  apply (f_equal (fun r => download_status <$> response r)) in Hclaim.
  vm_compute in Hclaim. discriminate Hclaim.
Qed.

Example explicit_end_is_partial :
  let r := get_file {[ u "f1.json" := range_example ]} (u "f1") (Some (u "bytes=100-200"))
             resolve_all fetch_two in
  exists h body,
    response r = Some (Streamed h body true)
    /\ status h = 206
    /\ content_range h = Some (u "bytes 100-10000100/25000000").
Proof. eexists _, _. repeat split; reflexivity. Qed.

(** What the handler does with the two forms the amended claim is silent
    about: a suffix range gives [NaN] offsets, an empty selection and a
    206; a header without [=] makes the handler throw, and answer 500. *)
Example suffix_range_example :
  let r := get_file {[ u "f1.json" := range_example ]} (u "f1") (Some (u "bytes=-500"))
             resolve_all fetch_two in
  range_start (Some (u "bytes=-500")) = Returned (Some NaN)
  /\ exists h,
      response r = Some (Streamed h [] true)
      /\ status h = 206 /\ content_length h = u "NaN"
      /\ content_range h = Some (u "bytes NaN-NaN/25000000").
Proof. split; [reflexivity|]. eexists. repeat split; reflexivity. Qed.

Example malformed_range_example :
  let r := get_file {[ u "f1.json" := range_example ]} (u "f1") (Some (u "items 0-5"))
             resolve_all fetch_two in
  range_start (Some (u "items 0-5")) = Thrown
  /\ response r = Some InternalError
  /\ download_status InternalError = 500.
Proof. repeat split. Qed.

(** ** Backend failures *)

Lemma backend_failure_keeps_record_witness :
  let st : store := {[ u "f.json" := pending_example ]} in
  let req := chunk_request "f" "a.bin" (3 * MiB) 1 MiB 3 in
  let r := post_u st req ([Rejected (Some 5)] ++ Rejected None :: []) [] in
  accepted req = true
  /\ (forall m, st !! request_file req = Some m -> done m = false)
  /\ Forall (fun r => rate_limited r = true) [Rejected (Some 5)]
  /\ is_rate_limit None = false
  /\ response r = Some UploadFailed /\ upload_status UploadFailed = 500
  /\ after r = st.
Proof.
  intros st req r.
  assert (accepted req = true) as H1 by reflexivity.
  assert (forall m, st !! request_file req = Some m -> done m = false) as H2.
  { intros m Hm. change (Some pending_example = Some m) in Hm.
    injection Hm as <-. reflexivity. }
  assert (Forall (fun r => rate_limited r = true) [Rejected (Some 5)]) as H3
    by (repeat constructor).
  assert (is_rate_limit None = false) as H4 by reflexivity.
  repeat (split; [assumption|]).
  destruct (backend_failure_keeps_record st req [Rejected (Some 5)] None [] []
              H1 H2 H3 H4) as (Hr & Hs & Ha & _).
  repeat split; assumption.
Defined.

(** When the identifier had no record, the failed upload leaves one. *)
Lemma backend_failure_counterexample :
  ~ (forall (st : store) req replies entropy,
        accepted req = true -> ~ already_complete st req ->
        upload_of req replies = Some Thrown ->
        after (post_u st req replies entropy) !! request_file req
        = st !! request_file req).
Proof.
  intros Hclaim.
  assert (~ already_complete ∅ (chunk_request "f" "a.bin" (3 * MiB) 0 MiB 3)) as Hopen.
  { intros (m & Hm & _). discriminate Hm. }
  specialize (Hclaim ∅ (chunk_request "f" "a.bin" (3 * MiB) 0 MiB 3)
                [Rejected None] [] eq_refl Hopen eq_refl).
  vm_compute in Hclaim. discriminate Hclaim.
Qed.

(** ** The total that decides completion *)

Lemma completion_uses_request_total_witness :
  let st : store := {[ u "f.json" := pending_example ]} in
  let req := chunk_request "f" "a.bin" (3 * MiB) 0 MiB 1 in
  accepted req = true
  /\ st !! request_file req = Some pending_example
  /\ done pending_example = false
  /\ upload_of req [Sent (u "r1")] = Some (Returned (u "r1"))
  /\ exists m',
      after (post_u st req [Sent (u "r1")] [x2a]%byte) !! request_file req = Some m'
      /\ done m' = declares_last req
      /\ (declares_last req = true -> deleteToken m' = Some (generateDeleteToken [x2a]%byte))
      /\ totalChunks m' = totalChunks pending_example.
Proof.
  intros st req.
  assert (accepted req = true) as H1 by reflexivity.
  assert (st !! request_file req = Some pending_example) as H2 by reflexivity.
  assert (done pending_example = false) as H3 by reflexivity.
  assert (upload_of req [Sent (u "r1")] = Some (Returned (u "r1"))) as H4 by reflexivity.
  repeat (split; [assumption|]).
  exact (proj1 completion_uses_request_total st req [Sent (u "r1")] [x2a]%byte
           pending_example (u "r1") H1 H2 H3 H4).
Defined.

(** ** Lost references *)


(** A record whose name does not go into a header is not served at
    all, whatever the backend holds: the answer is 500 and nothing is
    fetched. *)
Example unnamed_record_example :
  let st : store := {[ u "e.json" := unnamed_example ]} in
  let r := get_file st (u "e") None resolve_all fetch_two in
  headers_accepted (full_headers unnamed_example) = false
  /\ response r = Some InternalError /\ effects r = []
  /\ download_status InternalError = 500.
Proof. repeat split. Qed.


(** ** Further properties, on concrete requests *)

Lemma rejected_upload_does_nothing_witness :
  let req := chunk_request "f" "a.bin" 4096 0 1024 4 in
  accepted req = false
  /\ effects (post_u ∅ req [Sent (u "r0")] []) = []
  /\ after (post_u ∅ req [Sent (u "r0")] []) = ∅
  /\ response (post_u ∅ req [Sent (u "r0")] [])
     = Some (ChunkSizeOutOfRange (Num 1024)).
Proof.
  intros req.
  assert (accepted req = false) as H1 by reflexivity.
  destruct (rejected_upload_does_nothing ∅ req [Sent (u "r0")] [] H1)
    as (He & Ha & _ & Hr & _).
  destruct (Hr eq_refl) as [Hresp _].
  split; [exact H1|]. split; [exact He|]. split; [exact Ha|]. exact Hresp.
Defined.

(** A chunk size of four hundred digits is read as the infinity, and
    rejected. *)
Example infinite_chunk_size_example :
  let req :=
    {| req_chunk := Some [x01]%byte; req_fileId := Some (u "f");
       req_fileName := Some (u "a.bin"); req_fileSize := Some (u "1");
       req_chunkIndex := Some (u "0"); req_chunkSize := Some (replicate 400 57%N);
       req_totalChunks := Some (u "2") |} in
  parseInt (field (req_chunkSize req)) = Inf false
  /\ response (post_u ∅ req [Sent (u "r0")] [])
     = Some (ChunkSizeOutOfRange (Inf false)).
Proof. split; by vm_compute. Qed.

Lemma uploadToService_retries_witness :
  let limits := [Rejected (Some 3); Rejected (Some 1)] in
  Forall (fun r => rate_limited r = true) limits
  /\ rate_limited (Sent (u "r0")) = false
  /\ uploadToService (limits ++ [Sent (u "r0"); Sent (u "r1")]) [x01]%byte (u "a-0.bin")
     = (replicate 3 (SendDocument (u "a-0.bin") [x01]%byte), Some (Returned (u "r0"))).
Proof.
  intros limits.
  assert (Forall (fun r => rate_limited r = true) limits) as H1
    by (repeat constructor).
  assert (rate_limited (Sent (u "r0")) = false) as H2 by reflexivity.
  split; [assumption|]. split; [assumption|].
  exact (proj1 (uploadToService_retries limits (Sent (u "r0")) [Sent (u "r1")]
                  [x01]%byte (u "a-0.bin") H1 H2)).
Defined.

Lemma other_files_untouched_witness :
  let st : store := {[ u "f.json" := pending_example ]} in
  let op := IngestChunk (chunk_request "g" "b.bin" MiB 0 MiB 1) [Sent (u "r5")] [x01]%byte in
  u "f.json" <> target op /\ step st op !! u "f.json" = Some pending_example.
Proof.
  intros st op.
  assert (u "f.json" <> target op) as H1 by discriminate.
  split; [exact H1|].
  rewrite (other_files_untouched st op (u "f.json") H1). reflexivity.
Defined.

(** Two identifiers can name one file: a chunk sent for [./f] goes into
    the record of [f]. *)
Example alias_names_same_file :
  let st : store := {[ u "f.json" := pending_example ]} in
  let op := IngestChunk (chunk_request "./f" "b.bin" (3 * MiB) 1 MiB 3) [Sent (u "r5")] [] in
  target op = u "f.json"
  /\ fileIds <$> step st op !! u "f.json" = Some [u "r0"; u "r5"].
Proof. split; reflexivity. Qed.

Lemma complete_record_is_final_witness :
  let st : store := {[ u "t.json" := tiny_example ]} in
  let ops :=
    [IngestChunk (chunk_request "t" "t.txt" 4 0 MiB 1) [Sent (u "r9")] [x01]%byte;
     IngestChunk (chunk_request "./t" "t.txt" 4 0 MiB 1) [Sent (u "r9")] [x01]%byte;
     DeleteFile (u "t") (Some (u "beef"));
     DeleteFile (u "./t") None;
     DeleteFile (u "s") (Some (u "00ff"));
     Download (u "t") None resolve_all fetch_two] in
  st !! u "t.json" = Some tiny_example /\ done tiny_example = true
  /\ Forall (fun op => ~ deletes_with (u "t.json") (deleteToken tiny_example) op) ops
  /\ run st ops !! u "t.json" = Some tiny_example.
Proof.
  intros st ops.
  assert (st !! u "t.json" = Some tiny_example) as H1 by reflexivity.
  assert (done tiny_example = true) as H2 by reflexivity.
  assert (Forall (fun op => ~ deletes_with (u "t.json") (deleteToken tiny_example) op)
            ops) as H3.
  { repeat constructor; simpl; try tauto; intros [E1 E2];
      (discriminate E1 || discriminate E2). }
  split; [exact H1|]. split; [exact H2|]. split; [exact H3|].
  exact (complete_record_is_final ops st (u "t.json") tiny_example H1 H2 H3).
Defined.

(** A deletion under another identifier of the same file, with the
    token, does remove the record. *)
Example alias_deletion_example :
  let st : store := {[ u "t.json" := tiny_example ]} in
  let op := DeleteFile (u "./t") (Some (u "00ff")) in
  deletes_with (u "t.json") (deleteToken tiny_example) op
  /\ step st op !! u "t.json" = None.
Proof. repeat split. Qed.

Lemma reachable_record_shape_witness :
  let ops :=
    [IngestChunk (chunk_request "./f" "My File.BIN" (2 * MiB) 0 MiB 2) [Sent (u "r0")] []] in
  reachable (run ∅ ops)
  /\ exists m,
      run ∅ ops !! u "f.json" = Some m
      /\ fileId m = u "./f"
      /\ metadata_file (fileId m) = u "f.json"
      /\ (exists name, fileName m = formatFileName name false (Num 0))
      /\ (forall cs, chunkSize m = Some cs -> 1024 * 1024 <= cs <= 50 * 1024 * 1024)
      /\ (done m = false -> deleteToken m = None).
Proof.
  intros ops.
  assert (reachable (run ∅ ops)) as H1 by (by exists ops).
  split; [exact H1|]. eexists. split; [reflexivity|]. split; [reflexivity|].
  destruct (reachable_record_shape (run ∅ ops) (u "f.json") _ H1 eq_refl)
    as (Hid & Hname & Hsize & _ & Htoken).
  split; [exact Hid|]. split; [exact Hname|]. split; [exact Hsize | exact Htoken].
Defined.

Lemma download_reassembles_witness :
  let st : store := {[ u "t.json" := tiny_example ]} in
  st !! metadata_file (u "t") = Some tiny_example
  /\ headers_accepted (full_headers tiny_example) = true
  /\ backend_holds resolve_all fetch_two two_bytes (fileIds tiny_example)
  /\ response (get_file st (u "t") None resolve_all fetch_two)
     = Some (Streamed (full_headers tiny_example) [x0a; x0b; x0a; x0b]%byte true).
Proof.
  intros st.
  assert (st !! metadata_file (u "t") = Some tiny_example) as H1 by reflexivity.
  assert (headers_accepted (full_headers tiny_example) = true) as Hh by reflexivity.
  assert (backend_holds resolve_all fetch_two two_bytes (fileIds tiny_example)) as H2.
  { intros ref _. exists ref. split; reflexivity. }
  split; [exact H1|]. split; [exact Hh|]. split; [exact H2|].
  exact (proj1 (download_reassembles st (u "t") tiny_example resolve_all fetch_two
                  two_bytes H1 Hh H2)).
Defined.

Lemma upload_download_round_trip_witness :
  let init := [(chunk_request "f" "a.bin" 6 0 MiB 2, [Sent (u "r0")], [])] in
  let final :=
    (chunk_request "f" "a.bin" 6 1 MiB 2, [Rejected (Some 2); Sent (u "r1")],
     [x2a; xff]%byte) in
  (∅ : store) !! metadata_file (u "f") = None
  /\ Forall2 (stores_chunk (u "f") false) init [u "r0"]
  /\ stores_chunk (u "f") true final (u "r1")
  /\ Forall2 (fun call r => three_bytes r = request_chunk call.1.1)
       (init ++ [final]) ([u "r0"] ++ [u "r1"])
  /\ backend_holds resolve_all fetch_three three_bytes ([u "r0"] ++ [u "r1"])
  /\ headers_accepted (full_headers (request_metadata (chunk_request "f" "a.bin" 6 0 MiB 2)))
     = true
  /\ (exists m,
        ingest_all ∅ (init ++ [final]) !! metadata_file (u "f") = Some m
        /\ done m = true /\ fileIds m = [u "r0"; u "r1"]
        /\ deleteToken m = Some (u "2aff"))
  /\ exists h,
      response (get_file (ingest_all ∅ (init ++ [final])) (u "f") None
                  resolve_all fetch_three)
      = Some (Streamed h [x01; x02; x03; x01; x02; x03]%byte true)
      /\ status h = 200.
Proof.
  intros init final.
  assert ((∅ : store) !! metadata_file (u "f") = None) as H1 by reflexivity.
  assert (Forall2 (stores_chunk (u "f") false) init [u "r0"]) as H2.
  { repeat constructor; reflexivity. }
  assert (stores_chunk (u "f") true final (u "r1")) as H3.
  { repeat split; reflexivity. }
  assert (Forall2 (fun call r => three_bytes r = request_chunk call.1.1)
            (init ++ [final]) ([u "r0"] ++ [u "r1"])) as H4.
  { repeat constructor. }
  assert (backend_holds resolve_all fetch_three three_bytes ([u "r0"] ++ [u "r1"]))
    as H5.
  { intros ref _. exists ref. split; reflexivity. }
  assert (headers_accepted
            (full_headers (request_metadata (chunk_request "f" "a.bin" 6 0 MiB 2)))
          = true) as H6 by reflexivity.
  destruct (upload_download_round_trip ∅ (u "f") init final [u "r0"] (u "r1")
              resolve_all fetch_three three_bytes H1 H2 H3 H4 H5)
    as [(m & Hm & Hdone & Hrefs & Htoken & _) Hget].
  split; [exact H1|]. split; [exact H2|]. split; [exact H3|]. split; [exact H4|].
  split; [exact H5|]. split; [exact H6|].
  split; [|exact (proj1 Hget H6)].
  exists m. split; [exact Hm|]. split; [exact Hdone|]. split; [exact Hrefs|exact Htoken].
Defined.

Lemma authorised_deletion_witness :
  let st : store := {[ u "t.json" := tiny_example ]} in
  st !! metadata_file (u "t") = Some tiny_example /\ deleteToken tiny_example = Some (u "00ff")
  /\ u "00ff" <> []
  /\ response (delete_file st (u "t") (Some (u "00ff"))) = Some (Deleted (u "t"))
  /\ after (delete_file st (u "t") (Some (u "00ff"))) = delete (u "t.json") st
  /\ effects (delete_file st (u "t") (Some (u "00ff"))) = [Unlink (u "t.json")].
Proof.
  intros st.
  assert (st !! metadata_file (u "t") = Some tiny_example) as H1 by reflexivity.
  assert (deleteToken tiny_example = Some (u "00ff")) as H2 by reflexivity.
  assert (u "00ff" <> []) as H3 by discriminate.
  repeat (split; [assumption|]).
  destruct (authorised_deletion st (u "t") tiny_example (u "00ff") H1 H2 H3)
    as (Hr & _ & Ha & He & _).
  repeat split; assumption.
Defined.

Lemma completion_token_deletes_witness :
  let req := chunk_request "f" "a.bin" 3 0 MiB 1 in
  let r := post_u ∅ req [Sent (u "r0")] [x2a; xff]%byte in
  accepted req = true /\ ~ already_complete ∅ req /\ declares_last req = true
  /\ upload_of req [Sent (u "r0")] = Some (Returned (u "r0"))
  /\ [x2a; xff]%byte <> []
  /\ response (delete_file (after r) (u "f") (Some (u "2aff"))) = Some (Deleted (u "f"))
  /\ after (delete_file (after r) (u "f") (Some (u "2aff"))) !! metadata_file (u "f")
     = None.
Proof.
  intros req r.
  assert (accepted req = true) as H1 by reflexivity.
  assert (~ already_complete ∅ req) as H2 by (by intros (m & Hm & _)).
  assert (declares_last req = true) as H3 by reflexivity.
  assert (upload_of req [Sent (u "r0")] = Some (Returned (u "r0"))) as H4
    by reflexivity.
  assert ([x2a; xff]%byte <> []) as H5 by discriminate.
  repeat (split; [assumption|]).
  destruct (completion_token_deletes ∅ req [Sent (u "r0")] [x2a; xff]%byte (u "r0")
              H1 H2 H3 H4 H5) as (_ & Hd & Hgone).
  split; assumption.
Defined.

Lemma answer_reports_stored_record_witness :
  let st : store := {[ u "f.json" := pending_example ]} in
  let req := chunk_request "f" "Other Name.bin" (3 * MiB) 1 MiB 7 in
  accepted req = true /\ st !! request_file req = Some pending_example
  /\ done pending_example = false
  /\ upload_of req [Sent (u "r1")] = Some (Returned (u "r1"))
  /\ response (post_u st req [Sent (u "r1")] [])
     = Some (ChunkUploaded (u "f") (u "a.bin") (Num 2) (Some 3)).
Proof.
  intros st req.
  assert (accepted req = true) as H1 by reflexivity.
  assert (st !! request_file req = Some pending_example) as H2 by reflexivity.
  assert (done pending_example = false) as H3 by reflexivity.
  assert (upload_of req [Sent (u "r1")] = Some (Returned (u "r1"))) as H4
    by reflexivity.
  repeat (split; [assumption|]).
  exact (answer_reports_stored_record st req [Sent (u "r1")] [] pending_example
           (u "r1") H1 H2 H3 H4).
Defined.

Lemma range_start_cases_witness :
  let st : store := {[ u "f1.json" := range_example ]} in
  u "bytes" <> [] /\ (61%N ∉ u "bytes")
  /\ st !! metadata_file (u "f1") = Some range_example
  /\ headers_accepted (full_headers range_example) = true
  /\ range_start (Some (u "bytes")) = Thrown
  /\ get_file st (u "f1") (Some (u "bytes")) resolve_all fetch_two
     = answer st (GetFile <$> fileIds range_example) InternalError.
Proof.
  intros st.
  assert (u "bytes" <> []) as H1 by discriminate.
  assert (61%N ∉ u "bytes") as H2 by compute_done.
  assert (st !! metadata_file (u "f1") = Some range_example) as H3 by reflexivity.
  assert (headers_accepted (full_headers range_example) = true) as H4 by reflexivity.
  destruct (range_start_cases (Some (u "bytes"))) as (_ & _ & _ & Hthrown & Hget).
  assert (range_start (Some (u "bytes")) = Thrown) as H5.
  { apply Hthrown. exists (u "bytes"). by split. }
  split; [exact H1|]. split; [exact H2|]. split; [exact H3|]. split; [exact H4|].
  split; [exact H5|].
  exact (Hget st (u "f1") range_example resolve_all fetch_two H3 H4 H5).
Defined.

Lemma ranged_request_two_parts_witness :
  let st : store := {[ u "f1.json" := range_example ]} in
  let rangeStr := Some (u "bytes=5000000-") in
  let r := get_file st (u "f1") rangeStr resolve_all fetch_two in
  st !! metadata_file (u "f1") = Some range_example
  /\ headers_accepted (full_headers range_example) = true
  /\ fileSize range_example = Some 25000000 /\ 0 <= 25000000 <= 2 ^ 53
  /\ chunkSize range_example = Some 10000000 /\ 1 < 10000000
  /\ range_start rangeStr = Returned (Some (Num 5000000))
  /\ 5000000 + 10000000 <= 2 ^ 53
  /\ (length (filter (fun e => is_fetch e = true) (effects r)) <= 2)%nat.
Proof.
  intros st rangeStr r.
  assert (st !! metadata_file (u "f1") = Some range_example) as H1 by reflexivity.
  assert (headers_accepted (full_headers range_example) = true) as Hh by reflexivity.
  assert (fileSize range_example = Some 25000000) as H2 by reflexivity.
  assert (0 <= 25000000 <= 2 ^ 53) as H3 by lia.
  assert (chunkSize range_example = Some 10000000) as H4 by reflexivity.
  assert (1 < 10000000) as H5 by lia.
  assert (range_start rangeStr = Returned (Some (Num 5000000))) as H6 by reflexivity.
  assert (5000000 + 10000000 <= 2 ^ 53) as H7 by lia.
  split; [exact H1|]. split; [exact Hh|]. split; [exact H2|]. split; [exact H3|].
  split; [exact H4|]. split; [exact H5|]. split; [exact H6|]. split; [exact H7|].
  exact (proj1 (ranged_request_two_parts st (u "f1") range_example 25000000 10000000
                  rangeStr 5000000 resolve_all fetch_two H1 Hh H2 H3 H4 H5 H6 H7)).
Defined.

Lemma aligned_range_fetches_one_byte_witness :
  let st : store := {[ u "f1.json" := range_example ]} in
  let rangeStr := Some (u "bytes=10000000-") in
  let r := get_file st (u "f1") rangeStr resolve_all fetch_two in
  st !! metadata_file (u "f1") = Some range_example
  /\ headers_accepted (full_headers range_example) = true
  /\ fileSize range_example = Some 25000000 /\ 25000000 <= 2 ^ 53
  /\ chunkSize range_example = Some 10000000
  /\ 0 < 10000000 /\ 0 <= 1 /\ (1 + 1) * 10000000 < 25000000
  /\ range_start rangeStr = Returned (Some (Num (1 * 10000000)))
  /\ convertFileIdsToUrls resolve_all (fileIds range_example) !! Z.to_nat 1
     = Some (file_url (u "r1"))
  /\ filter (fun e => is_fetch e = true) (effects r)
     = [Fetch (file_url (u "r1")) (Some (u "bytes=0-0"))].
Proof.
  intros st rangeStr r.
  assert (st !! metadata_file (u "f1") = Some range_example) as H1 by reflexivity.
  assert (headers_accepted (full_headers range_example) = true) as Hh by reflexivity.
  assert (fileSize range_example = Some 25000000) as H2 by reflexivity.
  assert (25000000 <= 2 ^ 53) as H2' by lia.
  assert (chunkSize range_example = Some 10000000) as H3 by reflexivity.
  assert (0 < 10000000) as H4 by lia.
  assert (0 <= 1) as H5 by lia.
  assert ((1 + 1) * 10000000 < 25000000) as H6 by lia.
  assert (range_start rangeStr = Returned (Some (Num (1 * 10000000)))) as H7
    by reflexivity.
  assert (convertFileIdsToUrls resolve_all (fileIds range_example) !! Z.to_nat 1
          = Some (file_url (u "r1"))) as H8 by reflexivity.
  split; [exact H1|]. split; [exact Hh|]. split; [exact H2|]. split; [exact H2'|].
  split; [exact H3|]. split; [exact H4|]. split; [exact H5|]. split; [exact H6|].
  split; [exact H7|]. split; [exact H8|].
  exact (proj1 (aligned_range_fetches_one_byte st (u "f1") range_example 25000000
                  10000000 1 (file_url (u "r1")) rangeStr resolve_all fetch_two
                  H1 Hh H2 H2' H3 H4 H5 H6 H7 H8)).
Defined.

Lemma failed_fetch_ends_download_witness :
  let st : store := {[ u "f1.json" := range_example ]} in
  let r := get_file st (u "f1") None resolve_all fetch_zero_only in
  st !! metadata_file (u "f1") = Some range_example
  /\ headers_accepted (full_headers range_example) = true
  /\ convertFileIdsToUrls resolve_all (fileIds range_example)
     = [file_url (u "r0")] ++ file_url (u "r1") :: [file_url (u "r2")]
  /\ Forall (intact fetch_zero_only) [file_url (u "r0")]
  /\ ~ intact fetch_zero_only (file_url (u "r1"))
  /\ filter (fun e => is_fetch e = true) (effects r)
     = [Fetch (file_url (u "r0")) None; Fetch (file_url (u "r1")) None]
  /\ response r = Some (Streamed (full_headers range_example) [x0a; x0b]%byte false).
Proof.
  intros st r.
  assert (st !! metadata_file (u "f1") = Some range_example) as H1 by reflexivity.
  assert (headers_accepted (full_headers range_example) = true) as Hh by reflexivity.
  assert (convertFileIdsToUrls resolve_all (fileIds range_example)
          = [file_url (u "r0")] ++ file_url (u "r1") :: [file_url (u "r2")]) as H2
    by reflexivity.
  assert (Forall (intact fetch_zero_only) [file_url (u "r0")]) as H3.
  { repeat constructor. by eexists. }
  assert (~ intact fetch_zero_only (file_url (u "r1"))) as H4.
  { intros [data Hd]. discriminate Hd. }
  split; [exact H1|]. split; [exact Hh|]. split; [exact H2|]. split; [exact H3|].
  split; [exact H4|].
  exact (failed_fetch_ends_download st (u "f1") range_example resolve_all
           fetch_zero_only [file_url (u "r0")] (file_url (u "r1"))
           [file_url (u "r2")] H1 Hh H2 H3 H4).
Defined.

Lemma download_only_reads_witness :
  let st : store := {[ u "t.json" := tiny_example; u "e.json" := unnamed_example ]} in
  let r := get_file st (u "t") (Some (u "bytes=2-")) resolve_all fetch_two in
  let r' := get_file st (u "e") (Some (u "bytes=2-")) resolve_all fetch_two in
  st !! metadata_file (u "t") = Some tiny_example
  /\ st !! metadata_file (u "e") = Some unnamed_example
  /\ headers_accepted (full_headers tiny_example) = true
  /\ headers_accepted (full_headers unnamed_example) = false
  /\ after r = st
  /\ (exists fetches,
        effects r = [GetFile (u "r0"); GetFile (u "r1")] ++ fetches
        /\ Forall (fun e => is_fetch e = true) fetches)
  /\ effects r' = [] /\ response r' = Some InternalError.
Proof.
  intros st r r'.
  assert (st !! metadata_file (u "t") = Some tiny_example) as H1 by reflexivity.
  assert (st !! metadata_file (u "e") = Some unnamed_example) as H2 by reflexivity.
  assert (headers_accepted (full_headers tiny_example) = true) as H3 by reflexivity.
  assert (headers_accepted (full_headers unnamed_example) = false) as H4
    by reflexivity.
  destruct (download_only_reads st (u "t") tiny_example (Some (u "bytes=2-"))
              resolve_all fetch_two H1) as (Ha & _ & Hread).
  destruct (download_only_reads st (u "e") unnamed_example (Some (u "bytes=2-"))
              resolve_all fetch_two H2) as (_ & Hrefused & _).
  split; [exact H1|]. split; [exact H2|]. split; [exact H3|]. split; [exact H4|].
  split; [exact Ha|]. split; [exact (Hread H3)|]. exact (Hrefused H4).
Defined.

Lemma chunk_names_differ_witness :
  is_value (Num 0) = true /\ is_value (Num 1) = true /\ Num 0 <> Num 1
  /\ formatFileName (u "My File.BIN") true (Num 0)
     <> formatFileName (u "My File.BIN") true (Num 1)
  /\ parseInt (u "7") <> parseInt (u "x")
  /\ formatFileName (u "My File.BIN") true (parseInt (u "7"))
     <> formatFileName (u "My File.BIN") true (parseInt (u "x")).
Proof.
  assert (is_value (Num 0) = true) as H1 by reflexivity.
  assert (is_value (Num 1) = true) as H2 by reflexivity.
  assert (Num 0 <> Num 1) as H3 by discriminate.
  assert (parseInt (u "7") <> parseInt (u "x")) as H4 by discriminate.
  destruct (chunk_names_differ (u "My File.BIN")) as [Hvalues Hread].
  split; [exact H1|]. split; [exact H2|]. split; [exact H3|].
  split; [exact (Hvalues (Num 0) (Num 1) H1 H2 H3)|]. split; [exact H4|].
  exact (Hread (u "7") (u "x") H4).
Defined.

(** The names of three chunks: an index within 2^53, one that is not a
    number, and 2^70, which is printed with an exponent. *)
Example chunk_names_example :
  formatFileName (u "My File.BIN") true (Num 12) = u "my-file-12.BIN"
  /\ formatFileName (u "My File.BIN") true (parseInt (u "x")) = u "my-file-NaN.BIN"
  /\ formatFileName (u "My File.BIN") true (Num (2 ^ 70))
     = u "my-file-1.1805916207174113e+21.BIN"
  /\ to_string (Num (2 ^ 60)) = u "1152921504606847000".
Proof. repeat split; by vm_compute. Qed.

Lemma excerpt_plain_on_kebab : plain_on_kebab.
Proof.
  intros s Hs. change (s ≫= nfd_excerpt = s).
  induction Hs as [|c s Hc _ IH]; [done|].
  change (nfd_excerpt c ++ (s ≫= nfd_excerpt) = c :: s). rewrite IH.
  apply is_kebab_spec in Hc. unfold nfd_excerpt.
  destruct (N.eqb_spec c 233); [lia|]. destruct (N.eqb_spec c 234); [lia|].
  destruct (N.eqb_spec c 7879); [lia|]. done.
Qed.

Lemma formatFileName_idempotent_witness :
  plain_on_kebab
  /\ formatFileName (formatFileName (u "My  File.BIN") false (Num 0)) false (Num 0)
     = u "my-file.BIN".
Proof.
  split; [exact excerpt_plain_on_kebab|].
  rewrite (formatFileName_idempotent (u "My  File.BIN") (Num 0) (Num 0)
             excerpt_plain_on_kebab).
  reflexivity.
Defined.

Lemma decimal_fields_are_read_witness :
  let req := chunk_request "f" "a.bin" (2 * MiB) 1 MiB 2 in
  is_Some (req_chunk req)
  /\ truthy_str (req_fileId req) = true /\ truthy_str (req_fileName req) = true
  /\ is_double (2 * MiB) = true /\ is_double MiB = true
  /\ is_double 2 = true /\ is_double 1 = true
  /\ Z.abs (2 - 1) <= 2 ^ 53
  /\ accepted req = true
  /\ fileSize (request_metadata req) = Some (2 * MiB)
  /\ chunkSize (request_metadata req) = Some MiB
  /\ totalChunks (request_metadata req) = Some 2
  /\ declares_last req = true.
Proof.
  intros req.
  assert (is_Some (req_chunk req)) as H1 by (by eexists).
  assert (truthy_str (req_fileId req) = true) as H2 by reflexivity.
  assert (truthy_str (req_fileName req) = true) as H3 by reflexivity.
  assert (is_double (2 * MiB) = true) as D1 by reflexivity.
  assert (is_double MiB = true) as D2 by reflexivity.
  assert (is_double 2 = true) as D3 by reflexivity.
  assert (is_double 1 = true) as D4 by reflexivity.
  assert (Z.abs (2 - 1) <= 2 ^ 53) as H4 by lia.
  destruct (decimal_fields_are_read req (2 * MiB) MiB 2 1 H1 H2 H3
              eq_refl D1 eq_refl D2 eq_refl D3 eq_refl D4)
    as (Hacc & Hfs & Hcs & Hn & _ & Hlast).
  split; [exact H1|]. split; [exact H2|]. split; [exact H3|].
  split; [exact D1|]. split; [exact D2|]. split; [exact D3|]. split; [exact D4|].
  split; [exact H4|].
  split; [apply Hacc; unfold MiB; lia|].
  split; [exact Hfs|]. split; [exact Hcs|]. split; [exact Hn|].
  apply (Hlast H4). lia.
Defined.

(** Above 2^53 the fields are read at the nearest double: 2^53 + 1 is
    read as 2^53. *)
Example rounded_field_example :
  parseInt (u "9007199254740993") = Num 9007199254740992
  /\ is_double 9007199254740993 = false
  /\ is_double (2 ^ 60) = true /\ is_double 1152921504606847000 = false.
Proof. repeat split. Qed.

Lemma chunk_size_guard_witness :
  let req :=
    {| req_chunk := Some [x01]%byte; req_fileId := Some (u "f");
       req_fileName := Some (u "a.bin"); req_fileSize := Some (u "1");
       req_chunkIndex := Some (u "0"); req_chunkSize := Some (u "big");
       req_totalChunks := Some (u "2") |} in
  fields_present req = true
  /\ parseInt (field (req_chunkSize req)) = NaN
  /\ (∅ : store) !! request_file req = None
  /\ accepted req = true
  /\ exists m,
      after (post_u ∅ req [Sent (u "r0")] []) !! request_file req = Some m
      /\ chunkSize m = None.
Proof.
  intros req.
  assert (fields_present req = true) as H1 by reflexivity.
  assert (parseInt (field (req_chunkSize req)) = NaN) as H2 by reflexivity.
  assert ((∅ : store) !! request_file req = None) as H3 by reflexivity.
  split; [exact H1|]. split; [exact H2|]. split; [exact H3|].
  split.
  - apply (proj1 (chunk_size_guard req)). split; [exact H1|]. left. exact H2.
  - exact (proj2 (chunk_size_guard req) ∅ [Sent (u "r0")] [] H1 H2 H3).
Defined.

Lemma delete_token_shape_witness :
  [x2a; xff]%byte <> []
  /\ length (generateDeleteToken [x2a; xff]%byte) = 4%nat
  /\ truthy_str (Some (generateDeleteToken [x2a; xff]%byte)) = true.
Proof.
  assert ([x2a; xff]%byte <> []) as H1 by discriminate.
  destruct (delete_token_shape [x2a; xff]%byte) as (Hlen & _ & Htruthy & _).
  split; [exact H1|]. split; [exact Hlen|]. exact (Htruthy H1).
Defined.

Lemma deletion_needs_the_token_witness :
  let st : store := {[ u "t.json" := tiny_example ]} in
  truthy_str (Some (u "beef")) = true
  /\ st !! metadata_file (u "t") = Some tiny_example
  /\ truthy_str (deleteToken tiny_example) = true
  /\ deleteToken tiny_example <> Some (u "beef")
  /\ response (delete_file st (u "t") (Some (u "beef"))) = Some InvalidToken
  /\ after (delete_file st (u "t") (Some (u "beef"))) !! u "t.json" = Some tiny_example.
Proof.
  intros st.
  assert (truthy_str (Some (u "beef")) = true) as H1 by reflexivity.
  assert (st !! metadata_file (u "t") = Some tiny_example) as H2 by reflexivity.
  assert (truthy_str (deleteToken tiny_example) = true) as H3 by reflexivity.
  assert (deleteToken tiny_example <> Some (u "beef")) as H4 by discriminate.
  destruct (deletion_needs_the_token st (u "t") (Some (u "beef")))
    as (_ & _ & _ & Hwrong).
  destruct (Hwrong tiny_example H1 H2 H3 H4) as (Hr & _ & Ha).
  split; [exact H1|]. split; [exact H2|]. split; [exact H3|]. split; [exact H4|].
  split; [exact Hr | exact Ha].
Defined.
